(** * The snowball debt-payoff scheduler ([runSnowball])

    A shallow embedding of [runSnowball] from the debt-tracker page of the
    Ledger application, and the properties its specification states about
    it (the specification calls the function [simulate]).

    Modelling decisions.
    - JavaScript numbers are exact rationals ([Q]): sums, differences,
      [Math.min], [Math.max] and comparisons are those of the rationals;
      binary64 rounding, [NaN] and the infinities are outside the model.
      Numbers that come out of arithmetic are compared with [Qeq].
    - The debt records are objects on a heap, addressed by location.  The
      function receives an array of references, builds working copies with
      the spread [{...d, remaining: d.debtAmount}] and mutates the copies
      through the aliases held by [active] and [stillActive].  Arrays that
      the function creates and never shares are lists.  A read of a
      location or a property that is not there fails ([None]).
    - [payments] and [remainingById] are finite maps from ids to numbers.
      [Object.values] lists them in another order than the map fold does;
      the sum of exact rationals does not depend on the order.
    - [maxMonths] is a number of months; it is optional and defaults
      to 600.
    - The inner [while] loop runs on fuel and fails when it runs out;
      [snowball_enough_fuel] shows that the fuel [months_loop] gives it
      is enough, and [bounded_termination] that every call returns.

    - Of the pages around [runSnowball], the values that a component
      computes from its state are functions of that state (the variables
      of a [Section]).  An optional number is an [option], an object used
      as a map is a finite map, a [Map] is the list of its entries in the
      order of insertion, and [Array.prototype.sort] with a comparator
      that subtracts is a stable insertion sort.  What the pages load,
      save, parse or format ([loadConfig], [coerceNumber],
      [formatCurrency], the calls of the API) is outside the model.

    The file has four parts: the program, the vocabulary of the proofs,
    the lemmas, and the properties of the specification (C1 to C10);
    further properties of [runSnowball] and of the pages (X1 to X22)
    follow them, with their lemmas. *)

From Stdlib Require Import QArith Qminmax Lqa Lia Sorted.
From stdpp Require Import base option list gmap strings fin_maps.

Local Open Scope Q_scope.
#[local] Set Warnings "-clear-no-such-hyp".

(** * The program *)

(** ** Numbers *)

(** The tolerance the code writes as [0.000001]. *)
Definition epsilon : Q := 1 # 1000000.

(** [x > y] on numbers. *)
Definition gtb (x y : Q) : bool := negb (Qle_bool x y).

(** [x || 0] for a number [x]: the falsy number [0] is replaced by [0]. *)
Definition or_zero (x : Q) : Q := if Qeq_bool x 0 then 0 else x.

(** [m[k] || 0] for a property that may be absent ([undefined]). *)
Definition prop_or_zero (m : gmap string Q) (k : string) : Q :=
  match m !! k with
  | Some v => or_zero v
  | None => 0
  end.

(** ** Data model *)

(** The fields of [DebtItem] that [runSnowball] reads.  The display fields
    ([name], [currency], [balance], the credit figures) are copied by the
    spread and never read. *)
Record DebtItem := mkDebt {
  id : string;
  minPayment : Q;
  debtAmount : Q
}.

(** A heap object: a debt record, with the [remaining] property once the
    record is a working copy. *)
Record Obj := mkObj {
  fields : DebtItem;
  remaining : option Q
}.

Abbreviation loc := nat (only parsing).
Abbreviation heap := (list Obj) (only parsing).

Record SnowballMonth := mkMonth {
  monthIndex : nat;
  totalPaid : Q;
  payments : gmap string Q;
  remainingById : gmap string Q
}.

(** ** Heap and array primitives *)

(** [d.remaining] *)
Definition read_remaining (h : heap) (l : loc) : option Q :=
  o ← h !! l; remaining o.

(** [d.remaining = r] *)
Definition write_remaining (h : heap) (l : loc) (r : Q) : option heap :=
  o ← h !! l; Some (<[l := mkObj (fields o) (Some r)]> h).

(** [a.filter(p)] *)
Fixpoint array_filter (p : loc → option bool) (a : list loc) : option (list loc) :=
  match a with
  | [] => Some []
  | l :: a' =>
      b ← p l;
      rest ← array_filter p a';
      Some (if b : bool then l :: rest else rest)
  end.

(** [a.every(p)] *)
Fixpoint array_every (p : loc → option bool) (a : list loc) : option bool :=
  match a with
  | [] => Some true
  | l :: a' => b ← p l; if b : bool then array_every p a' else Some false
  end.

(** [a.reduce((sum, d) => sum + (d.minPayment || 0), sum0)] *)
Fixpoint sum_min_payments (h : heap) (a : list loc) (sum : Q) : option Q :=
  match a with
  | [] => Some sum
  | l :: a' =>
      o ← h !! l;
      sum_min_payments h a' (sum + or_zero (minPayment (fields o)))
  end.

(** [a.map((d) => ({ ...d, remaining: d.debtAmount }))]: every element is
    copied into a fresh object. *)
Fixpoint copy_debts (h : heap) (a : list loc) : option (heap * list loc) :=
  match a with
  | [] => Some (h, [])
  | d :: a' =>
      o ← h !! d;
      let fresh := length h in
      '(h', ls) ← copy_debts (h ++ [mkObj (fields o) (Some (debtAmount (fields o)))]) a';
      Some (h', fresh :: ls)
  end.

(** [Object.values(payments).reduce((sum, v) => sum + v, 0)] *)
Definition sum_values (m : gmap string Q) : Q :=
  map_fold (λ _ v sum, sum + v) 0 m.

(** ** Choosing the snowball target *)

(** The [remaining] of every element, read once. *)
Fixpoint with_remaining (h : heap) (a : list loc) : option (list (loc * Q)) :=
  match a with
  | [] => Some []
  | l :: a' =>
      r ← read_remaining h l;
      rest ← with_remaining h a';
      Some ((l, r) :: rest)
  end.

(** [.sort((a, b) => a.remaining - b.remaining)]: a stable sort by
    increasing [remaining] (an insertion sort; the properties only use
    that its first element is a smallest one). *)
Fixpoint insert_sorted (x : loc * Q) (s : list (loc * Q)) : list (loc * Q) :=
  match s with
  | [] => [x]
  | y :: s' => if Qle_bool x.2 y.2 then x :: s else y :: insert_sorted x s'
  end.

Definition sort_by_remaining (a : list (loc * Q)) : list (loc * Q) :=
  foldr insert_sorted [] a.

(** [stillActive.filter((d) => d.remaining > 0.000001).sort(...)[0]] *)
Definition pick_target (h : heap) (stillActive : list loc) : option (option (loc * Q)) :=
  rs ← with_remaining h stillActive;
  Some (head (sort_by_remaining (filter (λ x, gtb x.2 epsilon = true) rs))).

(** ** The two passes of a month *)

Definition month_state : Type := heap * gmap string Q * gmap string Q.

(** The loop "Pay minimums first". *)
Fixpoint pay_minimums (stillActive : list loc) (st : month_state) : option month_state :=
  match stillActive with
  | [] => Some st
  | debt :: rest =>
      let '(h, payments, remainingById) := st in
      o ← h !! debt;
      r ← remaining o;
      let minPay := Qmax 0 (or_zero (minPayment (fields o))) in
      let paid := Qmin r minPay in
      let r' := r - paid in
      h' ← write_remaining h debt r';
      let i := id (fields o) in
      pay_minimums rest
        (h', <[i := prop_or_zero payments i + paid]> payments, <[i := r']> remainingById)
  end.

(** The loop "Snowball: apply extra to smallest remaining debt". *)
Fixpoint snowball (fuel : nat) (stillActive : list loc) (extra : Q) (st : month_state)
  : option (Q * month_state) :=
  match fuel with
  | O => None
  | S fuel' =>
      if gtb extra epsilon then
        let '(h, payments, remainingById) := st in
        target ← pick_target h stillActive;
        match target with
        | None => Some (extra, st)
        | Some (t, r) =>
            let paid := Qmin r extra in
            let r' := r - paid in
            o ← h !! t;
            h' ← write_remaining h t r';
            let i := id (fields o) in
            snowball fuel' stillActive (extra - paid)
              (h', <[i := prop_or_zero payments i + paid]> payments, <[i := r']> remainingById)
        end
      else Some (extra, st)
  end.

(** ** The month loop and [runSnowball] *)

(** The [for] loop, with [n] iterations left before [monthIndex] passes
    [maxMonths]. *)
Fixpoint months_loop (n : nat) (monthIndex : nat) (active : list loc) (totalMonthly : Q)
    (h : heap) (months : list SnowballMonth) : option (heap * list SnowballMonth) :=
  match n with
  | O => Some (h, months)
  | S n' =>
      stillActive ← array_filter (λ l, r ← read_remaining h l; Some (gtb r 0)) active;
      match stillActive with
      | [] => Some (h, months)
      | _ :: _ =>
          requiredMin ← sum_min_payments h stillActive 0;
          let extra := Qmax 0 (totalMonthly - requiredMin) in
          st1 ← pay_minimums stillActive (h, ∅, ∅);
          '(_, (h2, payments, remainingById)) ←
            snowball (S (length stillActive)) stillActive extra st1;
          let totalPaid := sum_values payments in
          let months' := months ++ [mkMonth monthIndex totalPaid payments remainingById] in
          done ← array_every (λ l, r ← read_remaining h2 l; Some (Qle_bool r epsilon)) stillActive;
          if done : bool then Some (h2, months')
          else months_loop n' (S monthIndex) active totalMonthly h2 months'
      end
  end.

Definition default_maxMonths : nat := 600.

(** [runSnowball(debts, extraPayment, maxMonths = 600)]: [debts] is the
    array of references it is called with, [h] the heap before the call;
    the result is the heap after the call and the schedule. *)
Definition runSnowball (h : heap) (debts : list loc) (extraPayment : Q)
    (maxMonths : option nat) : option (heap * list SnowballMonth) :=
  filtered ← array_filter (λ d, o ← h !! d; Some (gtb (debtAmount (fields o)) 0)) debts;
  '(h1, active) ← copy_debts h filtered;
  match active with
  | [] => Some (h1, [])
  | _ :: _ =>
      s ← sum_min_payments h1 active 0;
      let totalMonthly := s + extraPayment in
      months_loop (default default_maxMonths maxMonths) 1 active totalMonthly h1 []
  end.

(** A call on debt records given by value: the records are laid out on an
    otherwise empty heap and the schedule is returned. *)
Definition input_heap (debts : list DebtItem) : heap :=
  map (λ d, mkObj d None) debts.

Definition simulate (debts : list DebtItem) (extraPayment : Q) (maxMonths : option nat)
  : option (list SnowballMonth) :=
  snd <$> runSnowball (input_heap debts) (seq 0 (length debts)) extraPayment maxMonths.


(** * The pages

    [runSnowball] is called by the component [DebtContent], which builds
    its arguments from the accounts and the saved settings and shows the
    schedule; [InstallmentsSection] is the second tab of the same page.
    The file also holds the component [OnboardingContent]. *)

(** ** Accounts, installments and settings *)

Abbreviation Currency := string (only parsing).

(** [Account] and [Installment] of [lib/types.ts], with the fields that
    the page reads; an optional number is an [option]. *)
Module Account.
Record t := mk {
  id : string;
  name : string;
  type : string;
  currency : Currency;
  balance : Q;
  creditLimit : option Q;
  remainingCredit : option Q;
  installmentPrincipalRemaining : option Q;
  remainingCreditAfterInstallments : option Q
}.
End Account.

Module Installment.
Record t := mk {
  id : string;
  accountId : string;
  amount : Q;
  monthsTotal : Q;
  monthsRemaining : Q;
  hasInterest : bool;
  interestAmountPerMonth : Q
}.
End Installment.

(** [DebtConfig]: both objects are maps from a key to a number, the
    entry [{ extraPayment }] of a currency being its number. *)
Record DebtConfig := mkConfig {
  currencyBudgets : gmap string Q;
  minPaymentsByAccountId : gmap string Q
}.

(** The [DebtItem] records that the page builds: the fields that
    [runSnowball] reads ([item]) and the fields that the page shows. *)
Record DebtRow := mkRow {
  item : DebtItem;
  name : string;
  currency : Currency;
  balance : Q;
  creditLimit : option Q;
  remainingCredit : option Q;
  remainingCreditAfterInstallments : option Q;
  installmentPrincipalRemaining : option Q
}.

Definition defaultConfig : DebtConfig :=
  mkConfig (<["MXN" := 0]> (<["USD" := 0]> ∅)) ∅.

(** [a.reduce((sum, x) => sum + f(x), 0)] *)
Definition reduce_sum {A} (f : A → Q) (a : list A) : Q :=
  foldl (λ sum x, sum + f x) 0 a.

(** ** [DebtContent] *)

Module DebtContent.

(** [.sort((a, b) => a.debtAmount - b.debtAmount)]: a stable sort by
    increasing [debtAmount], as an insertion sort. *)
Fixpoint insert_by_debt (x : DebtRow) (s : list DebtRow) : list DebtRow :=
  match s with
  | [] => [x]
  | y :: s' =>
      if Qle_bool (debtAmount (item x)) (debtAmount (item y)) then x :: s
      else y :: insert_by_debt x s'
  end.

Definition sort_by_debt (a : list DebtRow) : list DebtRow :=
  foldr insert_by_debt [] a.

(** What the card "Debt-Free In" shows. *)
Inductive DebtFreeIn :=
  | Months (n : nat)
  | SetMinPayments
  | Dash.

Record Totals := mkTotals {
  totalDebt : Q;
  totalMin : Q;
  totalMonthly : Q
}.

Section state.
(** The state of the component. *)
Variable accounts : list Account.t.
Variable installments : list Installment.t.
Variable config : DebtConfig.
Variable selectedCurrency : Currency.

Definition creditAccounts : list Account.t :=
  filter (λ a, Account.type a = "credit") accounts.

(** [currencies]: the currencies of the credit accounts, each once, in
    the order of their first account (a [Set] keeps the order in which
    its elements were added). *)
Definition currencies : list Currency :=
  foldl (λ set a, if decide (Account.currency a ∈ set) then set
                  else set ++ [Account.currency a])
        [] creditAccounts.

(** The effect that follows a change of [currencies] or of
    [selectedCurrency]: the currency that is selected once it has run. *)
Definition select_currency : Currency :=
  match currencies with
  | [] => selectedCurrency
  | c :: _ => if decide (selectedCurrency ∈ currencies) then selectedCurrency else c
  end.

(** The callback of [.map] in [debts]. *)
Definition debt_row (a : Account.t) : DebtRow :=
  let debtAmount := Qmax 0 (- Account.balance a) in
  mkRow (mkDebt (Account.id a)
                (default 0 (minPaymentsByAccountId config !! Account.id a))
                debtAmount)
        (Account.name a) (Account.currency a) (Account.balance a)
        (Account.creditLimit a) (Account.remainingCredit a)
        (Account.remainingCreditAfterInstallments a)
        (Account.installmentPrincipalRemaining a).

Definition debts : list DebtRow :=
  sort_by_debt
    (map debt_row (filter (λ a, Account.currency a = selectedCurrency) creditAccounts)).

(** [config.currencyBudgets[selectedCurrency]?.extraPayment ?? 0] *)
Definition extraPayment : Q :=
  default 0 (currencyBudgets config !! selectedCurrency).

(** [runSnowball(debts, extraPayment)] *)
Definition snowball : option (list SnowballMonth) :=
  simulate (map item debts) extraPayment None.

Definition monthsToDebtFree : option nat := length <$> snowball.

(** [debts.some((d) => d.debtAmount > 0)] *)
Definition hasDebt : bool :=
  existsb (λ d, gtb (debtAmount (item d)) 0) debts.

Definition totals : Totals :=
  let totalDebt := reduce_sum (λ d, debtAmount (item d)) debts in
  let totalMin :=
    reduce_sum (λ d, if gtb (debtAmount (item d)) 0 then minPayment (item d) else 0) debts in
  let totalMonthly := totalMin + extraPayment in
  mkTotals totalDebt totalMin totalMonthly.

(** [setMinPayment(accountId, value)] and [setExtraPayment(value)]: the
    settings that replace [config]. *)
Definition setMinPayment (accountId : string) (value : Q) : DebtConfig :=
  mkConfig (currencyBudgets config)
           (<[accountId := Qmax 0 value]> (minPaymentsByAccountId config)).

Definition setExtraPayment (value : Q) : DebtConfig :=
  mkConfig (<[selectedCurrency := Qmax 0 value]> (currencyBudgets config))
           (minPaymentsByAccountId config).

(** [hasDebt ? (monthsToDebtFree ? `${monthsToDebtFree} months` :
    "Set min payments") : "—"] *)
Definition debtFreeIn : option DebtFreeIn :=
  n ← monthsToDebtFree;
  Some (if hasDebt then
          match n with
          | O => SetMinPayments
          | S _ => Months n
          end
        else Dash).

(** The row of an account in the table "Credit Accounts": the principal
    that its open installments still owe. *)
Definition row_installmentPrincipalRemaining (d : DebtRow) : Q :=
  default
    (reduce_sum
       (λ i, Installment.amount i / Qmax 1 (Installment.monthsTotal i)
             * Installment.monthsRemaining i)
       (filter (λ i, Installment.accountId i = id (item d) ∧
                     gtb (Installment.monthsRemaining i) 0 = true)
               installments))
    (installmentPrincipalRemaining d).

(** The column "Remaining Debt" of the table "Payoff Schedule". *)
Definition remainingDebt (m : SnowballMonth) : Q :=
  reduce_sum (λ d, default (debtAmount (item d)) (remainingById m !! id (item d))) debts.

(** The rows of the table: [snowball.slice(0, 24)] with month, total paid
    and remaining debt. *)
Definition payoffRows : option (list (nat * Q * Q)) :=
  months ← snowball;
  Some (map (λ m, (monthIndex m, totalPaid m, remainingDebt m)) (take 24 months)).

End state.
End DebtContent.

(** ** [InstallmentsSection] *)

Module InstallmentsSection.

(** A [Map<string, number>], as the list of its entries in the order in
    which their keys were first set. *)
Fixpoint map_get (m : list (string * Q)) (k : string) : option Q :=
  match m with
  | [] => None
  | (k', v) :: m' => if decide (k' = k) then Some v else map_get m' k
  end.

Fixpoint map_set (m : list (string * Q)) (k : string) (v : Q) : list (string * Q) :=
  match m with
  | [] => [(k, v)]
  | (k', v') :: m' => if decide (k' = k) then (k, v) :: m' else (k', v') :: map_set m' k v
  end.

(** [m.get(k) || 0] *)
Definition get_or_zero (m : list (string * Q)) (k : string) : Q :=
  match map_get m k with
  | Some v => or_zero v
  | None => 0
  end.

Record MonthlyRow := mkMonthlyRow {
  accountId : string;
  accountName : string;
  monthlyExpected : Q
}.

(** [.sort((a, b) => b.monthlyExpected - a.monthlyExpected)]: a stable
    sort by decreasing [monthlyExpected], as an insertion sort. *)
Fixpoint insert_by_expected (x : MonthlyRow) (s : list MonthlyRow) : list MonthlyRow :=
  match s with
  | [] => [x]
  | y :: s' =>
      if Qle_bool (monthlyExpected y) (monthlyExpected x) then x :: s
      else y :: insert_by_expected x s'
  end.

Definition sort_by_expected (a : list MonthlyRow) : list MonthlyRow :=
  foldr insert_by_expected [] a.

Record MonthlyTotals := mkMonthlyTotals {
  base : Q;
  interest : Q;
  total : Q
}.

(** [installment.amount / Math.max(1, installment.monthsTotal)] *)
Definition monthlyPrincipal (installment : Installment.t) : Q :=
  Installment.amount installment / Qmax 1 (Installment.monthsTotal installment).

(** [installment.hasInterest ? installment.interestAmountPerMonth : 0] *)
Definition monthlyInterest (installment : Installment.t) : Q :=
  if Installment.hasInterest installment
  then Installment.interestAmountPerMonth installment else 0.

(** The body of the loop of [perAccountMonthly]. *)
Definition add_installment (monthlyByAccountId : list (string * Q))
    (installment : Installment.t) : list (string * Q) :=
  if Qle_bool (Installment.monthsRemaining installment) 0 then monthlyByAccountId
  else
    let monthlyExpected := monthlyPrincipal installment + monthlyInterest installment in
    let k := Installment.accountId installment in
    map_set monthlyByAccountId k (get_or_zero monthlyByAccountId k + monthlyExpected).

Section state.
(** The properties of the component. *)
Variable installments : list Installment.t.
Variable accounts : list Account.t.
Variable selectedCurrency : Currency.

(** [new Map(accounts.map((a) => [a.id, a]))]: of two accounts with the
    same id the later one stays. *)
Definition accountsById : gmap string Account.t :=
  foldl (λ m a, <[Account.id a := a]> m) ∅ accounts.

Definition installmentsForCurrency : list Installment.t :=
  filter (λ i, Account.currency <$> accountsById !! Installment.accountId i
               = Some selectedCurrency)
         installments.

(** [accountsById.get(accountId)?.name || "Unknown"] *)
Definition name_of (accountId : string) : string :=
  match Account.name <$> accountsById !! accountId with
  | Some n => if decide (n = EmptyString) then "Unknown"%string else n
  | None => "Unknown"%string
  end.

Definition perAccountMonthly : list MonthlyRow :=
  let monthlyByAccountId := foldl add_installment [] installmentsForCurrency in
  sort_by_expected
    (map (λ e, mkMonthlyRow e.1 (name_of e.1) e.2) monthlyByAccountId).

Definition monthlyTotals : MonthlyTotals :=
  let base := reduce_sum monthlyPrincipal installmentsForCurrency in
  let interest := reduce_sum monthlyInterest installmentsForCurrency in
  mkMonthlyTotals base interest (base + interest).

End state.
End InstallmentsSection.

(** ** [OnboardingContent] *)

Module OnboardingContent.

Definition steps : list (string * string) :=
  [("welcome", "Welcome"); ("currency", "Currency"); ("accounts", "Accounts");
   ("sheets", "Connect")]%string.

(** [handleNext]: the new [currentStep] and the route that is pushed. *)
Definition handleNext (currentStep : nat) : nat * option string :=
  if (currentStep <? length steps - 1)%nat then ((currentStep + 1)%nat, None)
  else (currentStep, Some "/dashboard"%string).

Definition handleBack (currentStep : nat) : nat :=
  if (0 <? currentStep)%nat then (currentStep - 1)%nat else currentStep.

(** [steps[currentStep].id], which [renderStep] switches on. *)
Definition step_id (currentStep : nat) : option string :=
  fst <$> steps !! currentStep.

Inductive Click := Next | Back.

Definition click (currentStep : nat) (c : Click) : nat :=
  match c with
  | Next => (handleNext currentStep).1
  | Back => handleBack currentStep
  end.

End OnboardingContent.

(** * Vocabulary of the proofs *)

(** ** Numbers and sums *)

Definition nonneg_values (m : gmap string Q) : Prop :=
  ∀ i v, m !! i = Some v → 0 <= v.

Definition sumQ (xs : list Q) : Q := foldr Qplus 0 xs.

(** ** The working copies on the heap *)

(** The [remaining] of the object at [l] ([0] where there is none). *)
Definition rem (h : heap) (l : loc) : Q := default 0 (read_remaining h l).

Section vocabulary.
(** [active] holds the references to the working copies, [F l] the record
    that the copy at [l] was made from, [totalMonthly] the monthly budget. *)
Variable active : list loc.
Variable F : loc → DebtItem.
Variable totalMonthly : Q.

Definition wf (h : heap) : Prop :=
  ∀ l, l ∈ active → ∃ r, h !! l = Some (mkObj (F l) (Some r)).

Definition upd (h : heap) (l : loc) (r : Q) : heap :=
  <[l := mkObj (F l) (Some r)]> h.

(** [Math.max(0, debt.minPayment || 0)] *)
Definition min_pay (l : loc) : Q := Qmax 0 (or_zero (minPayment (F l))).

(** [stillActive] of a month that starts on heap [h]. *)
Definition still_active (h : heap) : list loc :=
  filter (λ l, gtb (rem h l) 0 = true) active.

Definition ids (a : list loc) : gset string :=
  list_to_set (map (λ l, id (F l)) a).

(** How the heap may change while a schedule is computed: only working
    copies change, a copy that is paid off stays as it is, and the
    [remaining] of the others goes down without passing zero. *)
Definition evolves (h h' : heap) : Prop :=
  length h' = length h ∧
  (∀ l, l ∉ active → h' !! l = h !! l) ∧
  (∀ l, l ∈ active →
     (rem h l <= 0 → rem h' l = rem h l) ∧
     (0 < rem h l → 0 <= rem h' l ∧ rem h' l <= rem h l)).

(** Every entry of [remainingById] is the current [remaining] of one of
    the debts [S] that carries the key as its id. *)
Definition tracked (h : heap) (S : list loc) (rb : gmap string Q) : Prop :=
  ∀ i v, rb !! i = Some v → ∃ l, l ∈ S ∧ id (F l) = i ∧ rem h l = v.

(** The debts the snowball pass can still pay into. *)
Definition eligible (h : heap) (sa : list loc) : list loc :=
  filter (λ l, gtb (rem h l) epsilon = true) sa.

(** [requiredMin] of a month whose [stillActive] is [sa]. *)
Definition required_min (sa : list loc) : Q :=
  sumQ (map (λ l, or_zero (minPayment (F l))) sa).

(** What a month that starts on heap [h] with index [k] emits ([m]) and
    leaves behind ([h']). *)
Record month_post (k : nat) (h : heap) (m : SnowballMonth) (h' : heap) : Prop := {
  mp_index : monthIndex m = k;
  mp_wf : wf h';
  mp_evolves : evolves h h';
  mp_dom_payments : dom (payments m) = ids (still_active h);
  mp_dom_remaining : dom (remainingById m) = ids (still_active h);
  mp_tracked : tracked h' (still_active h) (remainingById m);
  mp_nonneg : nonneg_values (payments m);
  mp_total : totalPaid m = sum_values (payments m);
  mp_budget :
    totalPaid m <= sumQ (map min_pay (still_active h))
                   + Qmax 0 (totalMonthly - required_min (still_active h));
  mp_idle :
    Qmax 0 (totalMonthly - required_min (still_active h)) <= epsilon →
    ∀ l, l ∈ still_active h → rem h' l = rem h l - Qmin (rem h l) (min_pay l)
}.

(** *** The month loop

    [run n k h ms h']: from heap [h], month index [k] and [n] iterations
    before the cap, the loop emits the months [ms] and ends on heap [h']. *)
Inductive run : nat → nat → heap → list SnowballMonth → heap → Prop :=
  | run_cap k h : run 0 k h [] h
  | run_paid n k h : still_active h = [] → run (S n) k h [] h
  | run_last n k h m h' :
      still_active h ≠ [] → month_post k h m h' →
      (∀ l, l ∈ still_active h → rem h' l <= epsilon) →
      run (S n) k h [m] h'
  | run_next n k h m h' ms h'' :
      still_active h ≠ [] → month_post k h m h' →
      (∃ l, l ∈ still_active h ∧ epsilon < rem h' l) →
      run n (S k) h' ms h'' →
      run (S n) k h (m :: ms) h''.

End vocabulary.

(** ** From the call to the month loop *)

Definition no_debt : DebtItem := mkDebt "" 0 0.

(** The record stored at [d]. *)
Definition fields_at (h : heap) (d : loc) : DebtItem :=
  default no_debt (fields <$> h !! d).

(** [d.debtAmount > 0] *)
Definition has_debt (d : DebtItem) : bool := gtb (debtAmount d) 0.

(** The working copy of a record: [{ ...d, remaining: d.debtAmount }]. *)
Definition copy (d : DebtItem) : Obj := mkObj d (Some (debtAmount d)).

(** The record behind the working copy at [l], when the copies of [items]
    start at location [k]. *)
Definition item_of (k : nat) (items : list DebtItem) (l : loc) : DebtItem :=
  default no_debt (items !! (l - k)%nat).

(** The records [runSnowball] works on: those of [debts] with a debt. *)
Definition working_items (h : heap) (debts : list loc) : list DebtItem :=
  map (fields_at h) (filter (λ d, has_debt (fields_at h d) = true) debts).

(** The working set: the debts with [debtAmount > 0]. *)
Definition working_set (debts : list DebtItem) : list DebtItem :=
  filter (λ d, has_debt d = true) debts.

(** ** Two heaps side by side *)

Section vocabulary_two_heaps.
(** [same l1 l2]: location [l1] of the first heap corresponds to location
    [l2] of the second. *)
Variable same : loc → loc → Prop.
(** [eqv r1 r2]: the numbers [r1] and [r2] count as the same. *)
Variable eqv : Q → Q → Prop.

Definition related (h1 h2 : heap) : Prop :=
  ∀ l1 l2, same l1 l2 → h1 !! l1 = h2 !! l2.

Definition same_target (x y : loc * Q) : Prop := same x.1 y.1 ∧ eqv x.2 y.2.
End vocabulary_two_heaps.

(** Maps with the same keys and equal numbers, and months made of such. *)
Definition same_entries (m m' : gmap string Q) : Prop :=
  ∀ i, option_Forall2 Qeq (m !! i) (m' !! i).

Definition same_month (m m' : SnowballMonth) : Prop :=
  monthIndex m = monthIndex m' ∧
  totalPaid m == totalPaid m' ∧
  same_entries (payments m) (payments m') ∧
  same_entries (remainingById m) (remainingById m').

(** [minPayment] clamped to be non-negative. *)
Definition clamp_debt (d : DebtItem) : DebtItem :=
  mkDebt (id d) (Qmax 0 (minPayment d)) (debtAmount d).

Section vocabulary_clamped.
Variable active : list loc.
Variables F F' : loc → DebtItem.

(** Two heaps whose working copies have equal [remaining]. *)
Definition agree (h h' : heap) : Prop :=
  wf active F h ∧ wf active F' h' ∧ ∀ l, l ∈ active → rem h l == rem h' l.
End vocabulary_clamped.

(** ** Concrete inputs *)

Definition debt_a : DebtItem := mkDebt "a" 10 50.
Definition debt_b : DebtItem := mkDebt "b" 10 200.

(** The schedule of a call, and its month at position [k]. *)
Definition schedule_of (debts : list DebtItem) (extraPayment : Q) (maxMonths : option nat)
  : list SnowballMonth :=
  default [] (simulate debts extraPayment maxMonths).

Definition month_of (debts : list DebtItem) (extraPayment : Q) (maxMonths : option nat)
    (k : nat) : SnowballMonth :=
  default (mkMonth 0 0 ∅ ∅) (schedule_of debts extraPayment maxMonths !! k).

Definition two_debts : list DebtItem := [debt_a; debt_b].

(** Two debts that share an id: the entry of that id is 0 in month 1,
    when the smaller debt is paid off, and 150 in month 2. *)
Definition twin_debts : list DebtItem := [mkDebt "a" 0 200; mkDebt "a" 0 50].

(** A debt of [1 + 2^-21] paid with an extra payment of 1: what remains,
    [2^-21], is below [epsilon], so the loop stops after month 1 without
    the entry ever being 0. *)
Definition sliver_debt : DebtItem := mkDebt "a" 0 (2097153 # 2097152).

(** A negative extra payment against the same call with the extra payment
    clamped to 0: the second months differ, 15 against 20 paid. *)
Definition short_long : list DebtItem := [mkDebt "a" 10 10; mkDebt "b" 10 100].

(** A debt without a balance that shares its id with a debt that has one. *)
Definition shared_id : list DebtItem := [mkDebt "a" 0 0; mkDebt "a" 10 100].

(** Two debts below [epsilon] that share an id, without any budget: the
    loop stops after month 1, and the entry of the id is the balance of
    the second debt. *)
Definition dust_debts : list DebtItem :=
  [mkDebt "a" 0 (1 # 2097152); mkDebt "a" 0 (1 # 4194304)].

Definition idle_debts : list DebtItem := [mkDebt "a" 0 100].

(** * Vocabulary of the further properties *)

(** ** Payments against balances *)

Section vocabulary_passes.
Variable active : list loc.
Variable F : loc → DebtItem.
Variable totalMonthly : Q.

(** What is still owed on the working copies. *)
Definition owed (h : heap) : Q := sumQ (map (rem h) active).

(** The ids of the working copies identify them. *)
Definition ids_distinct : Prop :=
  ∀ l l', l ∈ active → l' ∈ active → id (F l) = id (F l') → l = l'.

(** The month that starts on heap [h], as the calls of its two passes. *)
Definition month_passes (k : nat) (h : heap) (m : SnowballMonth) (h' : heap) : Prop :=
  ∃ rq h1 p1 rb1 e2 p2 rb2,
    sum_min_payments h (still_active active h) 0 = Some rq ∧
    pay_minimums (still_active active h) (h, ∅, ∅) = Some (h1, p1, rb1) ∧
    snowball (S (length (still_active active h))) (still_active active h)
      (Qmax 0 (totalMonthly - rq)) (h1, p1, rb1) = Some (e2, (h', p2, rb2)) ∧
    m = mkMonth k (sum_values p2) p2 rb2.

(** [trace k h ms h']: the months [ms] are computed one after the other,
    from heap [h] and month index [k], and leave heap [h']; a month is
    followed by another one only if it leaves a balance above
    [epsilon]. *)
Inductive trace : nat → heap → list SnowballMonth → heap → Prop :=
  | trace_nil k h : trace k h [] h
  | trace_cons k h m h' ms h'' :
      wf active F h → still_active active h ≠ [] →
      month_post active F totalMonthly k h m h' → month_passes k h m h' →
      (ms ≠ [] → ∃ l, l ∈ still_active active h ∧ epsilon < rem h' l) →
      trace (S k) h' ms h'' → trace k h (m :: ms) h''.
End vocabulary_passes.

(** The balance [r] of the debt [d] after its minimum payment. *)
Definition after_minimum (r : Q) (d : DebtItem) : Q :=
  r - Qmin r (Qmax 0 (minPayment d)).

(** ** The pages *)

(** Settings without a negative number. *)
Definition config_nonneg (c : DebtConfig) : Prop :=
  nonneg_values (currencyBudgets c) ∧ nonneg_values (minPaymentsByAccountId c).

(** The accounts that the page turns into debts. *)
Definition shown_accounts (accounts : list Account.t) (selectedCurrency : Currency)
  : list Account.t :=
  filter (λ a, Account.currency a = selectedCurrency)
         (DebtContent.creditAccounts accounts).

(** What the column "Remaining Debt" counts for the debt [d] in the row
    of month [m]: [m.remainingById[d.id] ?? d.debtAmount]. *)
Definition shown_remaining (m : SnowballMonth) (d : DebtItem) : Q :=
  default (debtAmount d) (remainingById m !! id d).

(** Month [m] has an entry for the debt [d], and the entry is zero: the
    month paid the debt off. *)
Definition paid_off (m : SnowballMonth) (d : DebtItem) : bool :=
  match remainingById m !! id d with
  | Some v => Qle_bool v 0
  | None => false
  end.

(** [installment.monthsRemaining > 0]: the installment is still open. *)
Definition open_installment (i : Installment.t) : bool :=
  gtb (Installment.monthsRemaining i) 0.

(** What an installment is expected to cost in a month. *)
Definition monthly_expected (i : Installment.t) : Q :=
  InstallmentsSection.monthlyPrincipal i + InstallmentsSection.monthlyInterest i.

(** The open installments of the account [k]. *)
Definition open_on (k : string) (l : list Installment.t) : list Installment.t :=
  filter (λ i, open_installment i = true ∧ Installment.accountId i = k) l.

(** ** Concrete inputs of the further properties *)

(** Three debts without minimum payments: with an extra payment of 60,
    month 1 pays off the smallest debt, [b], and puts the rest into the
    next smallest, [a]. *)
Definition three_debts : list DebtItem :=
  [mkDebt "a" 0 100; mkDebt "b" 0 50; mkDebt "c" 0 300].

(** Three credit cards in pesos: [a] owes 50, [b] owes 200 and [c] is in
    credit; the settings give [a] and [b] a minimum payment of 10 and the
    currency an extra payment of 40. *)
Definition card_a : Account.t := Account.mk "a" "Card A" "credit" "MXN" (-50) None None None None.
Definition card_b : Account.t := Account.mk "b" "Card B" "credit" "MXN" (-200) None None None None.
Definition card_c : Account.t := Account.mk "c" "Card C" "credit" "MXN" 25 None None None None.
Definition cards : list Account.t := [card_b; card_c; card_a].
Definition card_config : DebtConfig :=
  mkConfig (<["MXN" := 40]> (<["USD" := 0]> ∅)) (<["a" := 10]> (<["b" := 10]> ∅)).

(** Two purchases on card [a]: one with 5 of 12 months left and interest,
    one that is paid up. *)
Definition purchase_a : Installment.t := Installment.mk "i1" "a" 1200 12 5 true 10.
Definition purchase_b : Installment.t := Installment.mk "i2" "a" 600 6 0 false 0.
Definition purchases : list Installment.t := [purchase_a; purchase_b].

(** * Lemmas *)

(** ** Numbers *)

Lemma gtb_true x y : gtb x y = true ↔ y < x.
Proof.
  unfold gtb. rewrite negb_true_iff, <- not_true_iff_false, Qle_bool_iff.
  split; [apply Qnot_le_lt | apply Qlt_not_le].
Qed.

Lemma gtb_false x y : gtb x y = false ↔ x <= y.
Proof. unfold gtb. rewrite negb_false_iff. apply Qle_bool_iff. Qed.

Lemma or_zero_eq x : or_zero x == x.
Proof.
  unfold or_zero. destruct (Qeq_bool x 0) eqn:E; [|reflexivity].
  apply Qeq_bool_iff in E. by rewrite E.
Qed.

Lemma epsilon_pos : 0 < epsilon.
Proof. reflexivity. Qed.

Lemma Qmin_cases x y : (x <= y ∧ Qmin x y == x) ∨ (y <= x ∧ Qmin x y == y).
Proof.
  destruct (Q.min_spec x y) as [[? ?]|[? ?]]; [left|right]; split; auto.
  by apply Qlt_le_weak.
Qed.

Lemma Qmax_cases x y : (x <= y ∧ Qmax x y == y) ∨ (y <= x ∧ Qmax x y == x).
Proof.
  destruct (Q.max_spec x y) as [[? ?]|[? ?]]; [left|right]; split; auto.
  by apply Qlt_le_weak.
Qed.

(** ** Sums over the values of a map *)

Lemma sum_values_empty : sum_values ∅ = 0.
Proof. reflexivity. Qed.

Lemma sum_values_insert_fresh (m : gmap string Q) i x :
  m !! i = None → sum_values (<[i:=x]> m) == sum_values m + x.
Proof.
  intros Hi. unfold sum_values.
  apply (map_fold_insert Qeq (λ _ v sum, sum + v)); [| |done].
  - intros _ z a b Hab. by rewrite Hab.
  - intros. ring.
Qed.

Lemma sum_values_insert (m : gmap string Q) i x y :
  m !! i = Some y → sum_values (<[i:=x]> m) == sum_values m - y + x.
Proof.
  intros Hi.
  rewrite <- (insert_delete_eq m i x).
  rewrite sum_values_insert_fresh by apply lookup_delete_eq.
  rewrite <- (insert_delete_id m i y) at 2 by done.
  rewrite (sum_values_insert_fresh (delete i m) i y) by apply lookup_delete_eq.
  ring.
Qed.

Lemma sum_values_add (m : gmap string Q) i p :
  sum_values (<[i := prop_or_zero m i + p]> m) == sum_values m + p.
Proof.
  unfold prop_or_zero. destruct (m !! i) as [y|] eqn:Hi.
  - rewrite (sum_values_insert m i _ y Hi), or_zero_eq. ring.
  - rewrite sum_values_insert_fresh by done. ring.
Qed.


Lemma nonneg_values_add (m : gmap string Q) i p :
  nonneg_values m → 0 <= p → nonneg_values (<[i := prop_or_zero m i + p]> m).
Proof.
  intros Hm Hp j v. rewrite lookup_insert. case_decide; [|by apply Hm].
  intros [= <-]. unfold prop_or_zero. destruct (m !! i) as [y|] eqn:Hi.
  - apply Hm in Hi. rewrite or_zero_eq. lra.
  - lra.
Qed.

Lemma sum_values_bounds (m : gmap string Q) :
  nonneg_values m → 0 <= sum_values m ∧ ∀ i v, m !! i = Some v → v <= sum_values m.
Proof.
  induction m as [|i x m Hi IH] using map_ind.
  - intros _. split; [rewrite sum_values_empty; lra | by intros ??; rewrite lookup_empty].
  - intros Hnn.
    assert (0 <= x) as Hx by (apply (Hnn i); apply lookup_insert_eq).
    destruct IH as [IH0 IH].
    { intros j v Hj. apply (Hnn j). rewrite lookup_insert_ne; [done|]. congruence. }
    split.
    + rewrite sum_values_insert_fresh by done. lra.
    + intros j v. rewrite sum_values_insert_fresh by done.
      rewrite lookup_insert. case_decide.
      * intros [= <-]. lra.
      * intros Hj. apply IH in Hj. lra.
Qed.

(** ** Sums over lists *)


Lemma sumQ_nonneg xs : Forall (λ x, 0 <= x) xs → 0 <= sumQ xs.
Proof. induction 1; simpl; lra. Qed.

Lemma sumQ_le {A} (f g : A → Q) (a : list A) :
  (∀ x, x ∈ a → f x <= g x) → sumQ (map f a) <= sumQ (map g a).
Proof.
  induction a as [|x a IH]; intros H; simpl; [lra|].
  assert (f x <= g x) by (apply H; left).
  assert (sumQ (map f a) <= sumQ (map g a)) by (apply IH; intros; apply H; by right).
  lra.
Qed.

Lemma sumQ_eq {A} (f g : A → Q) (a : list A) :
  (∀ x, x ∈ a → f x == g x) → sumQ (map f a) == sumQ (map g a).
Proof.
  intros H. apply Qle_antisym; apply sumQ_le; intros x Hx; rewrite (H x Hx); lra.
Qed.

Lemma sumQ_zero {A} (f : A → Q) (a : list A) :
  (∀ x, x ∈ a → f x == 0) → sumQ (map f a) == 0.
Proof.
  induction a as [|x a IH]; intros Hz; simpl; [reflexivity|].
  rewrite (Hz x), IH; [reflexivity| |left]. intros; apply Hz; by right.
Qed.

Lemma sumQ_filter_le {A} (P : A → Prop) `{!∀ x, Decision (P x)} (f : A → Q) (a : list A) :
  (∀ x, x ∈ a → 0 <= f x) → sumQ (map f (filter P a)) <= sumQ (map f a).
Proof.
  induction a as [|x a IH]; intros Hf; simpl; [lra|].
  assert (0 <= f x) by (apply Hf; left).
  assert (sumQ (map f (filter P a)) <= sumQ (map f a)) by (apply IH; intros; apply Hf; by right).
  rewrite filter_cons. case_decide; simpl; lra.
Qed.

(** ** The working copies on the heap *)


Section working_set.
Variable active : list loc.
Variable F : loc → DebtItem.
Variable totalMonthly : Q.

Lemma wf_lookup h l :
  wf active F h → l ∈ active → h !! l = Some (mkObj (F l) (Some (rem h l))).
Proof.
  intros Hwf Hl. destruct (Hwf l Hl) as [r Hr].
  unfold rem, read_remaining. by rewrite Hr.
Qed.

Lemma wf_read h l : wf active F h → l ∈ active → read_remaining h l = Some (rem h l).
Proof.
  intros Hwf Hl. unfold read_remaining. by rewrite (wf_lookup h l Hwf Hl).
Qed.

Lemma wf_lt h l : wf active F h → l ∈ active → (l < length h)%nat.
Proof. intros Hwf Hl. eapply lookup_lt_Some, wf_lookup; eauto. Qed.

Lemma write_spec h l r :
  wf active F h → l ∈ active → write_remaining h l r = Some (upd F h l r).
Proof.
  intros Hwf Hl. unfold write_remaining. by rewrite (wf_lookup h l Hwf Hl).
Qed.

Lemma rem_upd_eq h l r : wf active F h → l ∈ active → rem (upd F h l r) l = r.
Proof.
  intros Hwf Hl. unfold rem, read_remaining, upd.
  rewrite list_lookup_insert_eq; [done|]. by apply wf_lt.
Qed.

Lemma lookup_upd_ne h l l' r : l ≠ l' → upd F h l r !! l' = h !! l'.
Proof. intros. unfold upd. by rewrite list_lookup_insert_ne. Qed.

Lemma rem_upd_ne h l l' r : l ≠ l' → rem (upd F h l r) l' = rem h l'.
Proof. intros. unfold rem, read_remaining. by rewrite lookup_upd_ne. Qed.

Lemma wf_upd h l r : wf active F h → l ∈ active → wf active F (upd F h l r).
Proof.
  intros Hwf Hl l' Hl'. destruct (decide (l = l')) as [<-|Hne].
  - exists r. unfold upd. rewrite list_lookup_insert_eq; [done|]. by apply wf_lt.
  - rewrite lookup_upd_ne by done. by apply Hwf.
Qed.


Lemma evolves_refl h : evolves active h h.
Proof. repeat split; auto; lra. Qed.

Lemma evolves_trans h1 h2 h3 : evolves active h1 h2 → evolves active h2 h3 → evolves active h1 h3.
Proof.
  intros (L1 & N1 & A1) (L2 & N2 & A2). split; [congruence|]. split.
  - intros l Hl. rewrite N2, N1; auto.
  - intros l Hl. destruct (A1 l Hl) as [Z1 P1], (A2 l Hl) as [Z2 P2]. split.
    + intros Hz. rewrite Z2; rewrite Z1; auto.
    + intros Hp. destruct (P1 Hp) as [Ha Hb].
      destruct (Qlt_le_dec 0 (rem h2 l)) as [Hc|Hc].
      * destruct (P2 Hc). split; lra.
      * rewrite (Z2 Hc). split; lra.
Qed.

Lemma evolves_upd h l r :
  wf active F h → l ∈ active → 0 < rem h l → 0 <= r → r <= rem h l → evolves active h (upd F h l r).
Proof.
  intros Hwf Hl Hpos H0 Hr. split; [apply length_insert|]. split.
  - intros l' Hl'. apply lookup_upd_ne. intros ->. done.
  - intros l' Hl'. destruct (decide (l = l')) as [<-|Hne].
    + rewrite rem_upd_eq by done. split; [lra|done].
    + rewrite rem_upd_ne by done. split; [done|lra].
Qed.

(** *** The array primitives on working copies *)

Lemma array_filter_remaining h (p : Q → bool) a :
  wf active F h → a ⊆ active →
  array_filter (λ l, r ← read_remaining h l; Some (p r)) a
  = Some (filter (λ l, p (rem h l) = true) a).
Proof.
  intros Hwf. induction a as [|l a IH]; intros Ha; [done|].
  simpl. rewrite (wf_read h l Hwf) by set_solver. simpl.
  rewrite IH by set_solver. simpl. rewrite filter_cons.
  destruct (p (rem h l)); by case_decide.
Qed.

Lemma array_every_remaining h (p : Q → bool) a :
  wf active F h → a ⊆ active →
  ∃ b, array_every (λ l, r ← read_remaining h l; Some (p r)) a = Some b ∧
       (b = true ↔ ∀ l, l ∈ a → p (rem h l) = true).
Proof.
  intros Hwf. induction a as [|l a IH]; intros Ha.
  - exists true. split; [done|]. split; [|done]. intros _ l Hl. by apply elem_of_nil in Hl.
  - simpl. rewrite (wf_read h l Hwf) by set_solver. simpl.
    destruct (p (rem h l)) eqn:E.
    + destruct IH as (b & -> & Hb); [set_solver|]. exists b. split; [done|].
      rewrite Hb. split.
      * intros H l' [->|Hl']%elem_of_cons; auto.
      * intros H l' Hl'. apply H. by right.
    + exists false. split; [done|]. split; [done|].
      intros H. rewrite H in E; [done|left].
Qed.

Lemma sum_min_payments_spec h a s :
  wf active F h → a ⊆ active →
  ∃ s', sum_min_payments h a s = Some s' ∧
        s' == s + sumQ (map (λ l, or_zero (minPayment (F l))) a).
Proof.
  intros Hwf. revert s. induction a as [|l a IH]; intros s Ha.
  - exists s. split; [done|]. simpl. ring.
  - simpl. rewrite (wf_lookup h l Hwf) by set_solver. simpl.
    destruct (IH (s + or_zero (minPayment (F l)))) as (s' & -> & Hs'); [set_solver|].
    exists s'. split; [done|]. rewrite Hs'. ring.
Qed.

(** *** The minimum-payment pass *)


Lemma tracked_write h S rb l r :
  wf active F h → l ∈ active → tracked F h S rb →
  tracked F (upd F h l r) (S ++ [l]) (<[id (F l) := r]> rb).
Proof.
  intros Hwf Hl Htr i v. rewrite lookup_insert. case_decide as Hi.
  - intros [= <-]. exists l. rewrite rem_upd_eq by done. set_solver.
  - intros (l' & Hl' & Hid & Hv)%Htr. exists l'.
    rewrite rem_upd_ne by congruence. set_solver.
Qed.

Lemma min_pay_nonneg l : 0 <= min_pay F l.
Proof. unfold min_pay. destruct (Qmax_cases 0 (or_zero (minPayment (F l)))); lra. Qed.

Lemma pay_minimums_spec todo : ∀ h p rb S,
  wf active F h → NoDup todo → todo ⊆ active → (∀ l, l ∈ todo → 0 < rem h l) →
  (∀ l, l ∈ S → l ∉ todo) →
  ∃ h' p' rb',
    pay_minimums todo (h, p, rb) = Some (h', p', rb') ∧
    wf active F h' ∧ evolves active h h' ∧
    (∀ l, l ∉ todo → h' !! l = h !! l) ∧
    (∀ l, l ∈ todo → rem h' l = rem h l - Qmin (rem h l) (min_pay F l)) ∧
    sum_values p' <= sum_values p + sumQ (map (min_pay F) todo) ∧
    (nonneg_values p → nonneg_values p') ∧
    dom p' = dom p ∪ ids F todo ∧
    dom rb' = dom rb ∪ ids F todo ∧
    (tracked F h S rb → tracked F h' (S ++ todo) rb').
Proof.
  induction todo as [|l todo IH]; intros h p rb S Hwf Hnd Hsub Hpos Hdisj.
  - exists h, p, rb. rewrite app_nil_r.
    split; [done|]. split; [done|]. split; [apply evolves_refl|]. split; [done|].
    split; [intros l Hl; by apply elem_of_nil in Hl|].
    split; [simpl; lra|]. split; [done|].
    split; [unfold ids; simpl; set_solver|].
    split; [unfold ids; simpl; set_solver|]. done.
  - apply NoDup_cons in Hnd as [Hl Hnd].
    assert (l ∈ active) as Hla by set_solver.
    assert (0 < rem h l) as Hr by (apply Hpos; left).
    pose proof (min_pay_nonneg l) as Hmp.
    set (paid := Qmin (rem h l) (min_pay F l)).
    assert (0 <= paid ∧ paid <= rem h l ∧ paid <= min_pay F l) as (Hp0 & Hp1 & Hp2).
    { unfold paid. destruct (Qmin_cases (rem h l) (min_pay F l)) as [[? ->]|[? ->]]; lra. }
    set (h1 := upd F h l (rem h l - paid)).
    assert (wf active F h1) as Hwf1 by (by apply wf_upd).
    destruct (IH h1 (<[id (F l) := prop_or_zero p (id (F l)) + paid]> p)
                (<[id (F l) := rem h l - paid]> rb) (S ++ [l]))
      as (h' & p' & rb' & Hrun & Hwf' & Hev & Hfr & Hrem & Hsum & Hnn & Hdp & Hdr & Htr);
      auto.
    { set_solver. }
    { intros l' Hl'. unfold h1. rewrite rem_upd_ne by (intros ->; done).
      apply Hpos. by right. }
    { intros l' [Hl'| ->%list_elem_of_singleton]%elem_of_app; [|done].
      intros Hin. apply (Hdisj l' Hl'). by right. }
    exists h', p', rb'. split.
    { simpl. rewrite (wf_lookup h l Hwf Hla). simpl.
      rewrite (write_spec h l _ Hwf Hla). simpl. exact Hrun. }
    split; [done|]. split.
    { eapply evolves_trans; [|exact Hev]. apply evolves_upd; auto; lra. }
    split.
    { intros l' Hl'. rewrite Hfr by set_solver. apply lookup_upd_ne. set_solver. }
    split.
    { intros l' [->|Hl']%elem_of_cons.
      - unfold rem at 1, read_remaining. rewrite Hfr by done.
        fold (read_remaining h1 l) (rem h1 l). unfold h1. by rewrite rem_upd_eq.
      - rewrite Hrem by done. unfold h1. rewrite rem_upd_ne by (intros ->; done). done. }
    split.
    { rewrite sum_values_add in Hsum. simpl. fold paid in Hp2. lra. }
    split.
    { intros Hp. apply Hnn. by apply nonneg_values_add. }
    split.
    { rewrite Hdp, dom_insert_L. unfold ids. simpl. set_solver. }
    split.
    { rewrite Hdr, dom_insert_L. unfold ids. simpl. set_solver. }
    intros Htr0. replace (S ++ l :: todo) with ((S ++ [l]) ++ todo)
      by (by rewrite <- app_assoc).
    apply Htr.
    by apply tracked_write.
Qed.

(** *** The snowball pass *)

Lemma with_remaining_spec h a :
  wf active F h → a ⊆ active → with_remaining h a = Some (map (λ l, (l, rem h l)) a).
Proof.
  intros Hwf. induction a as [|l a IH]; intros Ha; [done|].
  simpl. rewrite (wf_read h l Hwf) by set_solver. simpl.
  rewrite IH by set_solver. done.
Qed.

Lemma insert_sorted_head x s y :
  head (insert_sorted x s) = Some y → y = x ∨ head s = Some y.
Proof.
  destruct s as [|z s]; simpl; [naive_solver|].
  destruct (Qle_bool x.2 z.2); simpl; naive_solver.
Qed.

Lemma insert_sorted_not_nil x s : insert_sorted x s ≠ [].
Proof. destruct s as [|z s]; simpl; [done|]. by destruct (Qle_bool x.2 z.2). Qed.

Lemma sort_by_remaining_head a :
  match head (sort_by_remaining a) with
  | Some x => x ∈ a
  | None => a = []
  end.
Proof.
  induction a as [|x a IH]; simpl; [done|].
  destruct (head (insert_sorted x (sort_by_remaining a))) as [y|] eqn:E.
  - apply insert_sorted_head in E as [->|E]; [left|].
    rewrite E in IH. by right.
  - apply head_None in E. by apply insert_sorted_not_nil in E.
Qed.

Lemma pick_target_spec h sa :
  wf active F h → sa ⊆ active →
  pick_target h sa = Some None ∨
  ∃ t, pick_target h sa = Some (Some (t, rem h t)) ∧ t ∈ sa ∧ epsilon < rem h t.
Proof.
  intros Hwf Hsa. unfold pick_target. rewrite with_remaining_spec by done. simpl.
  pose proof (sort_by_remaining_head
    (filter (λ x : loc * Q, gtb x.2 epsilon = true) (map (λ l, (l, rem h l)) sa))) as Hh.
  destruct (head _) as [[t r]|]; [right|by left].
  apply list_elem_of_filter in Hh as [Hgt Hin]. simpl in Hgt.
  apply list_elem_of_fmap in Hin as (l & [= -> ->] & Hl).
  exists l. by rewrite <- gtb_true.
Qed.


Lemma sort_by_remaining_least a x :
  head (sort_by_remaining a) = Some x → ∀ y, y ∈ a → x.2 <= y.2.
Proof.
  revert x. induction a as [|z a IH]; intros x; simpl; [done|].
  pose proof (sort_by_remaining_head a) as Hhead.
  destruct (sort_by_remaining a) as [|y0 s] eqn:E; simpl in *.
  - subst a. intros [= <-] y Hy. apply list_elem_of_singleton in Hy as ->. lra.
  - specialize (IH y0 eq_refl). destruct (Qle_bool z.2 y0.2) eqn:Hle; simpl.
    + apply Qle_bool_iff in Hle. intros [= <-] y [->|Hy]%elem_of_cons; [lra|].
      specialize (IH y Hy). lra.
    + assert (y0.2 < z.2) as Hlt.
      { apply Qnot_le_lt. rewrite <- Qle_bool_iff. by rewrite Hle. }
      intros [= <-] y [->|Hy]%elem_of_cons; [lra|]. by apply IH.
Qed.

(** The snowball target is a debt with the smallest [remaining] among
    those above the tolerance. *)
Lemma pick_target_smallest h sa t r :
  wf active F h → sa ⊆ active →
  pick_target h sa = Some (Some (t, r)) →
  ∀ l, l ∈ sa → epsilon < rem h l → r <= rem h l.
Proof.
  intros Hwf Hsa. unfold pick_target. rewrite (with_remaining_spec h sa) by done. simpl.
  intros [= Hhead] l Hl Hgt.
  apply (sort_by_remaining_least _ _ Hhead (l, rem h l)).
  apply list_elem_of_filter. split; [by apply gtb_true|].
  apply list_elem_of_fmap. eauto.
Qed.

Lemma eligible_paid_off h sa t r :
  wf active F h → t ∈ active → t ∈ sa → epsilon < rem h t → r <= epsilon →
  (length (eligible (upd F h t r) sa) < length (eligible h sa))%nat.
Proof.
  intros Hwf Hta Ht Hgt Hr. unfold eligible.
  induction sa as [|l sa IH]; [by apply elem_of_nil in Ht|].
  assert (length (filter (λ l, gtb (rem (upd F h t r) l) epsilon = true) sa)
          ≤ length (filter (λ l, gtb (rem h l) epsilon = true) sa))%nat as Hle.
  { clear IH Ht. induction sa as [|l' sa IH]; [done|].
    rewrite !filter_cons. destruct (decide (t = l')) as [<-|Hne].
    - rewrite rem_upd_eq by done.
      rewrite (decide_True (P := gtb (rem h t) epsilon = true)) by (by apply gtb_true).
      rewrite (decide_False (P := gtb r epsilon = true)); [simpl; lia|].
      rewrite gtb_true. lra.
    - rewrite rem_upd_ne by done. case_decide; simpl; lia. }
  rewrite !filter_cons. destruct (decide (t = l)) as [<-|Hne].
  - rewrite rem_upd_eq by done.
    rewrite (decide_True (P := gtb (rem h t) epsilon = true)) by (by apply gtb_true).
    rewrite (decide_False (P := gtb r epsilon = true)); [simpl; lia|].
    rewrite gtb_true. lra.
  - rewrite rem_upd_ne by done.
    assert (t ∈ sa) as Ht' by set_solver. specialize (IH Ht').
    case_decide; simpl; lia.
Qed.

Lemma tracked_write_in h S rb t r :
  wf active F h → t ∈ active → t ∈ S → tracked F h S rb →
  tracked F (upd F h t r) S (<[id (F t) := r]> rb).
Proof.
  intros Hwf Hta Ht Htr i v Hi.
  destruct (tracked_write h S rb t r Hwf Hta Htr i v Hi) as (l & Hl & ? & ?).
  exists l. set_solver.
Qed.

Lemma elem_of_ids a l : l ∈ a → id (F l) ∈ ids F a.
Proof. intros Hl. unfold ids. apply elem_of_list_to_set, list_elem_of_fmap. eauto. Qed.

Lemma eligible_length_pos h sa t :
  t ∈ sa → epsilon < rem h t → (0 < length (eligible h sa))%nat.
Proof.
  intros Ht Hgt. assert (t ∈ eligible h sa) as Hin.
  { apply list_elem_of_filter. by rewrite gtb_true. }
  destruct (eligible h sa); [by apply elem_of_nil in Hin | simpl; lia].
Qed.

Lemma snowball_spec fuel : ∀ sa e h p rb,
  wf active F h → sa ⊆ active → (0 < fuel)%nat →
  (epsilon < e → (length (eligible h sa) < fuel)%nat) →
  ∃ e' h' p' rb',
    snowball fuel sa e (h, p, rb) = Some (e', (h', p', rb')) ∧
    wf active F h' ∧ evolves active h h' ∧
    sum_values p' + e' == sum_values p + e ∧
    (0 <= e → 0 <= e') ∧
    (nonneg_values p → nonneg_values p') ∧
    (ids F sa ⊆ dom p → dom p' = dom p) ∧
    (ids F sa ⊆ dom rb → dom rb' = dom rb) ∧
    (tracked F h sa rb → tracked F h' sa rb') ∧
    (e <= epsilon → h' = h ∧ p' = p ∧ rb' = rb).
Proof.
  induction fuel as [|fuel IH]; intros sa e h p rb Hwf Hsa Hfuel Hmeasure; [lia|].
  simpl. destruct (gtb e epsilon) eqn:Hgt.
  2:{ exists e, h, p, rb. split; [done|]. split; [done|]. split; [apply evolves_refl|].
      split; [reflexivity|]. repeat split; auto. }
  apply gtb_true in Hgt.
  destruct (pick_target_spec h sa Hwf Hsa) as [->|(t & -> & Ht & Hrt)]; simpl.
  { exists e, h, p, rb. split; [done|]. split; [done|]. split; [apply evolves_refl|].
    split; [reflexivity|]. repeat split; auto; lra. }
  assert (t ∈ active) as Hta by set_solver.
  rewrite (wf_lookup h t Hwf Hta). simpl.
  rewrite (write_spec h t _ Hwf Hta). simpl.
  set (paid := Qmin (rem h t) e).
  pose proof epsilon_pos as Heps.
  assert (0 < paid ∧ paid <= rem h t ∧ paid <= e ∧ (paid == rem h t ∨ paid == e))
    as (Hp0 & Hp1 & Hp2 & Hp3).
  { unfold paid. destruct (Qmin_cases (rem h t) e) as [[? Hm]|[? Hm]];
      rewrite Hm; repeat split; auto; lra. }
  set (h1 := upd F h t (rem h t - paid)).
  assert (wf active F h1) as Hwf1 by (by apply wf_upd).
  pose proof (eligible_length_pos h sa t Ht Hrt) as Hlen.
  specialize (Hmeasure Hgt).
  destruct (IH sa (e - paid) h1
              (<[id (F t) := prop_or_zero p (id (F t)) + paid]> p)
              (<[id (F t) := rem h t - paid]> rb))
    as (e' & h' & p' & rb' & Hrun & Hwf' & Hev & Hsum & He & Hnn & Hdp & Hdr & Htr & _);
    auto.
  { lia. }
  { intros He. assert (rem h t - paid <= epsilon) as Hz by (destruct Hp3; lra).
    pose proof (eligible_paid_off h sa t _ Hwf Hta Ht Hrt Hz). unfold h1. lia. }
  exists e', h', p', rb'. split; [exact Hrun|]. split; [done|]. split.
  { eapply evolves_trans; [|exact Hev]. apply evolves_upd; auto; lra. }
  split.
  { rewrite Hsum, sum_values_add. ring. }
  split.
  { intros _. apply He. lra. }
  split.
  { intros Hp. apply Hnn. apply nonneg_values_add; auto. lra. }
  pose proof (elem_of_ids sa t Ht) as Hid.
  split.
  { intros Hd. rewrite Hdp; rewrite dom_insert_L; set_solver. }
  split.
  { intros Hd. rewrite Hdr; rewrite dom_insert_L; set_solver. }
  split.
  { intros Htr0. apply Htr. by apply tracked_write_in. }
  intros Hle. lra.
Qed.

(** The fuel that [months_loop] gives to the snowball pass is enough: the
    pass ends by its own tests. *)
Lemma snowball_enough_fuel sa e h p rb :
  wf active F h → sa ⊆ active →
  is_Some (snowball (S (length sa)) sa e (h, p, rb)).
Proof.
  intros Hwf Hsa.
  destruct (snowball_spec (S (length sa)) sa e h p rb Hwf Hsa)
    as (e' & h' & p' & rb' & -> & _); [lia| |done].
  intros _. unfold eligible.
  pose proof (length_filter (λ l, gtb (rem h l) epsilon = true) sa). lia.
Qed.

(** *** One month *)

Hypothesis active_NoDup : NoDup active.




Lemma still_active_sub h : still_active active h ⊆ active.
Proof. intros l Hl. unfold still_active in Hl. by apply list_elem_of_filter in Hl as [_ ?]. Qed.

Lemma still_active_pos h l : l ∈ still_active active h ↔ l ∈ active ∧ 0 < rem h l.
Proof.
  unfold still_active. rewrite list_elem_of_filter, gtb_true.
  split; intros [? ?]; by split.
Qed.

Lemma still_active_NoDup h : NoDup (still_active active h).
Proof. by apply NoDup_filter. Qed.

Lemma month_steps k h :
  wf active F h → still_active active h ≠ [] →
  ∃ rq h1 p1 rb1 e2 h2 p2 rb2,
    sum_min_payments h (still_active active h) 0 = Some rq ∧
    rq == required_min F (still_active active h) ∧
    pay_minimums (still_active active h) (h, ∅, ∅) = Some (h1, p1, rb1) ∧
    snowball (S (length (still_active active h))) (still_active active h)
      (Qmax 0 (totalMonthly - rq)) (h1, p1, rb1) = Some (e2, (h2, p2, rb2)) ∧
    month_post active F totalMonthly k h (mkMonth k (sum_values p2) p2 rb2) h2 ∧
    ∀ n acc,
      months_loop (S n) k active totalMonthly h acc =
      (done ← array_every (λ l, r ← read_remaining h2 l; Some (Qle_bool r epsilon))
                (still_active active h);
       if done : bool then Some (h2, acc ++ [mkMonth k (sum_values p2) p2 rb2])
       else months_loop n (S k) active totalMonthly h2
              (acc ++ [mkMonth k (sum_values p2) p2 rb2])).
Proof.
  intros Hwf Hne.
  pose proof (still_active_sub h) as Hsub.
  destruct (sum_min_payments_spec h (still_active active h) 0 Hwf Hsub) as (rq & Hrq & Hrqv).
  destruct (pay_minimums_spec (still_active active h) h ∅ ∅ [] Hwf (still_active_NoDup h) Hsub)
    as (h1 & p1 & rb1 & Hmin & Hwf1 & Hev1 & Hfr1 & Hrem1 & Hsum1 & Hnn1 & Hdp1 & Hdr1 & Htr1).
  { intros l Hl. by apply still_active_pos in Hl as [_ ?]. }
  { intros l Hl. by apply elem_of_nil in Hl. }
  set (extra := Qmax 0 (totalMonthly - rq)).
  assert (rq == required_min F (still_active active h)) as Hrqv'.
  { rewrite Hrqv. unfold required_min. ring. }
  assert (extra == Qmax 0 (totalMonthly - required_min F (still_active active h))) as Hextra.
  { unfold extra.
    destruct (Qmax_cases 0 (totalMonthly - rq)) as [[? ->]|[? ->]];
    destruct (Qmax_cases 0 (totalMonthly - required_min F (still_active active h)))
      as [[? ->]|[? ->]]; lra. }
  assert (0 <= extra) as Hextra0.
  { unfold extra. destruct (Qmax_cases 0 (totalMonthly - rq)) as [[? ->]|[? ->]]; lra. }
  destruct (snowball_spec (S (length (still_active active h))) (still_active active h) extra
              h1 p1 rb1 Hwf1 Hsub)
    as (e2 & h2 & p2 & rb2 & Hsnow & Hwf2 & Hev2 & Hsum2 & He2 & Hnn2 & Hdp2 & Hdr2 & Htr2 & Hidle);
    [lia| |].
  { intros _. unfold eligible.
    pose proof (length_filter (λ l, gtb (rem h1 l) epsilon = true) (still_active active h)). lia. }
  rewrite dom_empty_L, union_empty_l_L in Hdp1, Hdr1.
  exists rq, h1, p1, rb1, e2, h2, p2, rb2.
  split; [done|]. split; [done|]. split; [done|]. split; [done|]. split.
  - split; simpl; auto.
    + eapply evolves_trans; eauto.
    + rewrite Hdp2; by rewrite Hdp1.
    + rewrite Hdr2; by rewrite Hdr1.
    + apply Htr2, Htr1. intros i v. by rewrite lookup_empty.
    + apply Hnn2, Hnn1. intros i v. by rewrite lookup_empty.
    + rewrite sum_values_empty in Hsum1. specialize (He2 Hextra0). lra.
    + intros Hle l Hl. destruct Hidle as (-> & _ & _); [lra|]. by apply Hrem1.
  - intros n acc. cbn [months_loop].
    rewrite (array_filter_remaining h (λ r, gtb r 0) active Hwf) by done.
    fold (still_active active h). cbn [mbind option_bind].
    destruct (still_active active h) as [|x sa] eqn:E; [done|].
    rewrite Hrq. cbn [mbind option_bind]. rewrite Hmin. cbn [mbind option_bind].
    fold extra. rewrite Hsnow. done.
Qed.

Lemma month_body k h :
  wf active F h → still_active active h ≠ [] →
  ∃ m h',
    month_post active F totalMonthly k h m h' ∧
    ∀ n acc,
      months_loop (S n) k active totalMonthly h acc =
      (done ← array_every (λ l, r ← read_remaining h' l; Some (Qle_bool r epsilon))
                (still_active active h);
       if done : bool then Some (h', acc ++ [m])
       else months_loop n (S k) active totalMonthly h' (acc ++ [m])).
Proof.
  intros Hwf Hne.
  destruct (month_steps k h Hwf Hne) as (rq & h1 & p1 & rb1 & e2 & h2 & p2 & rb2 & Hs).
  exists (mkMonth k (sum_values p2) p2 rb2), h2. apply Hs.
Qed.



Lemma months_loop_run n : ∀ k h acc,
  wf active F h →
  ∃ h' ms,
    months_loop n k active totalMonthly h acc = Some (h', acc ++ ms) ∧
    run active F totalMonthly n k h ms h'.
Proof.
  induction n as [|n IH]; intros k h acc Hwf.
  { exists h, []. rewrite app_nil_r. split; [done|constructor]. }
  destruct (decide (still_active active h = [])) as [He|Hne].
  { exists h, []. rewrite app_nil_r. split; [|by constructor].
    cbn [months_loop]. rewrite (array_filter_remaining h (λ r, gtb r 0) active Hwf) by done.
    simpl. unfold still_active in He. by rewrite He. }
  destruct (month_body k h Hwf Hne) as (m & h' & Hpost & Hloop).
  rewrite Hloop.
  destruct (array_every_remaining h' (λ r, Qle_bool r epsilon) (still_active active h))
    as (b & -> & Hb); [apply Hpost|apply still_active_sub|].
  simpl. destruct b.
  - exists h', [m]. split; [done|]. apply run_last; auto.
    intros l Hl. apply Qle_bool_iff. by apply Hb.
  - destruct (IH (S k) h' (acc ++ [m])) as (h'' & ms & -> & Hrun); [apply Hpost|].
    exists h'', (m :: ms). split; [by rewrite <- app_assoc|].
    eapply run_next; eauto.
    destruct (decide (Forall (λ l, Qle_bool (rem h' l) epsilon = true) (still_active active h)))
      as [Hall|Hex].
    + rewrite Forall_forall in Hall. destruct Hb as [_ Hb]. by specialize (Hb Hall).
    + apply not_Forall_Exists in Hex; [|intros ?; apply _].
      apply Exists_exists in Hex as (l & Hl & Hnle). exists l. split; [done|].
      apply Qnot_le_lt. by rewrite <- Qle_bool_iff.
Qed.

(** The first month that the loop emits is the month computed from the
    heap the loop starts on. *)
Lemma months_loop_head n k h m h2 :
  wf active F h → still_active active h ≠ [] →
  month_post active F totalMonthly k h m h2 →
  (∀ n acc,
      months_loop (S n) k active totalMonthly h acc =
      (done ← array_every (λ l, r ← read_remaining h2 l; Some (Qle_bool r epsilon))
                (still_active active h);
       if done : bool then Some (h2, acc ++ [m])
       else months_loop n (S k) active totalMonthly h2 (acc ++ [m]))) →
  ∃ h' ms, months_loop (S n) k active totalMonthly h [] = Some (h', m :: ms).
Proof.
  intros Hwf Hne Hpost Hloop. rewrite Hloop.
  destruct (array_every_remaining h2 (λ r, Qle_bool r epsilon) (still_active active h))
    as (b & -> & _); [apply Hpost|apply still_active_sub|].
  simpl. destruct b; [eauto|].
  destruct (months_loop_run n (S k) h2 [m]) as (h' & ms & -> & _); [apply Hpost|]. eauto.
Qed.

(** *** What the month loop guarantees *)

Lemma run_wf_evolves n k h ms h' :
  run active F totalMonthly n k h ms h' →
  wf active F h → wf active F h' ∧ evolves active h h'.
Proof.
  induction 1 as [| |n k h m h' Hne Hpost Hall|n k h m h' ms h'' Hne Hpost Hex Hrun IH];
    intros Hwf; auto using evolves_refl.
  - split; apply Hpost.
  - destruct IH as [? ?]; [apply Hpost|]. split; [done|].
    eapply evolves_trans; [apply Hpost|done].
Qed.

Lemma run_length n k h ms h' :
  run active F totalMonthly n k h ms h' →
  (length ms ≤ n)%nat ∧ map monthIndex ms = seq k (length ms).
Proof.
  induction 1 as [| |n k h m h' Hne Hpost Hall|n k h m h' ms h'' Hne Hpost Hex Hrun IH];
    simpl; try (split; [lia|done]).
  - split; [lia|]. by rewrite (mp_index _ _ _ _ _ _ _ Hpost).
  - destruct IH as [? ->]. split; [lia|]. by rewrite (mp_index _ _ _ _ _ _ _ Hpost).
Qed.

Lemma run_head n k h m ms h'' :
  run active F totalMonthly n k h (m :: ms) h'' →
  ∃ h', still_active active h ≠ [] ∧ month_post active F totalMonthly k h m h'.
Proof. inversion 1; subst; eauto. Qed.

Lemma run_months (P : SnowballMonth → Prop) n k h ms h' :
  (∀ k h m h', month_post active F totalMonthly k h m h' → P m) →
  run active F totalMonthly n k h ms h' → ∀ m, m ∈ ms → P m.
Proof.
  intros HP. induction 1 as [| |n k h m h' Hne Hpost Hall|n k h m h' ms h'' Hne Hpost Hex Hrun IH];
    intros m0 Hm0.
  - by apply elem_of_nil in Hm0.
  - by apply elem_of_nil in Hm0.
  - apply list_elem_of_singleton in Hm0 as ->. eauto.
  - apply elem_of_cons in Hm0 as [->|Hm0]; eauto.
Qed.

Lemma month_remaining_bounds k h m h' i v :
  month_post active F totalMonthly k h m h' → remainingById m !! i = Some v →
  ∃ l, l ∈ still_active active h ∧ id (F l) = i ∧ v = rem h' l ∧ 0 <= v ∧ v <= rem h l.
Proof.
  intros Hpost Hv. destruct (mp_tracked _ _ _ _ _ _ _ Hpost i v Hv) as (l & Hl & Hid & <-).
  exists l. repeat split; auto.
  - apply still_active_pos in Hl as [Hla Hpos].
    destruct (mp_evolves _ _ _ _ _ _ _ Hpost) as (_ & _ & Hev).
    by destruct (Hev l Hla) as [_ [? ?]].
  - apply still_active_pos in Hl as [Hla Hpos].
    destruct (mp_evolves _ _ _ _ _ _ _ Hpost) as (_ & _ & Hev).
    by destruct (Hev l Hla) as [_ [? ?]].
Qed.

Lemma ids_sub a b : a ⊆ b → ids F a ⊆ ids F b.
Proof.
  intros Hab i. unfold ids. rewrite !elem_of_list_to_set, !list_elem_of_fmap.
  intros (l & -> & Hl). eauto.
Qed.

Lemma elem_of_ids_inv a i : i ∈ ids F a → ∃ l, l ∈ a ∧ id (F l) = i.
Proof.
  unfold ids. rewrite elem_of_list_to_set, list_elem_of_fmap. intros (l & -> & Hl). eauto.
Qed.

(** The monthly total stays within the budget. *)
Lemma month_budget k h m h' :
  (∀ l, l ∈ active → 0 <= minPayment (F l)) →
  required_min F active <= totalMonthly →
  month_post active F totalMonthly k h m h' → totalPaid m <= totalMonthly.
Proof.
  intros Hnn Hbudget Hpost. pose proof (mp_budget _ _ _ _ _ _ _ Hpost) as Hb.
  set (sa := still_active active h) in *.
  assert (sumQ (map (min_pay F) sa) == required_min F sa) as Hmp.
  { unfold required_min. apply sumQ_eq. intros l Hl. unfold min_pay.
    assert (0 <= minPayment (F l)) as H0 by (apply Hnn; by apply (still_active_sub h)).
    pose proof (or_zero_eq (minPayment (F l))).
    destruct (Qmax_cases 0 (or_zero (minPayment (F l)))) as [[? ->]|[? ->]]; lra. }
  assert (required_min F sa <= required_min F active) as Hsub.
  { unfold sa, still_active, required_min. apply sumQ_filter_le.
    intros l Hl. rewrite or_zero_eq. by apply Hnn. }
  destruct (Qmax_cases 0 (totalMonthly - required_min F sa)) as [[? Hm]|[? Hm]];
    rewrite Hm in Hb; lra.
Qed.

(** Months that follow one another never show a larger [remaining]
    for the same debt, provided ids F identify the debts. *)
Lemma run_monotone n k h ms h' :
  (∀ l l', l ∈ active → l' ∈ active → id (F l) = id (F l') → l = l') →
  run active F totalMonthly n k h ms h' →
  ∀ j m1 m2 i v1 v2,
    ms !! j = Some m1 → ms !! S j = Some m2 →
    remainingById m1 !! i = Some v1 → remainingById m2 !! i = Some v2 →
    v2 <= v1.
Proof.
  intros Hinj.
  induction 1 as [| |n k h m h' Hne Hpost Hall|n k h m h' ms h'' Hne Hpost Hex Hrun IH];
    intros j m1 m2 i v1 v2 H1 H2 Hv1 Hv2; try done.
  destruct j as [|j]; simplify_eq/=; [|eauto].
  destruct ms as [|m2' ms]; simplify_eq/=.
  destruct (run_head _ _ _ _ _ _ Hrun) as (h2 & _ & Hpost2).
    destruct (month_remaining_bounds _ _ _ _ _ _ Hpost Hv1) as (w & Hw & Hwi & -> & _ & _).
    destruct (month_remaining_bounds _ _ _ _ _ _ Hpost2 Hv2) as (l & Hl & Hli & -> & _ & Hle).
    assert (l = w) as ->; [|done].
    apply Hinj; [by apply (still_active_sub h')|by apply (still_active_sub h)|congruence].
Qed.

(** Below the cap, every debt shows up with an (effectively) zero
    [remaining] in some month. *)
Lemma run_payoff n k h ms h' :
  run active F totalMonthly n k h ms h' → (length ms < n)%nat →
  ∀ l, l ∈ active → 0 < rem h l →
    ∃ m v, m ∈ ms ∧ remainingById m !! id (F l) = Some v ∧ 0 <= v ∧ v <= epsilon.
Proof.
  induction 1 as [| |n k h m h' Hne Hpost Hall|n k h m h' ms h'' Hne Hpost Hex Hrun IH];
    simpl; intros Hlen l Hl Hpos; [lia| | |].
  - assert (l ∈ still_active active h) as Hin by (by apply still_active_pos). rewrite H in Hin.
    by apply elem_of_nil in Hin.
  - assert (id (F l) ∈ dom (remainingById m)) as [v Hv]%elem_of_dom.
    { rewrite (mp_dom_remaining _ _ _ _ _ _ _ Hpost). apply elem_of_ids.
      by apply still_active_pos. }
    destruct (month_remaining_bounds _ _ _ _ _ _ Hpost Hv) as (w & Hw & Hwi & -> & ? & _).
    exists m, (rem h' w). split; [left|]. auto.
  - assert (id (F l) ∈ dom (remainingById m)) as [v Hv]%elem_of_dom.
    { rewrite (mp_dom_remaining _ _ _ _ _ _ _ Hpost). apply elem_of_ids.
      by apply still_active_pos. }
    destruct (month_remaining_bounds _ _ _ _ _ _ Hpost Hv) as (w & Hw & Hwi & -> & ? & _).
    destruct (Qlt_le_dec epsilon (rem h' w)) as [Hgt|Hle].
    + destruct (IH ltac:(lia) w) as (m' & v' & Hm' & Hv' & ? & ?).
      { by apply (still_active_sub h). }
      { pose proof epsilon_pos. lra. }
      exists m', v'. rewrite <- Hwi. split; [by right|done].
    + exists m, (rem h' w). split; [left|]. auto.
Qed.

(** Below the cap, the schedule ends with the month in which the last
    debts become (effectively) zero. *)
Lemma run_last_month n k h ms h' :
  run active F totalMonthly n k h ms h' → (length ms < n)%nat →
  ∀ m i v, last ms = Some m → remainingById m !! i = Some v → 0 <= v ∧ v <= epsilon.
Proof.
  induction 1 as [| |n k h m h' Hne Hpost Hall|n k h m h' ms h'' Hne Hpost Hex Hrun IH];
    simpl; intros Hlen m0 i v Hlast Hv; try done.
  - injection Hlast as <-.
    destruct (month_remaining_bounds _ _ _ _ _ _ Hpost Hv) as (w & Hw & Hwi & -> & ? & _).
    auto.
  - destruct ms as [|m1 ms].
    + destruct Hex as (l & Hl & Hgt). apply still_active_pos in Hl as [Hla _].
      inversion Hrun as [| ? ? ? Hnil| |]; subst; [simpl in Hlen; lia|].
      assert (l ∈ still_active active h'') as Hin.
      { apply still_active_pos. pose proof epsilon_pos. split; [done|lra]. }
      rewrite Hnil in Hin. by apply elem_of_nil in Hin.
    + apply (IH ltac:(simpl in *; lia) m0 i v); [|done]. exact Hlast.
Qed.

Lemma run_not_nil n k h ms h' :
  run active F totalMonthly (S n) k h ms h' → still_active active h ≠ [] → ms ≠ [].
Proof. inversion 1; subst; done. Qed.

(** Without any budget nothing is paid and the loop runs into the cap. *)
Lemma run_idle n k h ms h' :
  (∀ l, l ∈ active → minPayment (F l) == 0) → totalMonthly == 0 →
  run active F totalMonthly n k h ms h' → wf active F h →
  (∃ l, l ∈ active ∧ epsilon < rem h l) →
  length ms = n ∧
  ∀ m, m ∈ ms →
    totalPaid m == 0 ∧
    ∀ l, l ∈ active → 0 < rem h l →
      ∃ p v w, payments m !! id (F l) = Some p ∧ p == 0 ∧
               remainingById m !! id (F l) = Some v ∧
               w ∈ active ∧ id (F w) = id (F l) ∧ v == rem h w.
Proof.
  intros Hzero HTM.
  assert (∀ l, l ∈ active → min_pay F l == 0) as Hmp.
  { intros l Hl. unfold min_pay. pose proof (or_zero_eq (minPayment (F l))).
    pose proof (Hzero l Hl).
    destruct (Qmax_cases 0 (or_zero (minPayment (F l)))) as [[? ->]|[? ->]]; lra. }
  assert (∀ sa, sa ⊆ active → required_min F sa == 0 ∧ sumQ (map (min_pay F) sa) == 0) as Hsum.
  { intros sa Hsa. unfold required_min. induction sa as [|l sa IH]; simpl; [split; reflexivity|].
    destruct IH as [-> ->]; [set_solver|].
    rewrite or_zero_eq, Hzero, Hmp by set_solver. split; reflexivity. }
  assert (∀ k h m h', month_post active F totalMonthly k h m h' →
            totalPaid m == 0 ∧ (∀ i p, payments m !! i = Some p → p == 0) ∧
            ∀ l, l ∈ active → rem h' l == rem h l) as Hmonth.
  { clear n k h ms h'. intros k h m h' Hpost.
    destruct (Hsum (still_active active h) (still_active_sub h)) as [Hrq Hmin].
    pose proof (mp_budget _ _ _ _ _ _ _ Hpost) as Hb.
    pose proof (sum_values_bounds _ (mp_nonneg _ _ _ _ _ _ _ Hpost)) as [Hs0 Hs].
    rewrite <- (mp_total _ _ _ _ _ _ _ Hpost) in Hs0, Hs.
    assert (Qmax 0 (totalMonthly - required_min F (still_active active h)) == 0) as Hextra.
    { destruct (Qmax_cases 0 (totalMonthly - required_min F (still_active active h)))
        as [[? ->]|[? ->]]; lra. }
    assert (totalPaid m == 0) as Htot by lra.
    split; [done|]. split.
    - intros i p Hp. pose proof (mp_nonneg _ _ _ _ _ _ _ Hpost i p Hp). apply Hs in Hp. lra.
    - intros l Hl. destruct (Qlt_le_dec 0 (rem h l)) as [Hpos|Hle].
      + rewrite (mp_idle _ _ _ _ _ _ _ Hpost);
          [|pose proof epsilon_pos; lra|by apply still_active_pos].
        pose proof (Hmp l Hl).
        destruct (Qmin_cases (rem h l) (min_pay F l)) as [[? ->]|[? ->]]; lra.
      + destruct (mp_evolves _ _ _ _ _ _ _ Hpost) as (_ & _ & Hev).
        destruct (Hev l Hl) as [-> _]; [reflexivity|done]. }
  assert (∀ k h m h' l, month_post active F totalMonthly k h m h' → l ∈ active → 0 < rem h l →
            ∃ p v w, payments m !! id (F l) = Some p ∧ p == 0 ∧
               remainingById m !! id (F l) = Some v ∧
               w ∈ active ∧ id (F w) = id (F l) ∧ v == rem h w) as Hentries.
  { clear n k h ms h'. intros k h m h' l Hpost Hl Hpos.
    destruct (Hmonth k h m h' Hpost) as (_ & Hpay & Hrem).
    assert (l ∈ still_active active h) as Hin by (by apply still_active_pos).
    assert (id (F l) ∈ dom (payments m)) as [p Hp]%elem_of_dom.
    { rewrite (mp_dom_payments _ _ _ _ _ _ _ Hpost). by apply elem_of_ids. }
    assert (id (F l) ∈ dom (remainingById m)) as [v Hv]%elem_of_dom.
    { rewrite (mp_dom_remaining _ _ _ _ _ _ _ Hpost). by apply elem_of_ids. }
    destruct (mp_tracked _ _ _ _ _ _ _ Hpost _ _ Hv) as (w & Hw & Hwi & <-).
    apply (still_active_sub h) in Hw.
    exists p, (rem h' w), w. repeat split; eauto. }
  induction 1 as [| |n k h m h' Hne Hpost Hall|n k h m h' ms h'' Hne Hpost Hex Hrun IH];
    intros Hwf (l0 & Hl0 & Hgt); pose proof epsilon_pos as Heps.
  - split; [done|]. intros m Hm. by apply elem_of_nil in Hm.
  - assert (l0 ∈ still_active active h) as Hin by (apply still_active_pos; split; [done|lra]).
    rewrite H in Hin. by apply elem_of_nil in Hin.
  - destruct (Hmonth _ _ _ _ Hpost) as (_ & _ & Hrem).
    assert (l0 ∈ still_active active h) as Hin by (apply still_active_pos; split; [done|lra]).
    specialize (Hall l0 Hin). rewrite (Hrem l0 Hl0) in Hall. lra.
  - destruct (Hmonth _ _ _ _ Hpost) as (Htot & _ & Hrem).
    destruct IH as [Hlen IH]; [apply Hpost|..].
    { exists l0. split; [done|]. rewrite (Hrem l0 Hl0). lra. }
    split; [simpl; lia|].
    intros m0 [->|Hm0]%elem_of_cons.
    + split; [done|]. intros l Hl Hpos. eapply Hentries; eauto.
    + destruct (IH m0 Hm0) as [Ht0 Hent]. split; [done|].
      intros l Hl Hpos.
      destruct (Hent l Hl) as (p & v & w & ? & ? & ? & Hw & ? & Hvw).
      { rewrite (Hrem l Hl). done. }
      exists p, v, w. rewrite <- (Hrem w Hw). repeat split; auto.
Qed.

End working_set.

(** ** From the call to the month loop *)


Lemma array_filter_debts (h : heap) debts :
  Forall (λ d, is_Some (h !! d)) debts →
  array_filter (λ d, o ← h !! d; Some (gtb (debtAmount (fields o)) 0)) debts
  = Some (filter (λ d, has_debt (fields_at h d) = true) debts).
Proof.
  induction 1 as [|d debts [o Ho] _ IH]; [done|].
  simpl. rewrite Ho, IH. simpl. rewrite filter_cons.
  assert (has_debt (fields_at h d) = gtb (debtAmount (fields o)) 0) as ->.
  { unfold has_debt, fields_at. by rewrite Ho. }
  destruct (gtb (debtAmount (fields o)) 0); by case_decide.
Qed.

Lemma copy_debts_spec a : ∀ h : heap,
  Forall (λ d, is_Some (h !! d)) a →
  copy_debts h a = Some (h ++ map (λ d, copy (fields_at h d)) a, seq (length h) (length a)).
Proof.
  induction a as [|d a IH]; intros h Ha.
  - simpl. by rewrite app_nil_r.
  - apply Forall_cons in Ha as [[o Ho] Ha]. simpl. rewrite Ho. simpl.
    rewrite IH.
    2:{ eapply Forall_impl; [exact Ha|]. intros d' [o' Ho']. exists o'.
        by apply lookup_app_l_Some. }
    simpl. rewrite length_app. simpl. rewrite <- app_assoc. simpl.
    replace (length h + 1)%nat with (S (length h)) by lia.
    do 3 f_equal. f_equal.
    + unfold copy, fields_at. by rewrite Ho.
    + apply map_ext_in. intros d' Hd'. rewrite Forall_forall in Ha.
      apply list_elem_of_In in Hd'. destruct (Ha d' Hd') as [o' Ho'].
      unfold fields_at.
      rewrite (lookup_app_l_Some h [mkObj (fields o) (Some (debtAmount (fields o)))] d' o' Ho').
      by rewrite Ho'.
Qed.

Lemma map_item_of {A} (g : DebtItem → A) k items :
  map (λ l, g (item_of k items l)) (seq k (length items)) = map g items.
Proof.
  revert k. induction items as [|d items IH]; intros k; [done|].
  simpl. unfold item_of at 1. rewrite Nat.sub_diag. simpl. f_equal.
  rewrite <- (IH (S k)). apply map_ext_in. intros l Hl%in_seq.
  unfold item_of. replace (l - k)%nat with (S (l - S k)) by lia. done.
Qed.

Lemma item_of_elem k items l :
  l ∈ seq k (length items) → item_of k items l ∈ items.
Proof.
  intros Hl%elem_of_seq. unfold item_of.
  destruct (items !! (l - k)%nat) as [d|] eqn:E.
  - simpl. by apply list_elem_of_lookup_2 in E.
  - apply lookup_ge_None in E. lia.
Qed.

Lemma elem_of_item_of k items d :
  d ∈ items → ∃ l, l ∈ seq k (length items) ∧ item_of k items l = d.
Proof.
  intros (j & Hj)%list_elem_of_lookup_1. exists (k + j)%nat. split.
  - apply elem_of_seq. apply lookup_lt_Some in Hj. lia.
  - unfold item_of. replace (k + j - k)%nat with j by lia. by rewrite Hj.
Qed.

Lemma copies_wf (h : heap) items :
  wf (seq (length h) (length items)) (item_of (length h) items) (h ++ map copy items).
Proof.
  intros l Hl%elem_of_seq. exists (debtAmount (item_of (length h) items l)).
  rewrite lookup_app_r by lia. rewrite list_lookup_fmap. unfold item_of.
  destruct (items !! (l - length h)%nat) as [d|] eqn:E; [done|].
  apply lookup_ge_None in E. lia.
Qed.

Lemma copies_rem (h : heap) items l :
  l ∈ seq (length h) (length items) →
  rem (h ++ map copy items) l = debtAmount (item_of (length h) items l).
Proof.
  intros Hl%elem_of_seq. unfold rem, read_remaining, item_of.
  rewrite lookup_app_r by lia. rewrite list_lookup_fmap.
  destruct (items !! (l - length h)%nat) as [d|] eqn:E; [done|].
  apply lookup_ge_None in E. lia.
Qed.


Lemma runSnowball_unfold (h : heap) debts extraPayment maxMonths :
  Forall (λ d, is_Some (h !! d)) debts →
  runSnowball h debts extraPayment maxMonths =
  let items := working_items h debts in
  let active := seq (length h) (length items) in
  let h1 := h ++ map copy items in
  match active with
  | [] => Some (h1, [])
  | _ :: _ =>
      s ← sum_min_payments h1 active 0;
      months_loop (default default_maxMonths maxMonths) 1 active (s + extraPayment) h1 []
  end.
Proof.
  intros Hvalid. unfold runSnowball.
  rewrite array_filter_debts by done. cbn [mbind option_bind].
  rewrite copy_debts_spec.
  2:{ apply Forall_forall. intros d Hd%list_elem_of_filter. rewrite Forall_forall in Hvalid.
      apply Hvalid, Hd. }
  cbn [mbind option_bind]. rewrite <- (map_map (fields_at h) copy).
  fold (working_items h debts).
  replace (length (filter (λ d, has_debt (fields_at h d) = true) debts))
    with (length (working_items h debts)) by (unfold working_items; by rewrite length_map).
  done.
Qed.

Lemma runSnowball_run (h : heap) debts extraPayment maxMonths :
  Forall (λ d, is_Some (h !! d)) debts →
  let items := working_items h debts in
  let active := seq (length h) (length items) in
  let F := item_of (length h) items in
  ∃ totalMonthly h' ms,
    runSnowball h debts extraPayment maxMonths = Some (h', ms) ∧
    totalMonthly == sumQ (map (λ d, or_zero (minPayment d)) items) + extraPayment ∧
    run active F totalMonthly (default default_maxMonths maxMonths) 1
        (h ++ map copy items) ms h'.
Proof.
  intros Hvalid items active F. rewrite runSnowball_unfold by done.
  fold items. cbv zeta. fold active.
  pose proof (copies_wf h items) as Hwf. fold active F in Hwf.
  destruct (sum_min_payments_spec active F _ active 0 Hwf) as (s & Hs & Hsv); [done|].
  destruct (months_loop_run active F (s + extraPayment) (NoDup_seq _ _)
              (default default_maxMonths maxMonths) 1 (h ++ map copy items) [] Hwf)
    as (h' & ms & Hloop & Hrun).
  exists (s + extraPayment), h', ms. split; [|split; [|done]].
  - destruct active as [|l0 active0] eqn:Eact.
    + inversion Hrun as [| ? ? ? Hnil| ? ? ? ? ? Hne|? ? ? ? ? ? ? Hne]; subst; try done.
    + rewrite Hs. simpl. exact Hloop.
  - rewrite Hsv. unfold active, F. rewrite (map_item_of (λ d, or_zero (minPayment d))). ring.
Qed.

(** ** A call on records given by value *)


Lemma input_heap_valid debts :
  Forall (λ d, is_Some (input_heap debts !! d)) (seq 0 (length debts)).
Proof.
  apply Forall_forall. intros d Hd%elem_of_seq. apply lookup_lt_is_Some.
  unfold input_heap. rewrite length_map. lia.
Qed.

Lemma working_items_input_aux debts : ∀ pre,
  working_items (input_heap (pre ++ debts)) (seq (length pre) (length debts))
  = working_set debts.
Proof.
  induction debts as [|d debts IH]; intros pre; [done|].
  unfold working_items, working_set in *. simpl. rewrite !filter_cons.
  assert (fields_at (input_heap (pre ++ d :: debts)) (length pre) = d) as Hd.
  { unfold fields_at, input_heap. rewrite list_lookup_fmap, lookup_app_r by lia.
    by rewrite Nat.sub_diag. }
  rewrite Hd. specialize (IH (pre ++ [d])).
  rewrite <- app_assoc, length_app in IH. simpl in IH.
  replace (length pre + 1)%nat with (S (length pre)) in IH by lia.
  case_decide; simpl; by rewrite ?Hd, IH.
Qed.

Lemma working_items_input debts :
  working_items (input_heap debts) (seq 0 (length debts)) = working_set debts.
Proof. apply (working_items_input_aux debts []). Qed.

Lemma simulate_run debts extraPayment maxMonths :
  let items := working_set debts in
  let k := length debts in
  ∃ totalMonthly h' ms,
    simulate debts extraPayment maxMonths = Some ms ∧
    totalMonthly == sumQ (map (λ d, or_zero (minPayment d)) items) + extraPayment ∧
    run (seq k (length items)) (item_of k items) totalMonthly
        (default default_maxMonths maxMonths) 1
        (input_heap debts ++ map copy items) ms h'.
Proof.
  intros items k.
  destruct (runSnowball_run (input_heap debts) (seq 0 (length debts)) extraPayment maxMonths
              (input_heap_valid debts)) as (TM & h' & ms & Hrun & HTM & Hr).
  rewrite working_items_input in HTM, Hr.
  replace (length (input_heap debts)) with k in Hr by (unfold input_heap; by rewrite length_map).
  exists TM, h', ms. split; [|done]. unfold simulate. by rewrite Hrun.
Qed.

Lemma working_set_wf debts :
  wf (seq (length debts) (length (working_set debts)))
     (item_of (length debts) (working_set debts))
     (input_heap debts ++ map copy (working_set debts)).
Proof.
  pose proof (copies_wf (input_heap debts) (working_set debts)) as H.
  unfold input_heap in *. by rewrite length_map in H.
Qed.

Lemma working_set_rem debts l :
  l ∈ seq (length debts) (length (working_set debts)) →
  rem (input_heap debts ++ map copy (working_set debts)) l
  = debtAmount (item_of (length debts) (working_set debts) l).
Proof.
  intros Hl. pose proof (copies_rem (input_heap debts) (working_set debts) l) as H.
  unfold input_heap in *. rewrite length_map in H. by apply H.
Qed.

Lemma elem_of_working_set debts d :
  d ∈ working_set debts ↔ d ∈ debts ∧ 0 < debtAmount d.
Proof. unfold working_set, has_debt. rewrite list_elem_of_filter, gtb_true. tauto. Qed.

(** ** Corresponding snowball targets *)

Section targets.
Variable same : loc → loc → Prop.
Variable eqv : Q → Q → Prop.
Hypothesis eqv_gtb : ∀ r r', eqv r r' → gtb r epsilon = gtb r' epsilon.
Hypothesis eqv_le : ∀ a a' b b', eqv a a' → eqv b b' → Qle_bool a b = Qle_bool a' b'.

Lemma same_target_filter rs1 rs2 :
  Forall2 (same_target same eqv) rs1 rs2 →
  Forall2 (same_target same eqv) (filter (λ x, gtb x.2 epsilon = true) rs1)
                                 (filter (λ x, gtb x.2 epsilon = true) rs2).
Proof.
  induction 1 as [|x y rs1 rs2 [Hl Hr] Hrs IH]; [constructor|].
  rewrite !filter_cons, (eqv_gtb _ _ Hr). case_decide; [constructor|]; auto. by split.
Qed.

Lemma same_target_insert x y s1 s2 :
  same_target same eqv x y → Forall2 (same_target same eqv) s1 s2 →
  Forall2 (same_target same eqv) (insert_sorted x s1) (insert_sorted y s2).
Proof.
  intros Hxy. induction 1 as [|x' y' s1 s2 Hxy' Hs IH]; simpl.
  - constructor; [done|constructor].
  - rewrite (eqv_le x.2 y.2 x'.2 y'.2) by (apply Hxy || apply Hxy').
    destruct (Qle_bool y.2 y'.2); repeat (constructor; auto).
Qed.

Lemma same_target_sort rs1 rs2 :
  Forall2 (same_target same eqv) rs1 rs2 →
  Forall2 (same_target same eqv) (sort_by_remaining rs1) (sort_by_remaining rs2).
Proof.
  induction 1; simpl; [constructor|]. by apply same_target_insert.
Qed.

Lemma same_target_pick rs1 rs2 :
  Forall2 (same_target same eqv) rs1 rs2 →
  option_Forall2 (same_target same eqv)
    (head (sort_by_remaining (filter (λ x, gtb x.2 epsilon = true) rs1)))
    (head (sort_by_remaining (filter (λ x, gtb x.2 epsilon = true) rs2))).
Proof.
  intros Hrs. apply same_target_filter, same_target_sort in Hrs.
  destruct Hrs; simpl; by constructor.
Qed.
End targets.

(** ** Two calls side by side

    The schedule does not depend on where the working copies live: two
    heaps that hold the same objects at corresponding locations yield
    the same months. *)

Section two_heaps.
Variable same : loc → loc → Prop.
Hypothesis same_inj : ∀ l1 l2 k1 k2, same l1 l2 → same k1 k2 → (l1 = k1 ↔ l2 = k2).

Lemma related_read h1 h2 l1 l2 :
  related same h1 h2 → same l1 l2 → read_remaining h1 l1 = read_remaining h2 l2.
Proof. intros Hrel Hl. unfold read_remaining. by rewrite (Hrel l1 l2 Hl). Qed.

Lemma related_write h1 h2 l1 l2 r h1' :
  related same h1 h2 → same l1 l2 →
  write_remaining h1 l1 r = Some h1' →
  ∃ h2', write_remaining h2 l2 r = Some h2' ∧ related same h1' h2'.
Proof.
  intros Hrel Hl. unfold write_remaining. rewrite <- (Hrel l1 l2 Hl).
  destruct (h1 !! l1) as [o|] eqn:E; [|done]. simpl. intros [= <-].
  eexists. split; [done|]. intros k1 k2 Hk.
  destruct (decide (l1 = k1)) as [<-|Hne].
  - assert (l2 = k2) as <- by (by apply (same_inj l1 l2 l1 k2)).
    rewrite !list_lookup_insert_eq; [done| |].
    + rewrite (Hrel l1 l2 Hl) in E. by apply lookup_lt_Some in E.
    + by apply lookup_lt_Some in E.
  - assert (l2 ≠ k2) by (by rewrite <- (same_inj l1 l2 k1 k2)).
    rewrite !list_lookup_insert_ne by done. by apply Hrel.
Qed.

Lemma related_array_filter (p1 p2 : loc → option bool) a1 a2 o1 :
  (∀ l1 l2, same l1 l2 → p1 l1 = p2 l2) →
  Forall2 same a1 a2 →
  array_filter p1 a1 = Some o1 →
  ∃ o2, array_filter p2 a2 = Some o2 ∧ Forall2 same o1 o2.
Proof.
  intros Hp Ha. revert o1. induction Ha as [|l1 l2 a1 a2 Hl Ha IH]; intros o1; simpl.
  - intros [= <-]. eauto.
  - rewrite (Hp l1 l2 Hl). destruct (p2 l2) as [b|]; [|done]. simpl.
    destruct (array_filter p1 a1) as [r1|]; [|done]. simpl. intros [= <-].
    destruct (IH r1 eq_refl) as (r2 & -> & Hr). simpl. eexists. split; [done|].
    destruct b; auto.
Qed.

Lemma related_array_every (p1 p2 : loc → option bool) a1 a2 :
  (∀ l1 l2, same l1 l2 → p1 l1 = p2 l2) →
  Forall2 same a1 a2 →
  array_every p1 a1 = array_every p2 a2.
Proof.
  intros Hp. induction 1 as [|l1 l2 a1 a2 Hl Ha IH]; simpl; [done|].
  rewrite (Hp l1 l2 Hl). destruct (p2 l2) as [[|]|]; simpl; auto.
Qed.

Lemma related_sum_min_payments h1 h2 a1 a2 :
  related same h1 h2 → Forall2 same a1 a2 →
  ∀ s, sum_min_payments h1 a1 s = sum_min_payments h2 a2 s.
Proof.
  intros Hrel. induction 1 as [|l1 l2 a1 a2 Hl Ha IH]; intros s; simpl; [done|].
  rewrite (Hrel l1 l2 Hl). destruct (h2 !! l2); simpl; auto.
Qed.

Lemma related_with_remaining h1 h2 a1 a2 rs1 :
  related same h1 h2 → Forall2 same a1 a2 →
  with_remaining h1 a1 = Some rs1 →
  ∃ rs2, with_remaining h2 a2 = Some rs2 ∧ Forall2 (same_target same eq) rs1 rs2.
Proof.
  intros Hrel Ha. revert rs1. induction Ha as [|l1 l2 a1 a2 Hl Ha IH]; intros rs1; simpl.
  - intros [= <-]. eauto.
  - rewrite (related_read h1 h2 l1 l2 Hrel Hl).
    destruct (read_remaining h2 l2) as [r|]; [|done]. simpl.
    destruct (with_remaining h1 a1) as [r1|]; [|done]. simpl. intros [= <-].
    destruct (IH r1 eq_refl) as (r2 & -> & Hr). simpl. eexists. split; [done|].
    constructor; [by split|done].
Qed.

Lemma related_pick_target h1 h2 a1 a2 t1 :
  related same h1 h2 → Forall2 same a1 a2 →
  pick_target h1 a1 = Some t1 →
  ∃ t2, pick_target h2 a2 = Some t2 ∧ option_Forall2 (same_target same eq) t1 t2.
Proof.
  intros Hrel Ha. unfold pick_target.
  destruct (with_remaining h1 a1) as [rs1|] eqn:E; [|done]. simpl. intros [= <-].
  destruct (related_with_remaining _ _ _ _ _ Hrel Ha E) as (rs2 & -> & Hrs). simpl.
  eexists. split; [done|]. apply same_target_pick; [by intros ?? ->|by intros ???? -> ->|done].
Qed.

Lemma related_pay_minimums a1 a2 :
  Forall2 same a1 a2 →
  ∀ h1 h2 p rb h1' p' rb',
    related same h1 h2 →
    pay_minimums a1 (h1, p, rb) = Some (h1', p', rb') →
    ∃ h2', pay_minimums a2 (h2, p, rb) = Some (h2', p', rb') ∧ related same h1' h2'.
Proof.
  induction 1 as [|l1 l2 a1 a2 Hl Ha IH]; intros h1 h2 p rb h1' p' rb' Hrel; simpl.
  - intros [= <- <- <-]. eauto.
  - rewrite <- (Hrel l1 l2 Hl). destruct (h1 !! l1) as [o|]; [|done]. simpl.
    destruct (remaining o) as [r|]; [|done]. simpl.
    destruct (write_remaining h1 l1 _) as [h1w|] eqn:Ew; [|done]. simpl.
    destruct (related_write _ _ _ _ _ _ Hrel Hl Ew) as (h2w & -> & Hrelw). simpl.
    by apply IH.
Qed.

Lemma related_snowball fuel a1 a2 :
  Forall2 same a1 a2 →
  ∀ e h1 h2 p rb e' h1' p' rb',
    related same h1 h2 →
    snowball fuel a1 e (h1, p, rb) = Some (e', (h1', p', rb')) →
    ∃ h2', snowball fuel a2 e (h2, p, rb) = Some (e', (h2', p', rb')) ∧ related same h1' h2'.
Proof.
  intros Ha. induction fuel as [|fuel IH]; intros e h1 h2 p rb e' h1' p' rb' Hrel; [done|].
  simpl. destruct (gtb e epsilon).
  2:{ intros [= <- <- <- <-]. eauto. }
  destruct (pick_target h1 a1) as [t1|] eqn:Et; [|done]. simpl.
  destruct (related_pick_target _ _ _ _ _ Hrel Ha Et) as (t2 & -> & Ht). simpl.
  destruct Ht as [[l1 r1] [l2 r2] [Hl Hr]|]; simpl in *.
  2:{ intros [= <- <- <- <-]. eauto. }
  subst r2. rewrite <- (Hrel l1 l2 Hl). destruct (h1 !! l1) as [o|]; [|done]. simpl.
  destruct (write_remaining h1 l1 _) as [h1w|] eqn:Ew; [|done]. simpl.
  destruct (related_write _ _ _ _ _ _ Hrel Hl Ew) as (h2w & -> & Hrelw). simpl.
  by apply IH.
Qed.

Lemma related_months_loop n a1 a2 totalMonthly :
  Forall2 same a1 a2 →
  ∀ k h1 h2 acc h1' months,
    related same h1 h2 →
    months_loop n k a1 totalMonthly h1 acc = Some (h1', months) →
    ∃ h2', months_loop n k a2 totalMonthly h2 acc = Some (h2', months) ∧ related same h1' h2'.
Proof.
  intros Ha. induction n as [|n IH]; intros k h1 h2 acc h1' months Hrel.
  { simpl. intros [= <- <-]. eauto. }
  cbn [months_loop].
  destruct (array_filter _ a1) as [sa1|] eqn:Ef; [|done].
  eapply related_array_filter in Ef as (sa2 & -> & Hsa); [|..|exact Ha].
  2:{ intros l1 l2 Hl. cbv beta. by rewrite (related_read h1 h2 l1 l2 Hrel Hl). }
  cbn [mbind option_bind].
  destruct Hsa as [|x1 x2 sa1 sa2 Hx Hsa]; [intros [= <- <-]; eauto|].
  assert (Forall2 same (x1 :: sa1) (x2 :: sa2)) as Hsa' by (by constructor).
  rewrite (related_sum_min_payments h1 h2 _ _ Hrel Hsa').
  destruct (sum_min_payments h2 (x2 :: sa2) 0) as [rq|]; [|done]. cbn [mbind option_bind].
  destruct (pay_minimums (x1 :: sa1) _) as [[[h1m pm] rbm]|] eqn:Em; [|done].
  destruct (related_pay_minimums _ _ Hsa' _ _ _ _ _ _ _ Hrel Em) as (h2m & -> & Hrelm).
  cbn [mbind option_bind].
  rewrite <- (Forall2_length _ _ _ Hsa').
  destruct (snowball _ (x1 :: sa1) _ _) as [[e' [[h1s ps] rbs]]|] eqn:Es; [|done].
  destruct (related_snowball _ _ _ Hsa' _ _ _ _ _ _ _ _ _ Hrelm Es) as (h2s & -> & Hrels).
  cbn [mbind option_bind].
  rewrite (related_array_every
             (λ l, r ← read_remaining h1s l; Some (Qle_bool r epsilon))
             (λ l, r ← read_remaining h2s l; Some (Qle_bool r epsilon)) _ _
             ltac:(intros l1 l2 Hl; cbv beta; by rewrite (related_read h1s h2s l1 l2 Hrels Hl))
             Hsa').
  destruct (array_every _ (x2 :: sa2)) as [[|]|]; cbn [mbind option_bind]; [| |done].
  - intros [= <- <-]. eauto.
  - by apply IH.
Qed.
End two_heaps.

(** ** Calls on records given by value, continued *)

Lemma simulate_inv debts extraPayment maxMonths months :
  simulate debts extraPayment maxMonths = Some months →
  let items := working_set debts in
  let k := length debts in
  ∃ totalMonthly h',
    totalMonthly == sumQ (map (λ d, or_zero (minPayment d)) items) + extraPayment ∧
    run (seq k (length items)) (item_of k items) totalMonthly
        (default default_maxMonths maxMonths) 1
        (input_heap debts ++ map copy items) months h'.
Proof.
  intros Hsim items k.
  destruct (simulate_run debts extraPayment maxMonths) as (TM & h' & ms & Hms & HTM & Hrun).
  rewrite Hsim in Hms. injection Hms as <-. eauto.
Qed.

Lemma item_of_inj k items l l' :
  NoDup (map id items) →
  l ∈ seq k (length items) → l' ∈ seq k (length items) →
  id (item_of k items l) = id (item_of k items l') → l = l'.
Proof.
  intros Hnd Hl%elem_of_seq Hl'%elem_of_seq. unfold item_of.
  destruct (items !! (l - k)%nat) as [d|] eqn:E; [|apply lookup_ge_None in E; lia].
  destruct (items !! (l' - k)%nat) as [d'|] eqn:E'; [|apply lookup_ge_None in E'; lia].
  simpl. intros Hid.
  assert ((l - k)%nat = (l' - k)%nat); [|lia].
  eapply (NoDup_lookup (map id items)); [done| |].
  - rewrite list_lookup_fmap, E. done.
  - rewrite list_lookup_fmap, E'. simpl. by rewrite Hid.
Qed.

Lemma working_set_pos debts l :
  l ∈ seq (length debts) (length (working_set debts)) →
  0 < rem (input_heap debts ++ map copy (working_set debts)) l.
Proof.
  intros Hl. rewrite working_set_rem by done.
  by apply item_of_elem, elem_of_working_set in Hl as [_ ?].
Qed.

Lemma sumQ_or_zero (items : list DebtItem) :
  sumQ (map (λ d, or_zero (minPayment d)) items) == sumQ (map minPayment items).
Proof. apply sumQ_eq. intros d _. apply or_zero_eq. Qed.

Lemma NoDup_fmap_inj {A B} (f : A → B) (l : list A) x y :
  NoDup (map f l) → x ∈ l → y ∈ l → f x = f y → x = y.
Proof.
  intros Hnd (i & Hi)%list_elem_of_lookup_1 (j & Hj)%list_elem_of_lookup_1 Hxy.
  assert (i = j) as ->; [|congruence].
  eapply (NoDup_lookup (map f l)); [done| |].
  - by rewrite list_lookup_fmap, Hi.
  - rewrite list_lookup_fmap, Hj. simpl. by rewrite Hxy.
Qed.

Lemma working_items_ext (h h' : heap) debts :
  (∀ d, d ∈ debts → h' !! d = h !! d) → working_items h' debts = working_items h debts.
Proof.
  unfold working_items. induction debts as [|d debts IH]; intros Hsame; [done|].
  assert (fields_at h' d = fields_at h d) as Hd.
  { unfold fields_at. rewrite Hsame; [done|left]. }
  assert (∀ d', d' ∈ debts → h' !! d' = h !! d') as Hrest by (intros; apply Hsame; by right).
  specialize (IH Hrest).
  rewrite !filter_cons, Hd. case_decide; simpl; by rewrite ?Hd, IH.
Qed.

Lemma Forall2_seq (P : nat → nat → Prop) n : ∀ k1 k2,
  (∀ j, (j < n)%nat → P (k1 + j)%nat (k2 + j)%nat) → Forall2 P (seq k1 n) (seq k2 n).
Proof.
  induction n as [|n IH]; intros k1 k2 HP; simpl; constructor.
  - specialize (HP 0%nat). rewrite !Nat.add_0_r in HP. apply HP. lia.
  - apply IH. intros j Hj. specialize (HP (S j)).
    replace (S k1 + j)%nat with (k1 + S j)%nat by lia.
    replace (S k2 + j)%nat with (k2 + S j)%nat by lia. apply HP. lia.
Qed.

(** ** A run against the run on clamped records *)

Lemma gtb_eq a a' b : a == a' → gtb a b = gtb a' b.
Proof. intros H. unfold gtb. by rewrite H. Qed.

Lemma Qmin_eq a a' b b' : a == a' → b == b' → Qmin a b == Qmin a' b'.
Proof.
  intros Ha Hb.
  destruct (Qmin_cases a b) as [[? ->]|[? ->]], (Qmin_cases a' b') as [[? ->]|[? ->]]; lra.
Qed.

Lemma Qmax_eq a a' b b' : a == a' → b == b' → Qmax a b == Qmax a' b'.
Proof.
  intros Ha Hb.
  destruct (Qmax_cases a b) as [[? ->]|[? ->]], (Qmax_cases a' b') as [[? ->]|[? ->]]; lra.
Qed.

Lemma same_entries_empty : same_entries ∅ ∅.
Proof. intros i. rewrite !lookup_empty. constructor. Qed.

Lemma same_entries_insert m m' i v v' :
  same_entries m m' → v == v' → same_entries (<[i:=v]> m) (<[i:=v']> m').
Proof.
  intros Hm Hv j. rewrite !lookup_insert. case_decide; [by constructor|apply Hm].
Qed.

Lemma same_entries_or_zero m m' i :
  same_entries m m' → prop_or_zero m i == prop_or_zero m' i.
Proof.
  intros Hm. unfold prop_or_zero. destruct (Hm i) as [v v' Hv|]; [|reflexivity].
  by rewrite !or_zero_eq.
Qed.

Lemma sum_values_same m : ∀ m', same_entries m m' → sum_values m == sum_values m'.
Proof.
  induction m as [|i x m Hi IH] using map_ind; intros m' Hm.
  - assert (m' = ∅) as ->; [|reflexivity].
    apply map_empty. intros i. specialize (Hm i). rewrite lookup_empty in Hm.
    by inversion Hm.
  - pose proof (Hm i) as Hmi. rewrite lookup_insert_eq in Hmi.
    inversion Hmi as [? x' Hx Heq1 Heq2|]; subst. symmetry in Heq2.
    rewrite <- (insert_delete_id m' i x' Heq2).
    rewrite !sum_values_insert_fresh by (done || apply lookup_delete_eq).
    rewrite (IH (delete i m')), Hx; [reflexivity|].
    intros j. destruct (decide (i = j)) as [<-|Hne].
    + rewrite Hi, lookup_delete_eq. constructor.
    + rewrite lookup_delete_ne by done. specialize (Hm j).
      by rewrite lookup_insert_ne in Hm.
Qed.

Lemma filter_ext_elem {A} (P Q : A → Prop) `{!∀ x, Decision (P x)} `{!∀ x, Decision (Q x)}
    (l : list A) :
  (∀ x, x ∈ l → P x ↔ Q x) → filter P l = filter Q l.
Proof.
  induction l as [|x l IH]; intros HPQ; [done|].
  rewrite !filter_cons, IH by (intros; apply HPQ; by right).
  pose proof (HPQ x ltac:(left)). repeat case_decide; tauto || done.
Qed.

Section clamped.
Variable active : list loc.
Variables F F' : loc → DebtItem.
Hypothesis F'_clamp : ∀ l, F' l = clamp_debt (F l).

Lemma min_pay_clamp l : min_pay F' l == min_pay F l.
Proof.
  unfold min_pay. rewrite F'_clamp. simpl.
  transitivity (Qmax 0 (Qmax 0 (minPayment (F l)))).
  { apply Qmax_eq; [reflexivity|apply or_zero_eq]. }
  transitivity (Qmax 0 (minPayment (F l))).
  2:{ apply Qmax_eq; [reflexivity|symmetry; apply or_zero_eq]. }
  destruct (Qmax_cases 0 (minPayment (F l))) as [[? H1]|[? H1]];
    destruct (Qmax_cases 0 (Qmax 0 (minPayment (F l)))) as [[? H2]|[? H2]]; lra.
Qed.

Lemma id_clamp l : id (F' l) = id (F l).
Proof. by rewrite F'_clamp. Qed.

Lemma agree_upd h h' l r r' :
  agree active F F' h h' → l ∈ active → r == r' →
  agree active F F' (upd F h l r) (upd F' h' l r').
Proof.
  intros (Hwf & Hwf' & Hrem) Hl Hr. split; [by apply wf_upd|]. split; [by apply wf_upd|].
  intros k Hk. destruct (decide (l = k)) as [<-|Hne].
  - by rewrite (rem_upd_eq active F h l r Hwf Hl), (rem_upd_eq active F' h' l r' Hwf' Hl).
  - rewrite !rem_upd_ne by done. by apply Hrem.
Qed.

Lemma agree_pay_minimums todo : ∀ h h' p p' rb rb',
  agree active F F' h h' → todo ⊆ active →
  same_entries p p' → same_entries rb rb' →
  ∃ h1 p1 rb1 h1' p1' rb1',
    pay_minimums todo (h, p, rb) = Some (h1, p1, rb1) ∧
    pay_minimums todo (h', p', rb') = Some (h1', p1', rb1') ∧
    agree active F F' h1 h1' ∧ same_entries p1 p1' ∧ same_entries rb1 rb1'.
Proof.
  induction todo as [|l todo IH]; intros h h' p p' rb rb' Hag Hsub Hp Hrb.
  { exists h, p, rb, h', p', rb'. split; [done|]. split; [done|]. split; [done|]. by split. }
  pose proof Hag as (Hwf & Hwf' & Hrem).
  assert (l ∈ active) as Hl by set_solver.
  cbn [pay_minimums].
  rewrite (wf_lookup active F h l Hwf Hl), (wf_lookup active F' h' l Hwf' Hl).
  cbn [mbind option_bind fields remaining].
  rewrite (write_spec active F h l _ Hwf Hl), (write_spec active F' h' l _ Hwf' Hl).
  cbn [mbind option_bind]. rewrite id_clamp.
  fold (min_pay F l) (min_pay F' l).
  assert (Qmin (rem h l) (min_pay F l) == Qmin (rem h' l) (min_pay F' l)) as Hpaid.
  { apply Qmin_eq; [by apply Hrem|]. symmetry. apply min_pay_clamp. }
  apply IH; [|set_solver| |].
  - apply agree_upd; [done..|]. rewrite Hpaid, (Hrem l Hl). reflexivity.
  - apply same_entries_insert; [done|].
    rewrite Hpaid, (same_entries_or_zero p p' _ Hp). reflexivity.
  - apply same_entries_insert; [done|]. rewrite Hpaid, (Hrem l Hl). reflexivity.
Qed.

Lemma agree_pick_target h h' sa :
  agree active F F' h h' → sa ⊆ active →
  (pick_target h sa = Some None ∧ pick_target h' sa = Some None) ∨
  ∃ l, l ∈ sa ∧ pick_target h sa = Some (Some (l, rem h l)) ∧
       pick_target h' sa = Some (Some (l, rem h' l)).
Proof.
  intros (Hwf & Hwf' & Hrem) Hsa.
  assert (∃ t t', pick_target h sa = Some t ∧ pick_target h' sa = Some t' ∧
                  option_Forall2 (same_target eq Qeq) t t') as (t & t' & Ht & Ht' & Hrel).
  { unfold pick_target.
    rewrite (with_remaining_spec active F h sa), (with_remaining_spec active F' h' sa) by done.
    cbn [mbind option_bind]. eexists _, _. split; [done|]. split; [done|].
    apply same_target_pick.
    - intros r r' Hr. by apply gtb_eq.
    - intros a a' b b' Ha Hb. by rewrite Ha, Hb.
    - clear Hwf Hwf'. induction sa as [|l sa IH]; [constructor|].
      simpl. constructor; [split; [done|apply Hrem; set_solver]|]. apply IH. set_solver. }
  destruct (pick_target_spec active F h sa Hwf Hsa) as [Hn|(l & Hs & Hl & _)];
    destruct (pick_target_spec active F' h' sa Hwf' Hsa) as [Hn'|(l' & Hs' & _ & _)];
    rewrite Ht in *; rewrite Ht' in *; simplify_eq; try by inversion Hrel.
  - by left.
  - right. inversion Hrel as [? ? [Heq _]|]; simpl in Heq; subst. eauto.
Qed.

Lemma agree_snowball fuel sa : ∀ e e' h h' p p' rb rb' e1 h1 p1 rb1,
  agree active F F' h h' → sa ⊆ active → e == e' →
  same_entries p p' → same_entries rb rb' →
  snowball fuel sa e (h, p, rb) = Some (e1, (h1, p1, rb1)) →
  ∃ e1' h1' p1' rb1',
    snowball fuel sa e' (h', p', rb') = Some (e1', (h1', p1', rb1')) ∧
    agree active F F' h1 h1' ∧ same_entries p1 p1' ∧ same_entries rb1 rb1'.
Proof.
  induction fuel as [|fuel IH];
    intros e e' h h' p p' rb rb' e1 h1 p1 rb1 Hag Hsa He Hp Hrb; [done|].
  cbn [snowball]. rewrite <- (gtb_eq e e' epsilon He).
  destruct (gtb e epsilon).
  2:{ intros [= <- <- <- <-]. eexists _, _, _, _. split; [done|]. split; [done|]. by split. }
  destruct (agree_pick_target h h' sa Hag Hsa) as [[-> ->]|(l & Hl & -> & ->)];
    cbn [mbind option_bind].
  { intros [= <- <- <- <-]. eexists _, _, _, _. split; [done|]. split; [done|]. by split. }
  pose proof Hag as (Hwf & Hwf' & Hrem).
  assert (l ∈ active) as Hla by set_solver.
  rewrite (wf_lookup active F h l Hwf Hla), (wf_lookup active F' h' l Hwf' Hla).
  cbn [mbind option_bind fields].
  rewrite (write_spec active F h l _ Hwf Hla), (write_spec active F' h' l _ Hwf' Hla).
  cbn [mbind option_bind]. rewrite id_clamp.
  assert (Qmin (rem h l) e == Qmin (rem h' l) e') as Hpaid by (apply Qmin_eq; auto).
  apply IH; [|done| | |].
  - apply agree_upd; [done..|]. by rewrite Hpaid, (Hrem l Hla).
  - by rewrite Hpaid, He.
  - apply same_entries_insert; [done|].
    rewrite Hpaid, (same_entries_or_zero p p' _ Hp). reflexivity.
  - apply same_entries_insert; [done|]. by rewrite Hpaid, (Hrem l Hla).
Qed.

Lemma agree_still_active h h' :
  agree active F F' h h' → still_active active h' = still_active active h.
Proof.
  intros (_ & _ & Hrem). unfold still_active. apply filter_ext_elem.
  intros l Hl. by rewrite (gtb_eq _ _ 0 (Hrem l Hl)).
Qed.

Lemma required_min_clamp sa :
  (∀ l, l ∈ sa → 0 <= minPayment (F l)) → required_min F' sa == required_min F sa.
Proof.
  intros Hnn. unfold required_min. apply sumQ_eq. intros l Hl.
  rewrite F'_clamp. simpl. rewrite !or_zero_eq.
  destruct (Qmax_cases 0 (minPayment (F l))) as [[? ->]|[? ->]]; [reflexivity|].
  specialize (Hnn l Hl). lra.
Qed.

Hypothesis active_NoDup : NoDup active.

(** When the two runs start a month with the same extra, they emit the
    same month. *)
Lemma agree_first_month n k h h' TM TM' :
  agree active F F' h h' →
  Qmax 0 (TM - required_min F (still_active active h))
  == Qmax 0 (TM' - required_min F' (still_active active h)) →
  ∃ hf ms hf' ms',
    months_loop n k active TM h [] = Some (hf, ms) ∧
    months_loop n k active TM' h' [] = Some (hf', ms') ∧
    option_Forall2 same_month (head ms) (head ms').
Proof.
  intros Hag Hextra. pose proof Hag as (Hwf & Hwf' & Hrem).
  pose proof (agree_still_active h h' Hag) as Hsa.
  destruct n as [|n].
  { eexists _, _, _, _. split; [done|]. split; [done|]. constructor. }
  destruct (decide (still_active active h = [])) as [He|Hne].
  { destruct (months_loop_run active F TM active_NoDup (S n) k h [] Hwf)
      as (hf & ms & Hrun & Hr).
    destruct (months_loop_run active F' TM' active_NoDup (S n) k h' [] Hwf')
      as (hf' & ms' & Hrun' & Hr').
    inversion Hr; subst; try done. inversion Hr'; subst; try congruence.
    eexists _, _, _, _. split; [done|]. split; [done|]. constructor. }
  assert (still_active active h' ≠ []) as Hne' by (by rewrite Hsa).
  destruct (month_steps active F TM active_NoDup k h Hwf Hne)
    as (rq & h1 & p1 & rb1 & e2 & h2 & p2 & rb2 & Hrq & Hrqv & Hmin & Hsnow & Hpost & Hloop).
  destruct (month_steps active F' TM' active_NoDup k h' Hwf' Hne')
    as (rq' & h1' & p1' & rb1' & e2' & h2' & p2' & rb2'
        & Hrq' & Hrqv' & Hmin' & Hsnow' & Hpost' & Hloop').
  rewrite Hsa in *.
  destruct (months_loop_head active F TM active_NoDup n k h _ h2 Hwf Hne Hpost Hloop)
    as (hf & ms & ->).
  assert (still_active active h' ≠ []) as Hne'' by (by rewrite Hsa).
  destruct (months_loop_head active F' TM' active_NoDup n k h' _ h2' Hwf' Hne''
              Hpost' ltac:(by rewrite Hsa)) as (hf' & ms' & ->).
  eexists _, _, _, _. split; [done|]. split; [done|]. simpl. constructor.
  destruct (agree_pay_minimums (still_active active h) h h' ∅ ∅ ∅ ∅ Hag
              (still_active_sub active h) same_entries_empty same_entries_empty)
    as (g1 & q1 & sb1 & g1' & q1' & sb1' & Hg & Hg' & Hag1 & Hq1 & Hsb1).
  rewrite Hmin in Hg. rewrite Hmin' in Hg'. simplify_eq.
  assert (Qmax 0 (TM - rq) == Qmax 0 (TM' - rq')) as He.
  { transitivity (Qmax 0 (TM - required_min F (still_active active h))).
    { apply Qmax_eq; [reflexivity|]. by rewrite Hrqv. }
    rewrite Hextra. apply Qmax_eq; [reflexivity|]. by rewrite Hrqv'. }
  destruct (agree_snowball _ _ _ _ _ _ _ _ _ _ _ _ _ _ Hag1 (still_active_sub active h)
              He Hq1 Hsb1 Hsnow) as (e3 & g2 & q2 & sb2 & Hs2 & Hag2 & Hq2 & Hsb2).
  rewrite Hsnow' in Hs2. simplify_eq.
  split; [done|]. split; [by apply sum_values_same|]. by split.
Qed.
End clamped.

Lemma still_active_all active (h : heap) :
  (∀ l, l ∈ active → 0 < rem h l) → still_active active h = active.
Proof.
  unfold still_active. induction active as [|l active IH]; intros Hpos; [done|].
  rewrite filter_cons, decide_True by (apply gtb_true, Hpos; left).
  rewrite IH; [done|]. intros; apply Hpos; by right.
Qed.

Lemma working_set_clamp debts :
  working_set (map clamp_debt debts) = map clamp_debt (working_set debts).
Proof.
  unfold working_set. induction debts as [|d debts IH]; [done|].
  simpl. rewrite !filter_cons, IH.
  change (has_debt (clamp_debt d)) with (has_debt d). by case_decide.
Qed.

Lemma item_of_clamp k items l :
  item_of k (map clamp_debt items) l = clamp_debt (item_of k items l).
Proof.
  unfold item_of. rewrite list_lookup_fmap. by destruct (items !! (l - k)%nat).
Qed.

Lemma simulate_unfold debts extraPayment maxMonths :
  simulate debts extraPayment maxMonths =
  let items := working_set debts in
  let active := seq (length debts) (length items) in
  let h1 := input_heap debts ++ map copy items in
  match active with
  | [] => Some []
  | _ :: _ =>
      s ← sum_min_payments h1 active 0;
      snd <$> months_loop (default default_maxMonths maxMonths) 1 active
                (s + extraPayment) h1 []
  end.
Proof.
  unfold simulate. rewrite runSnowball_unfold by apply input_heap_valid.
  rewrite working_items_input. cbv zeta.
  replace (length (input_heap debts)) with (length debts)
    by (unfold input_heap; by rewrite length_map).
  destruct (seq _ _); [done|]. by destruct (sum_min_payments _ _ _).
Qed.

(** The first month of a schedule is the first month of the schedule for
    the clamped input. *)
Lemma simulate_clamped_first_month debts extraPayment maxMonths :
  ∃ months months',
    simulate debts extraPayment maxMonths = Some months ∧
    simulate (map clamp_debt debts) (Qmax 0 extraPayment) maxMonths = Some months' ∧
    option_Forall2 same_month (head months) (head months').
Proof.
  rewrite !simulate_unfold, working_set_clamp, !length_map. cbv zeta.
  set (items := working_set debts).
  set (k := length debts).
  rewrite (length_map clamp_debt items).
  set (active := seq k (length items)).
  set (h1 := input_heap debts ++ map copy items).
  set (h1' := input_heap (map clamp_debt debts) ++ map copy (map clamp_debt items)).
  assert (wf active (item_of k items) h1) as Hwf by apply working_set_wf.
  assert (wf active (item_of k (map clamp_debt items)) h1') as Hwf'.
  { pose proof (working_set_wf (map clamp_debt debts)) as H.
    by rewrite working_set_clamp, !length_map in H. }
  assert (∀ l, l ∈ active → rem h1 l = debtAmount (item_of k items l)) as Hrem
    by apply working_set_rem.
  assert (∀ l, l ∈ active → rem h1' l = debtAmount (item_of k items l)) as Hrem'.
  { intros l Hl. pose proof (working_set_rem (map clamp_debt debts) l) as H.
    rewrite working_set_clamp, !length_map, item_of_clamp in H. exact (H Hl). }
  assert (agree active (item_of k items) (item_of k (map clamp_debt items)) h1 h1') as Hag.
  { split; [done|]. split; [done|]. intros l Hl. by rewrite Hrem, Hrem'. }
  destruct active as [|l0 active0] eqn:Eact.
  { exists [], []. split; [done|]. split; [done|]. constructor. }
  rewrite <- Eact in *.
  destruct (sum_min_payments_spec active (item_of k items) h1 active 0 Hwf) as (s & -> & Hs);
    [done|].
  destruct (sum_min_payments_spec active (item_of k (map clamp_debt items)) h1' active 0 Hwf')
    as (s' & -> & Hs'); [done|].
  cbn [mbind option_bind].
  assert (still_active active h1 = active) as Hall.
  { apply still_active_all. intros l Hl. by apply working_set_pos. }
  destruct (agree_first_month active (item_of k items) (item_of k (map clamp_debt items))
              (item_of_clamp k items) (NoDup_seq _ _)
              (default default_maxMonths maxMonths) 1 h1 h1'
              (s + extraPayment) (s' + Qmax 0 extraPayment) Hag)
    as (hf & ms & hf' & ms' & -> & -> & Hhead).
  { rewrite Hall. fold (required_min (item_of k items) active) in Hs.
    fold (required_min (item_of k (map clamp_debt items)) active) in Hs'.
    transitivity (Qmax 0 extraPayment); [apply Qmax_eq; [reflexivity|lra]|].
    transitivity (Qmax 0 (Qmax 0 extraPayment)); [|apply Qmax_eq; [reflexivity|lra]].
    destruct (Qmax_cases 0 extraPayment) as [[? H1]|[? H1]];
      destruct (Qmax_cases 0 (Qmax 0 extraPayment)) as [[? H2]|[? H2]]; lra. }
  exists ms, ms'. split; [done|]. split; [done|]. done.
Qed.

(** * The properties of the specification *)

(** ** Budget ceiling *)



(** ** Monotonic payoff *)

(** With [twin_debts] and an extra payment of 50, the entry of the shared
    id goes from 0 in month 1 to 150 in month 2. *)
Lemma monotonic_payoff_counterexample :
  ¬ (∀ months d j m1 m2 v1 v2,
       simulate twin_debts 50 None = Some months →
       d ∈ working_set twin_debts →
       months !! j = Some m1 → months !! S j = Some m2 →
       remainingById m1 !! id d = Some v1 → remainingById m2 !! id d = Some v2 →
       v2 <= v1).
Proof.
  intros H.
  specialize (H (schedule_of twin_debts 50 None) (mkDebt "a" 0 200) 0%nat
                (month_of twin_debts 50 None 0) (month_of twin_debts 50 None 1) 0 150).
  assert (150 <= 0) as Habs; [|by vm_compute in Habs].
  apply H; try (vm_compute; reflexivity). vm_compute. left.
Qed.

(** C2, as amended.  When the debts of the working set have pairwise
    distinct ids, the [remainingById] entry of an id never grows from one
    emitted month to the next. *)
Theorem monotonic_payoff debts extraPayment maxMonths months d j m1 m2 v1 v2 :
  simulate debts extraPayment maxMonths = Some months →
  NoDup (map id (working_set debts)) →
  d ∈ working_set debts →
  months !! j = Some m1 → months !! S j = Some m2 →
  remainingById m1 !! id d = Some v1 → remainingById m2 !! id d = Some v2 →
  v2 <= v1.
Proof.
  intros Hsim Hnd _ H1 H2 Hv1 Hv2.
  destruct (simulate_inv _ _ _ _ Hsim) as (TM & h' & HTM & Hrun).
  eapply run_monotone; [|exact Hrun|exact H1|exact H2|exact Hv1|exact Hv2].
  intros l l' Hl Hl'. by apply item_of_inj.
Qed.

Lemma monotonic_payoff_witness :
  simulate two_debts 40 None = Some (schedule_of two_debts 40 None) ∧
  NoDup (map id (working_set two_debts)) ∧
  debt_b ∈ working_set two_debts ∧
  schedule_of two_debts 40 None !! 1%nat = Some (month_of two_debts 40 None 1) ∧
  schedule_of two_debts 40 None !! 2%nat = Some (month_of two_debts 40 None 2) ∧
  remainingById (month_of two_debts 40 None 1) !! id debt_b = Some 130 ∧
  remainingById (month_of two_debts 40 None 2) !! id debt_b = Some 70 ∧
  70 <= 130.
Proof.
  assert (simulate two_debts 40 None = Some (schedule_of two_debts 40 None)) as H1
    by (vm_compute; reflexivity).
  assert (NoDup (map id (working_set two_debts))) as H2
    by (apply (bool_decide_unpack _); vm_compute; exact I).
  assert (debt_b ∈ working_set two_debts) as H3 by (vm_compute; right; left).
  assert (schedule_of two_debts 40 None !! 1%nat = Some (month_of two_debts 40 None 1)) as H4
    by (vm_compute; reflexivity).
  assert (schedule_of two_debts 40 None !! 2%nat = Some (month_of two_debts 40 None 2)) as H5
    by (vm_compute; reflexivity).
  assert (remainingById (month_of two_debts 40 None 1) !! id debt_b = Some 130) as H6
    by (vm_compute; reflexivity).
  assert (remainingById (month_of two_debts 40 None 2) !! id debt_b = Some 70) as H7
    by (vm_compute; reflexivity).
  split; [exact H1|]. split; [exact H2|]. split; [exact H3|]. split; [exact H4|].
  split; [exact H5|]. split; [exact H6|]. split; [exact H7|].
  exact (monotonic_payoff two_debts 40 None _ debt_b 1 _ _ 130 70 H1 H2 H3 H4 H5 H6 H7).
Defined.

(** ** Payoff *)




(** ** Snowball ordering *)

(** C4.  [simulate([a, b], 40)] with [a = {minPayment: 10, debtAmount: 50}]
    and [b = {minPayment: 10, debtAmount: 200}]: month 1 pays 50 to [a] and
    10 to [b] and leaves 0 and 190; every month in which [b] receives more
    than its minimum of 10 comes after month 1, the month in which [a]
    reaches 0. *)
Theorem snowball_ordering :
  ∃ months m1,
    simulate [debt_a; debt_b] 40 None = Some months ∧
    months !! 0%nat = Some m1 ∧
    monthIndex m1 = 1%nat ∧
    payments m1 !! "a" = Some 50 ∧ payments m1 !! "b" = Some 10 ∧
    remainingById m1 !! "a" = Some 0 ∧ remainingById m1 !! "b" = Some 190 ∧
    ∀ m p, m ∈ months → payments m !! "b" = Some p → 10 < p →
           (monthIndex m1 < monthIndex m)%nat.
Proof.
  destruct (simulate [debt_a; debt_b] 40 None) as [months|] eqn:E; [|by vm_compute in E].
  vm_compute in E. injection E as <-.
  eexists _, _. split; [reflexivity|]. split; [reflexivity|].
  repeat (split; [by vm_compute|]).
  intros m p Hm.
  repeat (apply elem_of_cons in Hm as [->|Hm]); [..|by apply elem_of_nil in Hm];
    vm_compute; intros [= <-]; (discriminate || lia).
Qed.

(** ** Negative inputs *)



(** ** Debts without a balance *)

(** With [shared_id], the id of the debt without a balance is a key of
    month 1. *)
Lemma dropped_debt_counterexample :
  ∃ months m d,
    simulate shared_id 0 None = Some months ∧
    m ∈ months ∧ d ∈ shared_id ∧ debtAmount d <= 0 ∧
    id d ∈ dom (payments m) ∧ id d ∈ dom (remainingById m).
Proof.
  exists (schedule_of shared_id 0 None), (month_of shared_id 0 None 0), (mkDebt "a" 0 0).
  split; [vm_compute; reflexivity|].
  split; [apply (list_elem_of_lookup_2 _ 0%nat); vm_compute; reflexivity|].
  split; [left|]. split; [vm_compute; discriminate|].
  split; apply elem_of_dom; eexists; vm_compute; reflexivity.
Qed.

(** C6, as amended.  Every key of [payments] and of [remainingById] in an
    emitted month is the id of a debt with [debtAmount > 0]; so, when ids
    are pairwise distinct, a debt with [debtAmount <= 0] is never a key;
    and when no debt has [debtAmount > 0] the schedule is empty. *)
Theorem only_working_set_keys debts extraPayment maxMonths months :
  simulate debts extraPayment maxMonths = Some months →
  (∀ m i, m ∈ months → (i ∈ dom (payments m) ∨ i ∈ dom (remainingById m)) →
     ∃ d, d ∈ debts ∧ 0 < debtAmount d ∧ id d = i) ∧
  (NoDup (map id debts) →
     ∀ m d, m ∈ months → d ∈ debts → debtAmount d <= 0 →
       (id d ∉ dom (payments m)) ∧ (id d ∉ dom (remainingById m))) ∧
  ((∀ d, d ∈ debts → debtAmount d <= 0) → months = []).
Proof.
  intros Hsim.
  destruct (simulate_inv _ _ _ _ Hsim) as (TM & h' & HTM & Hrun).
  assert (∀ m i, m ∈ months → (i ∈ dom (payments m) ∨ i ∈ dom (remainingById m)) →
     ∃ d, d ∈ debts ∧ 0 < debtAmount d ∧ id d = i) as Hkeys.
  { intros m i Hm. revert i.
    apply (run_months _ _ _
             (λ m, ∀ i, i ∈ dom (payments m) ∨ i ∈ dom (remainingById m) →
                        ∃ d, d ∈ debts ∧ 0 < debtAmount d ∧ id d = i)
             _ _ _ _ _) with (m := m) (2 := Hrun); [|done].
    clear m Hm. intros k h m h1 Hpost i Hi.
    rewrite (mp_dom_payments _ _ _ _ _ _ _ Hpost), (mp_dom_remaining _ _ _ _ _ _ _ Hpost) in Hi.
    assert (i ∈ ids (item_of (length debts) (working_set debts))
                (still_active (seq (length debts) (length (working_set debts))) h))
      as (l & Hl & <-)%elem_of_ids_inv by tauto.
    apply still_active_sub, item_of_elem, elem_of_working_set in Hl as [? ?]. eauto. }
  split; [done|]. split.
  - intros Hnd m d Hm Hd Hle.
    assert (∀ i, (i ∈ dom (payments m) ∨ i ∈ dom (remainingById m)) → i ≠ id d) as Hne.
    { intros i Hi Heq. destruct (Hkeys m i Hm Hi) as (d' & Hd' & Hpos & Hid).
      assert (d' = d) as -> by (eapply NoDup_fmap_inj; eauto; congruence). lra. }
    split; intros Hin; eapply Hne; eauto.
  - intros Hall. destruct months as [|m months]; [done|].
    destruct (Hkeys m) with (i := id (item_of (length debts) (working_set debts) (length debts)))
      as (d & Hd & Hpos & _); [left| |].
    + destruct (run_head _ _ _ _ _ _ _ _ _ Hrun) as (h1 & Hne & Hpost).
      left. rewrite (mp_dom_payments _ _ _ _ _ _ _ Hpost).
      destruct (still_active _ _) as [|l sa] eqn:E; [done|].
      assert (l ∈ l :: sa) as Hl by left. rewrite <- E in Hl.
      apply still_active_sub, item_of_elem, elem_of_working_set in Hl as [Hl Hpos].
      specialize (Hall _ Hl). lra.
    + specialize (Hall _ Hd). lra.
Qed.

Lemma only_working_set_keys_witness :
  simulate two_debts 40 None = Some (schedule_of two_debts 40 None) ∧
  (∀ m i, m ∈ schedule_of two_debts 40 None →
     (i ∈ dom (payments m) ∨ i ∈ dom (remainingById m)) →
     ∃ d, d ∈ two_debts ∧ 0 < debtAmount d ∧ id d = i) ∧
  (NoDup (map id two_debts) →
     ∀ m d, m ∈ schedule_of two_debts 40 None → d ∈ two_debts → debtAmount d <= 0 →
       (id d ∉ dom (payments m)) ∧ (id d ∉ dom (remainingById m))) ∧
  ((∀ d, d ∈ two_debts → debtAmount d <= 0) → schedule_of two_debts 40 None = []).
Proof.
  assert (simulate two_debts 40 None = Some (schedule_of two_debts 40 None)) as H1
    by (vm_compute; reflexivity).
  split; [exact H1|].
  exact (only_working_set_keys two_debts 40 None _ H1).
Defined.

(** ** Single debt *)

(** C7.  [simulate([{id: "a", minPayment: 100, debtAmount: 250}], 0)] has
    exactly 3 months, with [remainingById.a] 150, 50, 0 and [payments.a]
    100, 100, 50. *)
Theorem single_debt_exact_payoff :
  ∃ months,
    simulate [mkDebt "a" 100 250] 0 None = Some months ∧
    length months = 3%nat ∧
    map monthIndex months = [1; 2; 3]%nat ∧
    map (λ m, remainingById m !! "a") months = [Some 150; Some 50; Some 0] ∧
    map (λ m, payments m !! "a") months = [Some 100; Some 100; Some 50].
Proof.
  destruct (simulate [mkDebt "a" 100 250] 0 None) as [months|] eqn:E; [|by vm_compute in E].
  vm_compute in E. injection E as <-.
  eexists. split; [reflexivity|]. repeat split; by vm_compute.
Qed.

(** ** Bounded termination *)


(** ** Determinism and purity *)

(** C9.  A call returns a schedule and leaves every object that was on
    the heap before it unchanged, in particular the debt records of the
    input array with their [debtAmount] and [minPayment]; a second call
    with the same arguments, made after the first, returns the identical
    schedule. *)
Theorem runSnowball_pure (h : heap) debts extraPayment maxMonths :
  Forall (λ d, is_Some (h !! d)) debts →
  ∃ h1 months,
    runSnowball h debts extraPayment maxMonths = Some (h1, months) ∧
    (∀ l o, h !! l = Some o → h1 !! l = Some o) ∧
    ∃ h2, runSnowball h1 debts extraPayment maxMonths = Some (h2, months).
Proof.
  intros Hvalid.
  destruct (runSnowball_run h debts extraPayment maxMonths Hvalid)
    as (TM & h1 & months & Hcall & _ & Hrun).
  exists h1, months. split; [done|].
  apply run_wf_evolves in Hrun as [_ (Hlen & Hframe & _)]; [|apply copies_wf].
  assert (∀ l o, h !! l = Some o → h1 !! l = Some o) as Hsame.
  { intros l o Hl. pose proof (lookup_lt_Some _ _ _ Hl) as Hlt.
    rewrite Hframe; [by apply lookup_app_l_Some|].
    rewrite elem_of_seq. lia. }
  split; [done|].
  assert (Forall (λ d, is_Some (h1 !! d)) debts) as Hvalid1.
  { eapply Forall_impl; [exact Hvalid|]. intros d [o Ho]. exists o. by apply Hsame. }
  assert (working_items h1 debts = working_items h debts) as Hitems.
  { apply working_items_ext. intros d Hd. rewrite Forall_forall in Hvalid.
    destruct (Hvalid d Hd) as [o Ho]. by rewrite Ho, (Hsame d o Ho). }
  rewrite runSnowball_unfold in Hcall by done.
  rewrite runSnowball_unfold by done. rewrite Hitems. cbv zeta in *.
  set (items := working_items h debts) in *.
  set (same := λ l1 l2 : loc,
         ∃ j, (j < length items)%nat ∧ l1 = (length h + j)%nat ∧ l2 = (length h1 + j)%nat).
  assert (∀ l1 l2 k1 k2, same l1 l2 → same k1 k2 → l1 = k1 ↔ l2 = k2) as Hinj.
  { intros l1 l2 k1 k2 (j & ? & -> & ->) (j' & ? & -> & ->). lia. }
  assert (Forall2 same (seq (length h) (length items)) (seq (length h1) (length items)))
    as Hactive.
  { apply Forall2_seq. intros j Hj. by exists j. }
  assert (related same (h ++ map copy items) (h1 ++ map copy items)) as Hrel.
  { intros l1 l2 (j & Hj & -> & ->).
    rewrite !lookup_app_r by lia. f_equal. lia. }
  remember (seq (length h) (length items)) as act1 eqn:E1.
  remember (seq (length h1) (length items)) as act2 eqn:E2.
  destruct Hactive as [|x1 x2 a1 a2 Hx Ha]; [simplify_eq; eauto|].
  assert (Forall2 same (x1 :: a1) (x2 :: a2)) as Hactive by (by constructor).
  rewrite <- (related_sum_min_payments same _ _ _ _ Hrel Hactive).
  destruct (sum_min_payments _ (x1 :: a1) 0) as [s|]; [|done].
  cbn [mbind option_bind] in *.
  destruct (related_months_loop same Hinj _ _ _ _ Hactive _ _ _ _ _ _ Hrel Hcall)
    as (h2 & Hcall2 & _).
  eauto.
Qed.

Lemma runSnowball_pure_witness :
  Forall (λ d, is_Some (input_heap two_debts !! d)) [0; 1]%nat ∧
  ∃ h1 months,
    runSnowball (input_heap two_debts) [0; 1]%nat 40 None = Some (h1, months) ∧
    (∀ l o, input_heap two_debts !! l = Some o → h1 !! l = Some o) ∧
    ∃ h2, runSnowball h1 [0; 1]%nat 40 None = Some (h2, months).
Proof.
  assert (Forall (λ d, is_Some (input_heap two_debts !! d)) [0; 1]%nat) as H1
    by (repeat constructor; eexists; reflexivity).
  split; [exact H1|].
  exact (runSnowball_pure (input_heap two_debts) [0; 1]%nat 40 None H1).
Defined.

(** ** No budget *)




(** * Further properties of [runSnowball] *)

(** ** Payments against balances *)

Lemma prop_or_zero_empty i : prop_or_zero ∅ i = 0.
Proof. unfold prop_or_zero. by rewrite lookup_empty. Qed.

Lemma prop_or_zero_insert (m : gmap string Q) i v : prop_or_zero (<[i:=v]> m) i == v.
Proof. unfold prop_or_zero. rewrite lookup_insert_eq. apply or_zero_eq. Qed.

Lemma prop_or_zero_insert_ne (m : gmap string Q) i j v :
  i ≠ j → prop_or_zero (<[i:=v]> m) j = prop_or_zero m j.
Proof. intros Hij. unfold prop_or_zero. by rewrite lookup_insert_ne. Qed.

Lemma prop_or_zero_lookup (m : gmap string Q) i v : m !! i = Some v → prop_or_zero m i == v.
Proof. intros Hv. unfold prop_or_zero. rewrite Hv. apply or_zero_eq. Qed.

Section ledger.
Variable active : list loc.
Variable F : loc → DebtItem.
Variable totalMonthly : Q.
Hypothesis active_NoDup : NoDup active.

Lemma map_rem_upd_ne h l r a : l ∉ a → map (rem (upd F h l r)) a = map (rem h) a.
Proof.
  intros Hl. apply map_ext_in. intros x Hx%list_elem_of_In.
  apply rem_upd_ne. by intros ->.
Qed.

Lemma sumQ_rem_upd h l r a :
  wf active F h → l ∈ active → NoDup a → l ∈ a →
  sumQ (map (rem (upd F h l r)) a) == sumQ (map (rem h) a) - rem h l + r.
Proof.
  intros Hwf Hl. induction a as [|x a IH]; intros Hnd Hin; [by apply elem_of_nil in Hin|].
  apply NoDup_cons in Hnd as [Hx Hnd]. cbn [map sumQ foldr].
  destruct (decide (l = x)) as [->|Hne].
  - rewrite (rem_upd_eq active), map_rem_upd_ne by done. fold (sumQ (map (rem h) a)). lra.
  - apply elem_of_cons in Hin as [?|Hin]; [done|].
    rewrite rem_upd_ne by done.
    fold (sumQ (map (rem (upd F h l r)) a)) (sumQ (map (rem h) a)).
    specialize (IH Hnd Hin). lra.
Qed.

Lemma owed_upd h l r :
  wf active F h → l ∈ active → owed active (upd F h l r) == owed active h - rem h l + r.
Proof. intros Hwf Hl. unfold owed. by apply sumQ_rem_upd. Qed.

(** One payment: [paid] goes from the [remaining] of [l] to its entry
    of [payments]. *)
Lemma payment_ledger h p l paid :
  wf active F h → l ∈ active →
  let h1 := upd F h l (rem h l - paid) in
  let p1 := <[id (F l) := prop_or_zero p (id (F l)) + paid]> p in
  sum_values p1 + owed active h1 == sum_values p + owed active h ∧
  (ids_distinct active F →
   ∀ x, x ∈ active →
     prop_or_zero p1 (id (F x)) + rem h1 x == prop_or_zero p (id (F x)) + rem h x).
Proof.
  intros Hwf Hl h1 p1. split.
  - unfold h1, p1. rewrite sum_values_add, owed_upd by done. lra.
  - intros Hinj x Hx. unfold h1, p1. destruct (decide (x = l)) as [->|Hne].
    + rewrite prop_or_zero_insert, (rem_upd_eq active) by done. lra.
    + rewrite prop_or_zero_insert_ne, rem_upd_ne by (intros Heq; apply Hne; auto).
      lra.
Qed.

Lemma pay_minimums_ledger todo : ∀ h p rb h' p' rb',
  wf active F h → todo ⊆ active →
  pay_minimums todo (h, p, rb) = Some (h', p', rb') →
  wf active F h' ∧
  sum_values p' + owed active h' == sum_values p + owed active h ∧
  (ids_distinct active F →
   ∀ x, x ∈ active →
     prop_or_zero p' (id (F x)) + rem h' x == prop_or_zero p (id (F x)) + rem h x).
Proof.
  induction todo as [|l todo IH]; intros h p rb h' p' rb' Hwf Hsub Hrun.
  - simpl in Hrun. injection Hrun as <- <- <-. split; [done|]. split; [lra|]. intros _ x _. lra.
  - assert (l ∈ active) as Hl by set_solver.
    simpl in Hrun. rewrite (wf_lookup active F h l Hwf Hl) in Hrun. simpl in Hrun.
    rewrite (write_spec active F h l _ Hwf Hl) in Hrun. simpl in Hrun.
    apply IH in Hrun as (Hwf' & Hsum & Hid); [|by apply wf_upd|set_solver].
    destruct (payment_ledger h p l (Qmin (rem h l) (Qmax 0 (or_zero (minPayment (F l))))) Hwf Hl)
      as [Hsum1 Hid1].
    split; [done|]. split; [by rewrite Hsum|].
    intros Hinj x Hx. rewrite (Hid Hinj x Hx). by apply Hid1.
Qed.

Lemma snowball_ledger fuel : ∀ sa e h p rb e' h' p' rb',
  wf active F h → sa ⊆ active →
  snowball fuel sa e (h, p, rb) = Some (e', (h', p', rb')) →
  wf active F h' ∧
  sum_values p' + owed active h' == sum_values p + owed active h ∧
  (ids_distinct active F →
   ∀ x, x ∈ active →
     prop_or_zero p' (id (F x)) + rem h' x == prop_or_zero p (id (F x)) + rem h x).
Proof.
  induction fuel as [|fuel IH]; intros sa e h p rb e' h' p' rb' Hwf Hsa Hrun; [done|].
  simpl in Hrun. destruct (gtb e epsilon) eqn:Hgt.
  2:{ injection Hrun as <- <- <- <-. split; [done|]. split; [lra|]. intros _ x _. lra. }
  destruct (pick_target_spec active F h sa Hwf Hsa) as [Hn|(t & Hpick & Ht & Hrt)].
  { rewrite Hn in Hrun. simpl in Hrun. injection Hrun as <- <- <- <-.
    split; [done|]. split; [lra|]. intros _ x _. lra. }
  assert (t ∈ active) as Hta by set_solver.
  rewrite Hpick in Hrun. simpl in Hrun.
  rewrite (wf_lookup active F h t Hwf Hta) in Hrun. simpl in Hrun.
  rewrite (write_spec active F h t _ Hwf Hta) in Hrun. simpl in Hrun.
  apply IH in Hrun as (Hwf' & Hsum & Hid); [|by apply wf_upd|done].
  destruct (payment_ledger h p t (Qmin (rem h t) e) Hwf Hta) as [Hsum1 Hid1].
  split; [done|]. split; [by rewrite Hsum|].
  intros Hinj x Hx. rewrite (Hid Hinj x Hx). by apply Hid1.
Qed.

(** What a month pays is what the working copies owe less. *)
Lemma month_ledger k h m h' :
  wf active F h → month_passes active totalMonthly k h m h' →
  totalPaid m + owed active h' == owed active h ∧
  (ids_distinct active F →
   ∀ x, x ∈ active → prop_or_zero (payments m) (id (F x)) + rem h' x == rem h x).
Proof.
  intros Hwf (rq & h1 & p1 & rb1 & e2 & p2 & rb2 & _ & Hmin & Hsnow & ->).
  pose proof (still_active_sub active h) as Hsub.
  apply pay_minimums_ledger in Hmin as (Hwf1 & Hsum1 & Hid1); [|done..].
  apply snowball_ledger in Hsnow as (Hwf2 & Hsum2 & Hid2); [|done..].
  simpl. split.
  - rewrite Hsum2, Hsum1, sum_values_empty. lra.
  - intros Hinj x Hx. rewrite (Hid2 Hinj x Hx), (Hid1 Hinj x Hx), prop_or_zero_empty. lra.
Qed.

End ledger.

(** ** The months of a call, one after the other *)

Section traces.
Variable active : list loc.
Variable F : loc → DebtItem.
Variable totalMonthly : Q.
Hypothesis active_NoDup : NoDup active.

Lemma months_loop_trace n : ∀ k h acc,
  wf active F h →
  ∃ h' ms,
    months_loop n k active totalMonthly h acc = Some (h', acc ++ ms) ∧
    run active F totalMonthly n k h ms h' ∧
    trace active F totalMonthly k h ms h'.
Proof.
  induction n as [|n IH]; intros k h acc Hwf.
  { exists h, []. rewrite app_nil_r. split; [done|]. split; constructor. }
  destruct (decide (still_active active h = [])) as [He|Hne].
  { exists h, []. rewrite app_nil_r. split; [|split; by constructor].
    cbn [months_loop].
    rewrite (array_filter_remaining active F h (λ r, gtb r 0) active Hwf) by done.
    simpl. unfold still_active in He. by rewrite He. }
  destruct (month_steps active F totalMonthly active_NoDup k h Hwf Hne)
    as (rq & h1 & p1 & rb1 & e2 & h2 & p2 & rb2 & Hrq & _ & Hmin & Hsnow & Hpost & Hloop).
  assert (month_passes active totalMonthly k h (mkMonth k (sum_values p2) p2 rb2) h2) as Hpass.
  { by exists rq, h1, p1, rb1, e2, p2, rb2. }
  rewrite Hloop.
  destruct (array_every_remaining active F h2 (λ r, Qle_bool r epsilon) (still_active active h))
    as (b & -> & Hb); [apply Hpost|apply still_active_sub|].
  simpl. destruct b.
  - eexists h2, [_]. split; [done|]. split.
    + apply run_last; auto. intros l Hl. apply Qle_bool_iff. by apply Hb.
    + eapply trace_cons; eauto; [done|constructor].
  - assert (∃ l, l ∈ still_active active h ∧ epsilon < rem h2 l) as Hmore.
    { destruct (decide (Forall (λ l, Qle_bool (rem h2 l) epsilon = true)
                          (still_active active h))) as [Hall|Hex].
      - rewrite Forall_forall in Hall. destruct Hb as [_ Hb]. by specialize (Hb Hall).
      - apply not_Forall_Exists in Hex; [|intros ?; apply _].
        apply Exists_exists in Hex as (l & Hl & Hnle). exists l. split; [done|].
        apply Qnot_le_lt. by rewrite <- Qle_bool_iff. }
    destruct (IH (S k) h2 (acc ++ [mkMonth k (sum_values p2) p2 rb2]))
      as (h'' & ms & -> & Hrun & Htrace); [apply Hpost|].
    eexists h'', (_ :: ms). split; [by rewrite <- app_assoc|]. split.
    + eapply run_next; eauto.
    + eapply trace_cons; eauto.
Qed.

(** The cap only cuts the schedule short: the months computed under a
    cap of [n] are the first [n] months computed under a larger cap. *)
Lemma months_loop_take n j : ∀ k h acc,
  wf active F h →
  ∃ h1 h2 ms,
    months_loop (n + j) k active totalMonthly h acc = Some (h2, acc ++ ms) ∧
    months_loop n k active totalMonthly h acc = Some (h1, acc ++ take n ms).
Proof.
  induction n as [|n IH]; intros k h acc Hwf.
  { destruct (months_loop_run active F totalMonthly active_NoDup j k h acc Hwf)
      as (h2 & ms & Hloop & _).
    exists h, h2, ms. split; [exact Hloop|]. by rewrite take_0, app_nil_r. }
  destruct (decide (still_active active h = [])) as [He|Hne].
  { exists h, h, []. rewrite take_nil, app_nil_r. cbn [Nat.add months_loop].
    rewrite (array_filter_remaining active F h (λ r, gtb r 0) active Hwf) by done.
    simpl. unfold still_active in He. by rewrite He. }
  destruct (month_body active F totalMonthly active_NoDup k h Hwf Hne)
    as (m & h' & Hpost & Hloop).
  cbn [Nat.add]. rewrite !Hloop.
  destruct (array_every_remaining active F h' (λ r, Qle_bool r epsilon) (still_active active h))
    as (b & -> & _); [apply Hpost|apply still_active_sub|].
  simpl. destruct b.
  - exists h', h', [m]. split; [done|]. simpl. by rewrite take_nil.
  - destruct (IH (S k) h' (acc ++ [m])) as (h1 & h2 & ms & -> & ->); [apply Hpost|].
    exists h1, h2, (m :: ms). by rewrite <- !app_assoc.
Qed.

Lemma trace_total k h ms h' :
  trace active F totalMonthly k h ms h' →
  sumQ (map totalPaid ms) + owed active h' == owed active h.
Proof.
  induction 1 as [|k h m h' ms h'' Hwf Hne Hpost Hpass Hmore Htrace IH]; [simpl; lra|].
  destruct (month_ledger active F totalMonthly active_NoDup k h m h' Hwf Hpass) as [Hm _].
  cbn [map sumQ foldr]. fold (sumQ (map totalPaid ms)). lra.
Qed.

(** A month has an entry for a debt exactly when the debt still has a
    balance at the start of the month. *)
Lemma month_keys k h m h' i :
  month_post active F totalMonthly k h m h' →
  i ∈ dom (remainingById m) ↔ ∃ l, l ∈ active ∧ 0 < rem h l ∧ id (F l) = i.
Proof.
  intros Hpost. rewrite (mp_dom_remaining _ _ _ _ _ _ _ Hpost). split.
  - intros (l & Hl & Hid)%elem_of_ids_inv. apply still_active_pos in Hl as [? ?]. eauto.
  - intros (l & Hl & Hpos & <-). apply elem_of_ids. by apply still_active_pos.
Qed.

(** With distinct ids, the entries of a month are the new balance of the
    debt and what was paid into it. *)
Lemma month_entries k h m h' l :
  ids_distinct active F → wf active F h →
  month_post active F totalMonthly k h m h' → month_passes active totalMonthly k h m h' →
  l ∈ active → 0 < rem h l →
  remainingById m !! id (F l) = Some (rem h' l) ∧
  ∃ p, payments m !! id (F l) = Some p ∧ p + rem h' l == rem h l.
Proof.
  intros Hinj Hwf Hpost Hpass Hl Hpos.
  assert (l ∈ still_active active h) as Hsa by (by apply still_active_pos).
  pose proof (elem_of_ids F _ l Hsa) as Hid.
  split.
  - pose proof Hid as Hid'. rewrite <- (mp_dom_remaining _ _ _ _ _ _ _ Hpost) in Hid'.
    apply elem_of_dom in Hid' as [v Hv]. rewrite Hv.
    destruct (mp_tracked _ _ _ _ _ _ _ Hpost _ _ Hv) as (l' & Hl' & Hid' & <-).
    f_equal. f_equal. apply Hinj; auto. by apply (still_active_sub active h).
  - rewrite <- (mp_dom_payments _ _ _ _ _ _ _ Hpost) in Hid.
    apply elem_of_dom in Hid as [p Hp]. exists p. split; [done|].
    destruct (month_ledger active F totalMonthly active_NoDup k h m h' Hwf Hpass) as [_ Hm].
    rewrite <- (Hm Hinj l Hl). by rewrite (prop_or_zero_lookup _ _ _ Hp).
Qed.

Lemma month_still_active k h m h' l :
  month_post active F totalMonthly k h m h' →
  l ∈ still_active active h' → l ∈ still_active active h.
Proof.
  intros Hpost [Hl Hpos]%still_active_pos. apply still_active_pos. split; [done|].
  destruct (mp_evolves _ _ _ _ _ _ _ Hpost) as (_ & _ & Hev).
  destruct (Hev l Hl) as [Hz _]. destruct (Qlt_le_dec 0 (rem h l)) as [?|Hle]; [done|].
  rewrite (Hz Hle) in Hpos. lra.
Qed.

(** Two months that follow one another: the later month has an entry for
    the ids whose entry in the earlier month is above zero, and for no
    other; the balance went down by what the later month paid. *)
Lemma trace_next k h ms h' :
  ids_distinct active F →
  trace active F totalMonthly k h ms h' →
  ∀ j m1 m2 i,
    ms !! j = Some m1 → ms !! S j = Some m2 →
    (is_Some (remainingById m2 !! i) ↔
       ∃ v1, remainingById m1 !! i = Some v1 ∧ 0 < v1) ∧
    (∀ v2, remainingById m2 !! i = Some v2 →
       ∃ v1 p, remainingById m1 !! i = Some v1 ∧ payments m2 !! i = Some p ∧
               p + v2 == v1).
Proof.
  intros Hinj.
  induction 1 as [|k h m h' ms h'' Hwf Hne Hpost Hpass Hmore Htrace IH];
    intros j m1 m2 i H1 H2; [done|].
  destruct j as [|j]; simplify_eq/=; [|eauto].
  destruct ms as [|m2' ms]; simplify_eq/=.
  inversion Htrace as [|? ? ? h2 ? ? Hwf' Hne' Hpost' Hpass' Hmore' Htrace']; subst.
  assert (∀ l, l ∈ active → 0 < rem h' l →
            remainingById m1 !! id (F l) = Some (rem h' l)) as Hprev.
  { intros l Hl Hpos.
    assert (l ∈ still_active active h) as [_ Hpos0]%still_active_pos.
    { eapply month_still_active; [exact Hpost|]. by apply still_active_pos. }
    by destruct (month_entries k h m1 h' l Hinj Hwf Hpost Hpass Hl Hpos0) as [? _]. }
  split; [split|].
  - intros Hsome%elem_of_dom. apply (month_keys _ _ _ _ _ Hpost') in Hsome as (l & Hl & Hpos & <-).
    exists (rem h' l). split; [by apply Hprev|done].
  - intros (v1 & Hv1 & Hpos). apply elem_of_dom, (month_keys _ _ _ _ _ Hpost').
    destruct (mp_tracked _ _ _ _ _ _ _ Hpost _ _ Hv1) as (l & Hl & Hid & Hrem).
    exists l. split; [by apply (still_active_sub active h)|]. split; [by rewrite Hrem|done].
  - intros v2 Hv2.
    assert (i ∈ dom (remainingById m2)) as (l & Hl & Hpos & <-)%(month_keys _ _ _ _ _ Hpost')
      by (apply elem_of_dom; eauto).
    destruct (month_entries (S k) h' m2 h2 l Hinj Hwf' Hpost' Hpass' Hl Hpos)
      as [Hrb (p & Hp & Hsum)].
    exists (rem h' l), p. split; [by apply Hprev|]. split; [done|].
    rewrite Hv2 in Hrb. injection Hrb as ->. exact Hsum.
Qed.

(** Below the cap the loop ends with every balance at most [epsilon]. *)
Lemma run_final n k h ms h' :
  run active F totalMonthly n k h ms h' → (length ms < n)%nat →
  ∀ l, l ∈ active → rem h' l <= epsilon.
Proof.
  pose proof epsilon_pos as Heps.
  induction 1 as [| n k h Hnil |n k h m h' Hne Hpost Hall|n k h m h' ms h'' Hne Hpost Hex Hrun IH];
    simpl; intros Hlen l Hl; [lia| | |].
  - destruct (Qlt_le_dec 0 (rem h l)) as [Hpos|?]; [|lra].
    assert (l ∈ still_active active h) as Hin by (by apply still_active_pos).
    rewrite Hnil in Hin. by apply elem_of_nil in Hin.
  - destruct (Qlt_le_dec 0 (rem h l)) as [Hpos|Hle].
    + apply Hall. by apply still_active_pos.
    + destruct (mp_evolves _ _ _ _ _ _ _ Hpost) as (_ & _ & Hev).
      destruct (Hev l Hl) as [Hz _]. rewrite (Hz Hle). lra.
  - apply IH; [lia|done].
Qed.

Lemma run_nonneg n k h ms h' :
  run active F totalMonthly n k h ms h' → wf active F h →
  (∀ l, l ∈ active → 0 <= rem h l) → ∀ l, l ∈ active → 0 <= rem h' l.
Proof.
  intros Hrun Hwf Hnn l Hl.
  destruct (run_wf_evolves _ _ _ _ _ _ _ _ Hrun Hwf) as [_ (_ & _ & Hev)].
  destruct (Hev l Hl) as [Hz Hp]. specialize (Hnn l Hl).
  destruct (Qlt_le_dec 0 (rem h l)) as [Hpos|Hle].
  - by destruct (Hp Hpos).
  - rewrite (Hz Hle). done.
Qed.

End traces.

(** ** Calls on records given by value, once more *)

Lemma simulate_trace debts extraPayment maxMonths months :
  simulate debts extraPayment maxMonths = Some months →
  let items := working_set debts in
  let k := length debts in
  ∃ totalMonthly h',
    totalMonthly == sumQ (map (λ d, or_zero (minPayment d)) items) + extraPayment ∧
    run (seq k (length items)) (item_of k items) totalMonthly
        (default default_maxMonths maxMonths) 1
        (input_heap debts ++ map copy items) months h' ∧
    trace (seq k (length items)) (item_of k items) totalMonthly 1
        (input_heap debts ++ map copy items) months h'.
Proof.
  intros Hsim items k. rewrite simulate_unfold in Hsim. cbv zeta in Hsim.
  fold items k in Hsim.
  pose proof (working_set_wf debts) as Hwf. fold items k in Hwf.
  set (active := seq k (length items)) in *.
  set (h1 := input_heap debts ++ map copy items) in *.
  destruct (sum_min_payments_spec active (item_of k items) h1 active 0 Hwf) as (s & Hs & Hsv);
    [done|].
  destruct (months_loop_trace active (item_of k items) (s + extraPayment) (NoDup_seq _ _)
              (default default_maxMonths maxMonths) 1 h1 [] Hwf)
    as (h' & ms & Hloop & Hrun & Htrace).
  exists (s + extraPayment), h'.
  assert (months = ms) as ->.
  { destruct active as [|l0 active0] eqn:Eact.
    - injection Hsim as <-.
      inversion Hrun as [| ? ? ? Hnil| ? ? ? ? ? Hne|? ? ? ? ? ? ? Hne]; subst; done.
    - rewrite Hs in Hsim. cbn [mbind option_bind] in Hsim. rewrite Hloop in Hsim.
      simpl in Hsim. by injection Hsim as <-. }
  split; [|done].
  rewrite Hsv. unfold active. rewrite (map_item_of (λ d, or_zero (minPayment d))). ring.
Qed.

Lemma simulate_take debts extraPayment n j :
  ∃ months,
    simulate debts extraPayment (Some (n + j)%nat) = Some months ∧
    simulate debts extraPayment (Some n) = Some (take n months).
Proof.
  rewrite !simulate_unfold. cbv zeta.
  pose proof (working_set_wf debts) as Hwf.
  set (items := working_set debts) in *. set (k := length debts) in *.
  set (active := seq k (length items)) in *.
  set (h1 := input_heap debts ++ map copy items) in *.
  destruct (sum_min_payments_spec active (item_of k items) h1 active 0 Hwf) as (s & Hs & Hsv);
    [done|].
  destruct (months_loop_take active (item_of k items) (s + extraPayment) (NoDup_seq _ _)
              n j 1 h1 [] Hwf) as (h' & h'' & ms & Hbig & Hsmall).
  destruct active as [|l0 active0] eqn:Eact.
  - exists []. by rewrite take_nil.
  - exists ms. rewrite Hs. cbn [mbind option_bind from_option Datatypes.id].
    by rewrite Hbig, Hsmall.
Qed.

Lemma simulate_no_debt debts extraPayment maxMonths :
  working_set debts = [] → simulate debts extraPayment maxMonths = Some [].
Proof. intros Hnil. rewrite simulate_unfold. cbv zeta. by rewrite Hnil. Qed.

Lemma simulate_some_month debts extraPayment maxMonths months :
  working_set debts ≠ [] → (0 < default default_maxMonths maxMonths)%nat →
  simulate debts extraPayment maxMonths = Some months → months ≠ [].
Proof.
  intros Hne Hcap Hsim.
  destruct (simulate_inv _ _ _ _ Hsim) as (TM & h' & _ & Hrun).
  destruct (default default_maxMonths maxMonths) as [|n]; [lia|].
  eapply run_not_nil; [exact Hrun|].
  rewrite still_active_all by (intros l Hl; by apply working_set_pos).
  destruct (working_set debts); [done|]. simpl. done.
Qed.

Lemma working_set_owed debts :
  owed (seq (length debts) (length (working_set debts)))
       (input_heap debts ++ map copy (working_set debts))
  = sumQ (map debtAmount (working_set debts)).
Proof.
  unfold owed. rewrite <- (map_item_of debtAmount (length debts) (working_set debts)).
  f_equal. apply map_ext_in. intros l Hl%list_elem_of_In. by apply working_set_rem.
Qed.

Lemma sumQ_bounds {A} (f : A → Q) (a : list A) lo hi :
  (∀ x, x ∈ a → lo <= f x ∧ f x <= hi) →
  inject_Z (Z.of_nat (length a)) * lo <= sumQ (map f a) ∧
  sumQ (map f a) <= inject_Z (Z.of_nat (length a)) * hi.
Proof.
  induction a as [|x a IH]; intros Hb.
  - cbn [map sumQ foldr length]. change (inject_Z (Z.of_nat 0)) with 0. lra.
  - destruct IH as [IH1 IH2]; [intros y Hy; apply Hb; by right|].
    destruct (Hb x) as [Hx1 Hx2]; [left|].
    cbn [map sumQ foldr length]. fold (sumQ (map f a)).
    rewrite Nat2Z.inj_succ. unfold Z.succ. rewrite inject_Z_plus.
    set (N := inject_Z (Z.of_nat (length a))) in *.
    assert ((N + inject_Z 1) * lo == N * lo + lo) as -> by (unfold inject_Z; ring).
    assert ((N + inject_Z 1) * hi == N * hi + hi) as -> by (unfold inject_Z; ring).
    lra.
Qed.



(** ** The order of the snowball *)

Section order.
Variable active : list loc.
Variable F : loc → DebtItem.
Variable totalMonthly : Q.
Hypothesis active_NoDup : NoDup active.

Lemma snowball_stop fuel sa e st r :
  e <= epsilon → snowball fuel sa e st = Some r → r = (e, st).
Proof.
  intros He Hrun. destruct fuel as [|fuel]; [done|]. simpl in Hrun.
  assert (gtb e epsilon = false) as Hgt by (by apply gtb_false).
  rewrite Hgt in Hrun. by injection Hrun as <-.
Qed.

Lemma evolves_le h h' l :
  evolves active h h' → l ∈ active → rem h' l <= rem h l.
Proof.
  intros (_ & _ & Hev) Hl. destruct (Hev l Hl) as [Hz Hp].
  destruct (Qlt_le_dec 0 (rem h l)) as [Hpos|Hle].
  - by destruct (Hp Hpos).
  - rewrite (Hz Hle). lra.
Qed.

Lemma snowball_evolves fuel : ∀ sa e h p rb e' h' p' rb',
  wf active F h → sa ⊆ active →
  snowball fuel sa e (h, p, rb) = Some (e', (h', p', rb')) →
  evolves active h h'.
Proof.
  induction fuel as [|fuel IH]; intros sa e h p rb e' h' p' rb' Hwf Hsa Hrun; [done|].
  simpl in Hrun. destruct (gtb e epsilon) eqn:Hgt.
  2:{ injection Hrun as <- <- <- <-. apply evolves_refl. }
  apply gtb_true in Hgt. pose proof epsilon_pos as Heps.
  destruct (pick_target_spec active F h sa Hwf Hsa) as [Hn|(t & Hpick & Ht & Hrt)].
  { rewrite Hn in Hrun. simpl in Hrun. injection Hrun as <- <- <- <-. apply evolves_refl. }
  assert (t ∈ active) as Hta by (by apply Hsa).
  rewrite Hpick in Hrun. simpl in Hrun.
  rewrite (wf_lookup active F h t Hwf Hta) in Hrun. simpl in Hrun.
  rewrite (write_spec active F h t _ Hwf Hta) in Hrun. simpl in Hrun.
  apply IH in Hrun; [|by apply wf_upd|done].
  eapply evolves_trans; [|exact Hrun].
  assert (0 < Qmin (rem h t) e ∧ Qmin (rem h t) e <= rem h t) as [? ?].
  { destruct (Qmin_cases (rem h t) e) as [[? Hm]|[? Hm]]; rewrite Hm; split; lra. }
  apply evolves_upd; auto; lra.
Qed.

(** The snowball pass pays into a debt only when every debt with a
    smaller balance is paid off. *)
Lemma snowball_order fuel : ∀ sa e h p rb e' h' p' rb',
  wf active F h → sa ⊆ active →
  snowball fuel sa e (h, p, rb) = Some (e', (h', p', rb')) →
  ∀ l l', l ∈ sa → l' ∈ sa →
    rem h' l' < rem h l' → rem h l < rem h l' → rem h' l <= epsilon.
Proof.
  induction fuel as [|fuel IH]; intros sa e h p rb e' h' p' rb' Hwf Hsa Hrun; [done|].
  intros l l' Hl Hl' Hpaid Hless.
  pose proof (snowball_evolves _ _ _ _ _ _ _ _ _ _ Hwf Hsa Hrun) as Hev.
  pose proof epsilon_pos as Heps.
  simpl in Hrun. destruct (gtb e epsilon) eqn:Hgt.
  2:{ injection Hrun as <- <- <- <-. lra. }
  apply gtb_true in Hgt.
  destruct (pick_target_spec active F h sa Hwf Hsa) as [Hn|(t & Hpick & Ht & Hrt)].
  { rewrite Hn in Hrun. simpl in Hrun. injection Hrun as <- <- <- <-. lra. }
  assert (t ∈ active) as Hta by (by apply Hsa).
  destruct (Qlt_le_dec epsilon (rem h l)) as [Hbig|Hsmall].
  2:{ pose proof (evolves_le h h' l Hev (Hsa l Hl)). lra. }
  pose proof (pick_target_smallest active F h sa t _ Hwf Hsa Hpick l Hl Hbig) as Hleast.
  rewrite Hpick in Hrun. simpl in Hrun.
  rewrite (wf_lookup active F h t Hwf Hta) in Hrun. simpl in Hrun.
  rewrite (write_spec active F h t _ Hwf Hta) in Hrun. simpl in Hrun.
  set (h1 := upd F h t (rem h t - Qmin (rem h t) e)) in *.
  assert (wf active F h1) as Hwf1 by (by apply wf_upd).
  assert (t ≠ l') as Hne by (intros ->; lra).
  assert (rem h1 l' = rem h l') as Hl1' by (by apply rem_upd_ne).
  destruct (decide (t = l)) as [->|Hnl].
  - assert (rem h1 l = rem h l - Qmin (rem h l) e) as Hl1 by (by apply (rem_upd_eq active)).
    destruct (Qmin_cases (rem h l) e) as [[? Hm]|[? Hm]].
    + pose proof (snowball_evolves _ _ _ _ _ _ _ _ _ _ Hwf1 Hsa Hrun) as Hev1.
      pose proof (evolves_le h1 h' l Hev1 (Hsa l Hl)). rewrite Hl1, Hm in *. lra.
    + apply snowball_stop in Hrun; [|rewrite Hm; lra].
      injection Hrun as _ <- _ _. rewrite Hl1' in Hpaid. lra.
  - assert (rem h1 l = rem h l) as Hl1 by (by apply rem_upd_ne).
    eapply (IH _ _ _ _ _ _ _ _ _ Hwf1 Hsa Hrun l l'); auto; rewrite ?Hl1, ?Hl1'; done.
Qed.

Lemma min_pay_eq l : min_pay F l == Qmax 0 (minPayment (F l)).
Proof. unfold min_pay. apply Qmax_eq; [reflexivity|apply or_zero_eq]. Qed.

(** A month pays more than the minimum into a debt only when every debt
    that is smaller after the minimum payments is paid off. *)
Lemma month_order k h m h' l l' :
  wf active F h → month_passes active totalMonthly k h m h' →
  l ∈ still_active active h → l' ∈ still_active active h →
  rem h' l' < after_minimum (rem h l') (F l') →
  after_minimum (rem h l) (F l) < after_minimum (rem h l') (F l') →
  rem h' l <= epsilon.
Proof.
  intros Hwf (rq & h1 & p1 & rb1 & e2 & p2 & rb2 & _ & Hmin & Hsnow & ->) Hl Hl' Hpaid Hless.
  pose proof (still_active_sub active h) as Hsub.
  destruct (pay_minimums_spec active F (still_active active h) h ∅ ∅ [] Hwf
              (still_active_NoDup active active_NoDup h) Hsub)
    as (h1' & p1' & rb1' & Hmin' & Hwf1 & _ & _ & Hrem & _).
  { intros x Hx. by apply still_active_pos in Hx as [_ ?]. }
  { intros x Hx. by apply elem_of_nil in Hx. }
  rewrite Hmin in Hmin'. injection Hmin' as <- <- <-.
  assert (∀ x, x ∈ still_active active h → rem h1 x == after_minimum (rem h x) (F x))
    as Hafter.
  { intros x Hx. rewrite (Hrem x Hx). unfold after_minimum.
    rewrite (Qmin_eq _ (rem h x) _ (Qmax 0 (minPayment (F x)))); [reflexivity..|].
    apply min_pay_eq. }
  eapply (snowball_order _ _ _ _ _ _ _ _ _ _ Hwf1 Hsub Hsnow l l'); auto.
  - by rewrite (Hafter l' Hl').
  - by rewrite (Hafter l Hl), (Hafter l' Hl').
Qed.

End order.

(** ** Months that follow one another *)

Section pairs.
Variable active : list loc.
Variable F : loc → DebtItem.
Variable totalMonthly : Q.
Hypothesis active_NoDup : NoDup active.

(** Two months that follow one another in a trace, with the heaps they
    are computed on. *)
Lemma trace_pair k h ms h' : 
  trace active F totalMonthly k h ms h' →
  ∀ j m1 m2, ms !! j = Some m1 → ms !! S j = Some m2 →
  ∃ k' h0 h1 h2,
    wf active F h0 ∧ month_post active F totalMonthly k' h0 m1 h1 ∧
    wf active F h1 ∧ month_post active F totalMonthly (S k') h1 m2 h2 ∧
    month_passes active totalMonthly (S k') h1 m2 h2.
Proof.
  induction 1 as [|k h m h' ms h'' Hwf Hne Hpost Hpass Hmore Htrace IH];
    intros j m1 m2 H1 H2; [done|].
  destruct j as [|j]; simplify_eq/=; [|eauto].
  destruct ms as [|m2' ms]; simplify_eq/=.
  inversion Htrace as [|? ? ? h2 ? ? Hwf' Hne' Hpost' Hpass' Hmore' Htrace']; subst.
  exists k, h, h', h2. auto.
Qed.

Lemma month_order_entries k h m h' l l' p' :
  ids_distinct active F → wf active F h →
  month_post active F totalMonthly k h m h' → month_passes active totalMonthly k h m h' →
  l ∈ active → 0 < rem h l → l' ∈ active → 0 < rem h l' →
  payments m !! id (F l') = Some p' →
  Qmin (rem h l') (Qmax 0 (minPayment (F l'))) < p' →
  after_minimum (rem h l) (F l) < after_minimum (rem h l') (F l') →
  ∃ v, remainingById m !! id (F l) = Some v ∧ v <= epsilon.
Proof.
  intros Hinj Hwf Hpost Hpass Hl Hpos Hl' Hpos' Hp' Hmore Hless.
  destruct (month_entries active F totalMonthly active_NoDup k h m h' l Hinj Hwf Hpost Hpass
              Hl Hpos) as [Hv _].
  destruct (month_entries active F totalMonthly active_NoDup k h m h' l' Hinj Hwf Hpost Hpass
              Hl' Hpos') as [_ (p & Hp & Hsum)].
  rewrite Hp' in Hp. injection Hp as <-.
  exists (rem h' l). split; [done|].
  eapply (month_order active F totalMonthly active_NoDup k h m h' l l'); auto.
  - by apply still_active_pos.
  - by apply still_active_pos.
  - unfold after_minimum. lra.
Qed.

(** The balance recorded by a month is the balance on the heap it leaves. *)
Lemma month_entry_rem k h m h' l r :
  ids_distinct active F →
  month_post active F totalMonthly k h m h' →
  l ∈ active → remainingById m !! id (F l) = Some r → rem h' l = r.
Proof.
  intros Hinj Hpost Hl Hr.
  destruct (mp_tracked _ _ _ _ _ _ _ Hpost _ _ Hr) as (x & Hx & Hid & <-).
  f_equal. apply Hinj; auto. by apply (still_active_sub active h).
Qed.

Lemma month_payment_active k h m h' l p :
  ids_distinct active F →
  month_post active F totalMonthly k h m h' →
  l ∈ active → payments m !! id (F l) = Some p → 0 < rem h l.
Proof.
  intros Hinj Hpost Hl Hp.
  assert (id (F l) ∈ ids F (still_active active h)) as (x & Hx & Hid)%elem_of_ids_inv.
  { rewrite <- (mp_dom_payments _ _ _ _ _ _ _ Hpost). apply elem_of_dom. eauto. }
  apply still_active_pos in Hx as [Hx Hpos].
  by rewrite <- (Hinj x l Hx Hl Hid).
Qed.

(** Every open debt gets its minimum payment, or all of its balance
    when that is less. *)
Lemma month_pays_minimum k h m h' l :
  ids_distinct active F → wf active F h →
  month_post active F totalMonthly k h m h' → month_passes active totalMonthly k h m h' →
  l ∈ active → 0 < rem h l →
  ∃ p, payments m !! id (F l) = Some p ∧
       Qmin (rem h l) (Qmax 0 (minPayment (F l))) <= p.
Proof.
  intros Hinj Hwf Hpost Hpass Hl Hpos.
  destruct (month_entries active F totalMonthly active_NoDup k h m h' l Hinj Hwf Hpost Hpass
              Hl Hpos) as [_ (p & Hp & Hsum)].
  exists p. split; [done|].
  destruct Hpass as (rq & h1 & p1 & rb1 & e2 & p2 & rb2 & _ & Hmin & Hsnow & ->).
  pose proof (still_active_sub active h) as Hsub.
  destruct (pay_minimums_spec active F (still_active active h) h ∅ ∅ [] Hwf
              (still_active_NoDup active active_NoDup h) Hsub)
    as (h1' & p1' & rb1' & Hmin' & Hwf1 & _ & _ & Hrem & _).
  { intros x Hx. by apply still_active_pos in Hx as [_ ?]. }
  { intros x Hx. by apply elem_of_nil in Hx. }
  rewrite Hmin in Hmin'. injection Hmin' as <- <- <-.
  pose proof (snowball_evolves active F _ _ _ _ _ _ _ _ _ _ Hwf1 Hsub Hsnow) as Hev.
  pose proof (evolves_le active h1 h' l Hev Hl) as Hle.
  rewrite (Hrem l) in Hle by (by apply still_active_pos).
  rewrite (Qmin_eq _ (rem h l) _ (Qmax 0 (minPayment (F l)))) in Hle;
    [|reflexivity|apply min_pay_eq].
  lra.
Qed.

End pairs.

Lemma working_set_ids_distinct debts :
  NoDup (map id (working_set debts)) →
  ids_distinct (seq (length debts) (length (working_set debts)))
               (item_of (length debts) (working_set debts)).
Proof. intros Hnd l l' Hl Hl'. by apply item_of_inj. Qed.

Lemma trace_head (active : list loc) F totalMonthly k (h : heap) m ms h'' :
  trace active F totalMonthly k h (m :: ms) h'' →
  ∃ h', wf active F h ∧ month_post active F totalMonthly k h m h' ∧
        month_passes active totalMonthly k h m h'.
Proof. inversion 1; subst; eauto. Qed.



(** X4.  With pairwise distinct ids, a month has a [remainingById] entry
    for an id exactly when the month before has an entry above 0 for it:
    a debt that a month pays off in full has no entry in the months that
    follow. *)
Theorem entry_while_owing debts extraPayment maxMonths months j m1 m2 i :
  simulate debts extraPayment maxMonths = Some months →
  NoDup (map id (working_set debts)) →
  months !! j = Some m1 → months !! S j = Some m2 →
  (is_Some (remainingById m2 !! i) ↔ ∃ v1, remainingById m1 !! i = Some v1 ∧ 0 < v1).
Proof.
  intros Hsim Hnd H1 H2.
  destruct (simulate_trace _ _ _ _ Hsim) as (TM & h' & _ & _ & Htrace).
  pose proof (working_set_ids_distinct debts Hnd) as Hinj.
  by destruct (trace_next _ _ _ (NoDup_seq _ _) _ _ _ _ Hinj Htrace j m1 m2 i H1 H2) as [? _].
Qed.

Lemma entry_while_owing_witness :
  simulate two_debts 40 None = Some (schedule_of two_debts 40 None) ∧
  NoDup (map id (working_set two_debts)) ∧
  schedule_of two_debts 40 None !! 0%nat = Some (month_of two_debts 40 None 0) ∧
  schedule_of two_debts 40 None !! 1%nat = Some (month_of two_debts 40 None 1) ∧
  (is_Some (remainingById (month_of two_debts 40 None 1) !! "a") ↔
   ∃ v1, remainingById (month_of two_debts 40 None 0) !! "a" = Some v1 ∧ 0 < v1).
Proof.
  assert (NoDup (map id (working_set two_debts))) as H2
    by (apply (bool_decide_unpack _); vm_compute; exact I).
  assert (simulate two_debts 40 None = Some (schedule_of two_debts 40 None)) as H1
    by (vm_compute; reflexivity).
  assert (schedule_of two_debts 40 None !! 0%nat = Some (month_of two_debts 40 None 0)) as H3
    by (vm_compute; reflexivity).
  assert (schedule_of two_debts 40 None !! 1%nat = Some (month_of two_debts 40 None 1)) as H4
    by (vm_compute; reflexivity).
  split; [exact H1|]. split; [exact H2|]. split; [exact H3|]. split; [exact H4|].
  exact (entry_while_owing two_debts 40 None _ 0 _ _ "a" H1 H2 H3 H4).
Defined.

(** X5.  [maxMonths] only cuts the schedule short: the schedule for the
    cap [n] is the first [n] months of the schedule for any larger cap,
    and of the schedule for the default cap of 600 when [n] is at most
    600. *)
Theorem cap_only_truncates debts extraPayment n j :
  ∃ months,
    simulate debts extraPayment (Some (n + j)%nat) = Some months ∧
    simulate debts extraPayment (Some n) = Some (take n months) ∧
    (n ≤ default_maxMonths →
     ∃ months', simulate debts extraPayment None = Some months' ∧
                simulate debts extraPayment (Some n) = Some (take n months')).
Proof.
  destruct (simulate_take debts extraPayment n j) as (months & Hbig & Hsmall).
  exists months. split; [done|]. split; [done|].
  intros Hn.
  destruct (simulate_take debts extraPayment n (default_maxMonths - n)) as (ms & Hb & Hs).
  exists ms. split; [|done].
  replace (n + (default_maxMonths - n))%nat with default_maxMonths in Hb by lia.
  exact Hb.
Qed.





(** ** How fast the debts are paid *)

Lemma sumQ_elem_le {A} (f : A → Q) (a : list A) x :
  (∀ y, y ∈ a → 0 <= f y) → x ∈ a → f x <= sumQ (map f a).
Proof.
  induction a as [|y a IH]; intros Hnn Hx; [by apply elem_of_nil in Hx|].
  cbn [map sumQ foldr]. fold (sumQ (map f a)).
  assert (0 <= sumQ (map f a)) as Hs.
  { apply sumQ_nonneg, Forall_forall. intros z (w & -> & Hw)%list_elem_of_fmap.
    apply Hnn. by right. }
  pose proof (Hnn y ltac:(left)) as Hy.
  apply elem_of_cons in Hx as [->|Hx]; [lra|].
  specialize (IH (λ z Hz, Hnn z ltac:(by right)) Hx). lra.
Qed.

Section progress.
Variable active : list loc.
Variable F : loc → DebtItem.
Variable totalMonthly : Q.
Hypothesis active_NoDup : NoDup active.

Lemma pick_target_none h sa :
  wf active F h → sa ⊆ active → pick_target h sa = Some None →
  ∀ l, l ∈ sa → rem h l <= epsilon.
Proof.
  intros Hwf Hsa Hpick l Hl. unfold pick_target in Hpick.
  rewrite (with_remaining_spec active F h sa Hwf Hsa) in Hpick. simpl in Hpick.
  injection Hpick as Hhead.
  pose proof (sort_by_remaining_head
                (filter (λ x, gtb x.2 epsilon = true) (map (λ l, (l, rem h l)) sa))) as Hsort.
  rewrite Hhead in Hsort.
  destruct (Qlt_le_dec epsilon (rem h l)) as [Hgt|?]; [|done].
  assert ((l, rem h l) ∈ filter (λ x : loc * Q, gtb x.2 epsilon = true)
                           (map (λ l, (l, rem h l)) sa)) as Hin.
  { apply list_elem_of_filter. split; [by apply gtb_true|].
    apply list_elem_of_fmap. eauto. }
  rewrite Hsort in Hin. by apply elem_of_nil in Hin.
Qed.

(** The snowball pass ends when the extra is used up or every debt is
    paid off. *)
Lemma snowball_exit fuel : ∀ sa e h p rb e' h' p' rb',
  wf active F h → sa ⊆ active →
  snowball fuel sa e (h, p, rb) = Some (e', (h', p', rb')) →
  sum_values p' + e' == sum_values p + e ∧
  (e' <= epsilon ∨ ∀ l, l ∈ sa → rem h' l <= epsilon).
Proof.
  induction fuel as [|fuel IH]; intros sa e h p rb e' h' p' rb' Hwf Hsa Hrun; [done|].
  simpl in Hrun. destruct (gtb e epsilon) eqn:Hgt.
  2:{ injection Hrun as <- <- <- <-. split; [lra|]. left. by apply gtb_false. }
  destruct (pick_target h sa) as [[[t r]|]|] eqn:Hpick; [| |done].
  2:{ simpl in Hrun. injection Hrun as <- <- <- <-. split; [lra|]. right.
      by apply pick_target_none. }
  destruct (pick_target_spec active F h sa Hwf Hsa) as [Hn|(t' & Hpick' & Ht & Hrt)];
    [congruence|].
  rewrite Hpick in Hpick'. injection Hpick' as -> ->.
  assert (t' ∈ active) as Hta by (by apply Hsa).
  simpl in Hrun.
  rewrite (wf_lookup active F h t' Hwf Hta) in Hrun. simpl in Hrun.
  rewrite (write_spec active F h t' _ Hwf Hta) in Hrun. simpl in Hrun.
  apply IH in Hrun as [Hsum Hexit]; [|by apply wf_upd|done].
  split; [|done]. rewrite Hsum, sum_values_add. lra.
Qed.

(** What the two passes of a month do, in numbers. *)
Lemma month_accounts k h m h' :
  wf active F h → month_passes active totalMonthly k h m h' →
  ∃ paid_min unused,
    0 <= paid_min ∧
    totalPaid m + unused
    == paid_min + Qmax 0 (totalMonthly - required_min F (still_active active h)) ∧
    (unused <= epsilon ∨ ∀ l, l ∈ still_active active h → rem h' l <= epsilon) ∧
    totalPaid m + owed active h' == owed active h.
Proof.
  intros Hwf Hpass.
  destruct (month_ledger active F totalMonthly active_NoDup k h m h' Hwf Hpass) as [Htot _].
  destruct Hpass as (rq & h1 & p1 & rb1 & e2 & p2 & rb2 & Hrq & Hmin & Hsnow & ->).
  pose proof (still_active_sub active h) as Hsub.
  destruct (sum_min_payments_spec active F h (still_active active h) 0 Hwf Hsub)
    as (rq' & Hrq' & Hrqv).
  rewrite Hrq in Hrq'. injection Hrq' as <-.
  destruct (pay_minimums_spec active F (still_active active h) h ∅ ∅ [] Hwf
              (still_active_NoDup active active_NoDup h) Hsub)
    as (h1' & p1' & rb1' & Hmin' & Hwf1 & _ & _ & _ & _ & Hnn & _).
  { intros x Hx. by apply still_active_pos in Hx as [_ ?]. }
  { intros x Hx. by apply elem_of_nil in Hx. }
  rewrite Hmin in Hmin'. injection Hmin' as <- <- <-.
  assert (nonneg_values p1) as Hp1.
  { apply Hnn. intros i v. by rewrite lookup_empty. }
  destruct (sum_values_bounds p1 Hp1) as [Hs1 _].
  destruct (snowball_exit _ _ _ _ _ _ _ _ _ _ Hwf1 Hsub Hsnow) as [Hsum Hexit].
  exists (sum_values p1), e2. split; [done|]. split; [|split; [done|done]].
  simpl. rewrite Hsum. unfold required_min.
  assert (Qmax 0 (totalMonthly - rq)
          == Qmax 0 (totalMonthly
                     - sumQ (map (λ l, or_zero (minPayment (F l))) (still_active active h))))
    as ->; [|reflexivity].
  apply Qmax_eq; [reflexivity|]. rewrite Hrqv. lra.
Qed.

(** A month that is followed by another one pays at least its extra,
    less [epsilon]. *)
Lemma month_pays_extra k h m h' :
  wf active F h → month_passes active totalMonthly k h m h' →
  (∃ l, l ∈ still_active active h ∧ epsilon < rem h' l) →
  Qmax 0 (totalMonthly - required_min F (still_active active h)) - epsilon <= totalPaid m.
Proof.
  intros Hwf Hpass (l & Hl & Hgt).
  destruct (month_accounts k h m h' Hwf Hpass) as (pm & e & Hpm & Hsum & [He|Hall] & _).
  - lra.
  - specialize (Hall l Hl). lra.
Qed.

(** A month whose extra covers what is owed pays every debt off. *)
Lemma month_clears k h m h' :
  wf active F h → month_post active F totalMonthly k h m h' →
  month_passes active totalMonthly k h m h' →
  (∀ l, l ∈ active → 0 <= rem h l) →
  owed active h <= Qmax 0 (totalMonthly - required_min F (still_active active h)) →
  ∀ l, l ∈ active → rem h' l <= epsilon.
Proof.
  intros Hwf Hpost Hpass Hnn Hcover l Hl.
  pose proof epsilon_pos as Heps.
  destruct (mp_evolves _ _ _ _ _ _ _ Hpost) as (_ & _ & Hev).
  assert (∀ x, x ∈ active → 0 <= rem h' x) as Hnn'.
  { intros x Hx. destruct (Hev x Hx) as [Hz Hp]. specialize (Hnn x Hx).
    destruct (Qlt_le_dec 0 (rem h x)) as [Hpos|Hle]; [by destruct (Hp Hpos)|].
    by rewrite (Hz Hle). }
  destruct (month_accounts k h m h' Hwf Hpass) as (pm & e & Hpm & Hsum & [He|Hall] & Htot).
  - pose proof (sumQ_elem_le (rem h') active l Hnn' Hl) as Hle.
    fold (owed active h') in Hle. lra.
  - destruct (Qlt_le_dec 0 (rem h l)) as [Hpos|Hle].
    + apply Hall. by apply still_active_pos.
    + destruct (Hev l Hl) as [Hz _]. rewrite (Hz Hle). lra.
Qed.

(** All months but the last pay at least [E - epsilon], when no month
    has an extra below [E]. *)
Lemma trace_progress E k h ms h' :
  trace active F totalMonthly k h ms h' →
  (∀ l, l ∈ active → 0 <= minPayment (F l)) →
  required_min F active + E <= totalMonthly → epsilon <= E →
  (∀ j m, ms !! j = Some m → (S j < length ms)%nat → E - epsilon <= totalPaid m) ∧
  (ms ≠ [] →
   (inject_Z (Z.of_nat (length ms)) - 1) * (E - epsilon) <= sumQ (map totalPaid ms)).
Proof.
  intros Htrace Hmin Hbudget HE.
  induction Htrace as [|k h m h' ms h'' Hwf Hne Hpost Hpass Hmore Htrace IH]; [done|].
  destruct IH as [IH1 IH2].
  assert (ms ≠ [] → E - epsilon <= totalPaid m) as Hm.
  { intros Hms. eapply Qle_trans; [|apply (month_pays_extra k h m h' Hwf Hpass (Hmore Hms))].
    assert (required_min F (still_active active h) <= required_min F active) as Hsub.
    { unfold still_active, required_min. apply sumQ_filter_le.
      intros l Hl. rewrite or_zero_eq. by apply Hmin. }
    destruct (Qmax_cases 0 (totalMonthly - required_min F (still_active active h)))
      as [[? ->]|[? ->]]; lra. }
  assert (0 <= totalPaid m) as Hm0.
  { rewrite (mp_total _ _ _ _ _ _ _ Hpost).
    by destruct (sum_values_bounds _ (mp_nonneg _ _ _ _ _ _ _ Hpost)). }
  split.
  - intros [|j] m' Hj Hlen; simplify_eq/=.
    + apply Hm. intros ->. simpl in Hlen. lia.
    + apply (IH1 j m' Hj). lia.
  - intros _. cbn [map sumQ foldr length]. fold (sumQ (map totalPaid ms)).
    rewrite Nat2Z.inj_succ. unfold Z.succ. rewrite inject_Z_plus.
    set (N := inject_Z (Z.of_nat (length ms))) in *.
    destruct ms as [|m1 ms].
    + unfold N. simpl. change (inject_Z 0) with 0. change (inject_Z 1) with 1.
      assert ((0 + 1 - 1) * (E - epsilon) == 0) as -> by ring. lra.
    + specialize (IH2 ltac:(done)). specialize (Hm ltac:(done)).
      change (inject_Z 1) with 1.
      assert ((N + 1 - 1) * (E - epsilon) == (N - 1) * (E - epsilon) + (E - epsilon)) as ->
        by ring.
      lra.
Qed.

End progress.

Lemma trace_inv (active : list loc) F totalMonthly k (h : heap) m ms h'' :
  trace active F totalMonthly k h (m :: ms) h'' →
  ∃ h', wf active F h ∧ month_post active F totalMonthly k h m h' ∧
        month_passes active totalMonthly k h m h' ∧
        (ms ≠ [] → ∃ l, l ∈ still_active active h ∧ epsilon < rem h' l).
Proof. inversion 1; subst; eauto 6. Qed.

Lemma working_set_required_min debts :
  required_min (item_of (length debts) (working_set debts))
               (seq (length debts) (length (working_set debts)))
  = sumQ (map (λ d, or_zero (minPayment d)) (working_set debts)).
Proof. unfold required_min. by rewrite (map_item_of (λ d, or_zero (minPayment d))). Qed.





(** * Properties of the debt page *)

(** ** The list of debts *)

Lemma foldl_sum {A} (f : A → Q) (a : list A) : ∀ s,
  foldl (λ sum x, sum + f x) s a == s + sumQ (map f a).
Proof.
  induction a as [|x a IH]; intros s; simpl; [lra|].
  rewrite IH. fold (sumQ (map f a)). lra.
Qed.

Lemma reduce_sum_sumQ {A} (f : A → Q) (a : list A) : reduce_sum f a == sumQ (map f a).
Proof. unfold reduce_sum. rewrite foldl_sum. lra. Qed.

Lemma sumQ_filter {A} (P : A → Prop) `{!∀ x, Decision (P x)} (f : A → Q) (a : list A) :
  sumQ (map (λ x, if decide (P x) then f x else 0) a) == sumQ (map f (filter P a)).
Proof.
  induction a as [|x a IH]; [reflexivity|].
  rewrite filter_cons. cbn [map sumQ foldr].
  fold (sumQ (map (λ x, if decide (P x) then f x else 0) a)). rewrite IH.
  destruct (decide (P x)); cbn [map sumQ foldr]; fold (sumQ (map f (filter P a))); lra.
Qed.

Lemma sumQ_working_set (f : DebtItem → Q) debts :
  (∀ d, d ∈ debts → d ∉ working_set debts → f d == 0) →
  sumQ (map f debts) == sumQ (map f (working_set debts)).
Proof.
  intros Hz. unfold working_set. rewrite <- sumQ_filter. apply sumQ_eq.
  intros d Hd. case_decide as Hw; [reflexivity|]. apply Hz; [done|].
  intros [? _]%list_elem_of_filter. done.
Qed.

Lemma insert_by_debt_perm x s : DebtContent.insert_by_debt x s ≡ₚ x :: s.
Proof.
  induction s as [|y s IH]; [done|]. simpl.
  destruct (Qle_bool _ _); [done|]. rewrite IH. apply Permutation_swap.
Qed.

Lemma sort_by_debt_perm a : DebtContent.sort_by_debt a ≡ₚ a.
Proof.
  induction a as [|x a IH]; [done|]. simpl.
  rewrite insert_by_debt_perm. by rewrite IH.
Qed.

Lemma insert_by_debt_sorted x s :
  StronglySorted (λ d d', debtAmount (item d) <= debtAmount (item d')) s →
  StronglySorted (λ d d', debtAmount (item d) <= debtAmount (item d'))
    (DebtContent.insert_by_debt x s).
Proof.
  induction s as [|y s IH]; intros Hs.
  - simpl. repeat constructor.
  - apply StronglySorted_inv in Hs as [Hs Hy]. simpl.
    destruct (Qle_bool _ _) eqn:E.
    + apply Qle_bool_iff in E. constructor; [by constructor|].
      constructor; [done|]. eapply Forall_impl; [exact Hy|].
      intros z Hz. simpl in Hz. lra.
    + assert (debtAmount (item y) <= debtAmount (item x)) as Hyx.
      { apply Qlt_le_weak, Qnot_le_lt. rewrite <- Qle_bool_iff. by rewrite E. }
      constructor; [by apply IH|].
      rewrite insert_by_debt_perm. by constructor.
Qed.

Lemma sort_by_debt_sorted a :
  StronglySorted (λ d d', debtAmount (item d) <= debtAmount (item d'))
    (DebtContent.sort_by_debt a).
Proof.
  induction a as [|x a IH]; [constructor|]. simpl. by apply insert_by_debt_sorted.
Qed.

Lemma elem_of_debts accounts config selectedCurrency d :
  d ∈ DebtContent.debts accounts config selectedCurrency ↔
  ∃ a, a ∈ accounts ∧ Account.type a = "credit" ∧ Account.currency a = selectedCurrency ∧
       d = DebtContent.debt_row config a.
Proof.
  unfold DebtContent.debts. rewrite sort_by_debt_perm.
  rewrite list_elem_of_fmap. unfold DebtContent.creditAccounts.
  split.
  - intros (a & -> & Ha). apply list_elem_of_filter in Ha as [Hc Ha].
    apply list_elem_of_filter in Ha as [Ht Ha]. eauto 6.
  - intros (a & Ha & Ht & Hc & ->). exists a. split; [done|].
    apply list_elem_of_filter. split; [done|]. by apply list_elem_of_filter.
Qed.

(** X10.  The [debts] of the page are the credit accounts of the selected
    currency, one record for each, in the order of increasing
    [debtAmount]; a [debtAmount] is never negative, it is positive
    exactly when the balance of the account is negative, and then it is
    the balance with the sign turned. *)
Theorem debts_sorted_by_amount accounts config selectedCurrency :
  let debts := DebtContent.debts accounts config selectedCurrency in
  debts ≡ₚ map (DebtContent.debt_row config) (shown_accounts accounts selectedCurrency) ∧
  StronglySorted (λ d d', debtAmount (item d) <= debtAmount (item d')) debts ∧
  (∀ d, d ∈ debts → 0 <= debtAmount (item d) ∧
                     (0 < debtAmount (item d) ↔ balance d < 0) ∧
                     (0 < debtAmount (item d) → debtAmount (item d) == - balance d)).
Proof.
  intros debts. split; [apply sort_by_debt_perm|].
  split; [apply sort_by_debt_sorted|].
  intros d (a & _ & _ & _ & ->)%elem_of_debts. simpl.
  destruct (Qmax_cases 0 (- Account.balance a)) as [[? ->]|[? ->]]; repeat split; intros; lra.
Qed.

(** ** The card "Debt-Free In" *)

Lemma hasDebt_true accounts config selectedCurrency :
  DebtContent.hasDebt accounts config selectedCurrency = true ↔
  working_set (map item (DebtContent.debts accounts config selectedCurrency)) ≠ [].
Proof.
  unfold DebtContent.hasDebt. rewrite existsb_exists. split.
  - intros (d & Hd%list_elem_of_In & Hgt) Hnil.
    assert (item d ∈ working_set (map item (DebtContent.debts accounts config selectedCurrency)))
      as Hin.
    { apply list_elem_of_filter. split; [done|]. apply list_elem_of_fmap. eauto. }
    rewrite Hnil in Hin. by apply elem_of_nil in Hin.
  - intros Hne. destruct (working_set _) as [|x ws] eqn:E; [done|].
    assert (x ∈ x :: ws) as Hin by left. rewrite <- E in Hin.
    apply list_elem_of_filter in Hin as [Hx (d & -> & Hd)%list_elem_of_fmap].
    exists d. split; [by apply list_elem_of_In|done].
Qed.

Lemma working_set_rows accounts config selectedCurrency :
  working_set (map item (DebtContent.debts accounts config selectedCurrency)) = [] ↔
  ∀ a, a ∈ shown_accounts accounts selectedCurrency → 0 <= Account.balance a.
Proof.
  split.
  - intros Hnil a Ha. destruct (Qlt_le_dec (Account.balance a) 0) as [Hneg|?]; [|done].
    assert (item (DebtContent.debt_row config a)
            ∈ working_set (map item (DebtContent.debts accounts config selectedCurrency)))
      as Hin.
    { apply elem_of_working_set. split.
      - apply list_elem_of_fmap. eexists. split; [done|]. apply elem_of_debts.
        apply list_elem_of_filter in Ha as [Hc Ha]. apply list_elem_of_filter in Ha as [Ht Ha].
        eauto 6.
      - simpl. destruct (Qmax_cases 0 (- Account.balance a)) as [[? ->]|[? ->]]; lra. }
    rewrite Hnil in Hin. by apply elem_of_nil in Hin.
  - intros Hall. destruct (working_set _) as [|x ws] eqn:E; [done|].
    assert (x ∈ x :: ws) as Hin by left. rewrite <- E in Hin.
    apply elem_of_working_set in Hin as [(d & -> & Hd)%list_elem_of_fmap Hpos].
    apply elem_of_debts in Hd as (a & Ha & Ht & Hc & ->). simpl in Hpos.
    assert (0 <= Account.balance a) as Hb.
    { apply Hall. apply list_elem_of_filter. split; [done|]. by apply list_elem_of_filter. }
    destruct (Qmax_cases 0 (- Account.balance a)) as [[? Hm]|[? Hm]]; rewrite Hm in Hpos; lra.
Qed.

(** X11.  The card "Debt-Free In" never shows "Set min payments": it
    shows the dash exactly when no credit account of the selected
    currency has a negative balance, and a number of months between 1 and
    600 otherwise. *)
Theorem debt_free_in_text accounts config selectedCurrency :
  ∃ text,
    DebtContent.debtFreeIn accounts config selectedCurrency = Some text ∧
    text ≠ DebtContent.SetMinPayments ∧
    (text = DebtContent.Dash ↔
       ∀ a, a ∈ shown_accounts accounts selectedCurrency → 0 <= Account.balance a) ∧
    (∀ n, text = DebtContent.Months n → (1 ≤ n ≤ default_maxMonths)%nat).
Proof.
  unfold DebtContent.debtFreeIn, DebtContent.monthsToDebtFree, DebtContent.snowball.
  set (debts := map item (DebtContent.debts accounts config selectedCurrency)).
  set (extra := DebtContent.extraPayment config selectedCurrency).
  destruct (simulate_run debts extra None) as (TM & h' & ms & Hms & _ & Hrun).
  apply run_length in Hrun as [Hlen _]. rewrite Hms.
  cbn [fmap option_fmap option_map mbind option_bind].
  pose proof (working_set_rows accounts config selectedCurrency) as Hrows. fold debts in Hrows.
  destruct (DebtContent.hasDebt accounts config selectedCurrency) eqn:Hd.
  - apply hasDebt_true in Hd. fold debts in Hd.
    assert (0 < default default_maxMonths None)%nat as Hcap
      by (simpl; unfold default_maxMonths; lia).
    pose proof (simulate_some_month debts extra None ms Hd Hcap Hms) as Hne.
    destruct ms as [|m ms]; [done|]. eexists. split; [done|]. split; [done|].
    split; [split; [done|by intros Hnil%Hrows]|].
    intros n [= <-]. simpl in *. lia.
  - eexists. split; [done|]. split; [done|]. split; [|done].
    split; [|done]. intros _. apply Hrows.
    destruct (decide (working_set debts = [])) as [?|Hne]; [done|].
    apply hasDebt_true in Hne. congruence.
Qed.

Lemma sumQ_pos {A} (f : A → Q) (a : list A) :
  (∀ x, x ∈ a → 0 <= f x) → 0 < sumQ (map f a) ↔ ∃ x, x ∈ a ∧ 0 < f x.
Proof.
  induction a as [|y a IH]; intros Hnn.
  - simpl. split; [lra|]. intros (x & Hx & _). by apply elem_of_nil in Hx.
  - cbn [map sumQ foldr]. fold (sumQ (map f a)).
    assert (∀ x, x ∈ a → 0 <= f x) as Hnn' by (intros x Hx; apply Hnn; by right).
    assert (0 <= sumQ (map f a)) as Hs.
    { apply sumQ_nonneg, Forall_forall. intros z (w & -> & Hw)%list_elem_of_fmap. auto. }
    pose proof (Hnn y ltac:(left)) as Hy. specialize (IH Hnn'). split.
    + intros Hpos. destruct (Qlt_le_dec 0 (f y)) as [?|Hle].
      * exists y. split; [left|done].
      * destruct IH as [(x & Hx & Hfx) _]; [lra|]. exists x. split; [by right|done].
    + intros (x & [->|Hx]%elem_of_cons & Hfx); [lra|].
      destruct IH as [_ IH]. specialize (IH ltac:(eauto)). lra.
Qed.

(** X12.  The card "Total Debt" is never negative; it is above 0 exactly
    when [hasDebt] holds; and it is the debt of the working set that
    [runSnowball] builds from the [debts] of the page. *)
Theorem total_debt_card accounts config selectedCurrency :
  let totalDebt :=
    DebtContent.totalDebt (DebtContent.totals accounts config selectedCurrency) in
  0 <= totalDebt ∧
  (DebtContent.hasDebt accounts config selectedCurrency = true ↔ 0 < totalDebt) ∧
  totalDebt
  == sumQ (map debtAmount
             (working_set (map item (DebtContent.debts accounts config selectedCurrency)))).
Proof.
  intros totalDebt. unfold totalDebt, DebtContent.totals. cbn [DebtContent.totalDebt].
  rewrite reduce_sum_sumQ.
  set (rows := DebtContent.debts accounts config selectedCurrency).
  assert (∀ d, d ∈ rows → 0 <= debtAmount (item d)) as Hnn.
  { intros d (a & _ & _ & _ & ->)%elem_of_debts. simpl.
    destruct (Qmax_cases 0 (- Account.balance a)) as [[? ->]|[? ->]]; lra. }
  split; [|split].
  - apply sumQ_nonneg, Forall_forall. intros x (d & -> & Hd)%list_elem_of_fmap. auto.
  - rewrite (sumQ_pos _ rows Hnn). unfold DebtContent.hasDebt. fold rows.
    rewrite existsb_exists. split.
    + intros (d & Hd%list_elem_of_In & Hgt%gtb_true). eauto.
    + intros (d & Hd & Hgt). exists d. split; [by apply list_elem_of_In|by apply gtb_true].
  - rewrite <- (map_map item debtAmount). apply sumQ_working_set.
    intros d (r & -> & Hr)%list_elem_of_fmap Hnot. specialize (Hnn r Hr).
    destruct (Qlt_le_dec 0 (debtAmount (item r))) as [Hpos|?]; [|lra].
    exfalso. apply Hnot. apply elem_of_working_set. split; [|done].
    apply list_elem_of_fmap. eauto.
Qed.

(** ** The budget and the settings *)

Lemma simulate_within_budget debts extraPayment maxMonths months m :
  simulate debts extraPayment maxMonths = Some months →
  (∀ d, d ∈ working_set debts → 0 <= minPayment d) → 0 <= extraPayment →
  m ∈ months →
  totalPaid m <= sumQ (map minPayment (working_set debts)) + extraPayment.
Proof.
  intros Hsim Hmin Hextra Hm.
  destruct (simulate_inv _ _ _ _ Hsim) as (TM & h' & HTM & Hrun).
  rewrite sumQ_or_zero in HTM. rewrite <- HTM.
  revert m Hm. eapply run_months; [|exact Hrun].
  intros k h m h1 Hpost. eapply month_budget; [| |exact Hpost].
  - intros l Hl. apply Hmin. by apply item_of_elem.
  - unfold required_min. rewrite (map_item_of (λ d, or_zero (minPayment d))).
    rewrite sumQ_or_zero. lra.
Qed.

Lemma schedule_keys debts extraPayment maxMonths months m i :
  simulate debts extraPayment maxMonths = Some months → m ∈ months →
  i ∈ dom (payments m) ∨ i ∈ dom (remainingById m) →
  ∃ d, d ∈ working_set debts ∧ id d = i.
Proof.
  intros Hsim Hm.
  destruct (simulate_inv _ _ _ _ Hsim) as (TM & h' & HTM & Hrun).
  revert i.
  apply (run_months _ _ _
           (λ m, ∀ i, i ∈ dom (payments m) ∨ i ∈ dom (remainingById m) →
                      ∃ d, d ∈ working_set debts ∧ id d = i)
           _ _ _ _ _) with (m := m) (2 := Hrun); [|done].
  clear m Hm. intros k h m h1 Hpost i Hi.
  rewrite (mp_dom_payments _ _ _ _ _ _ _ Hpost), (mp_dom_remaining _ _ _ _ _ _ _ Hpost) in Hi.
  assert (i ∈ ids (item_of (length debts) (working_set debts))
              (still_active (seq (length debts) (length (working_set debts))) h))
    as (l & Hl & <-)%elem_of_ids_inv by tauto.
  apply still_active_sub, item_of_elem in Hl. eauto.
Qed.

Lemma total_min_working_set (rows : list DebtRow) :
  sumQ (map (λ d, if gtb (debtAmount (item d)) 0 then minPayment (item d) else 0) rows)
  == sumQ (map minPayment (working_set (map item rows))).
Proof.
  unfold working_set. induction rows as [|d rows IH]; [reflexivity|].
  cbn [map sumQ foldr]. rewrite filter_cons.
  fold (sumQ (map (λ d, if gtb (debtAmount (item d)) 0 then minPayment (item d) else 0) rows)).
  rewrite IH. case_decide as Hd; unfold has_debt in Hd.
  - rewrite Hd. cbn [map sumQ foldr]. reflexivity.
  - apply not_true_is_false in Hd. rewrite Hd. lra.
Qed.

Lemma config_nonneg_row config a :
  config_nonneg config → 0 <= minPayment (item (DebtContent.debt_row config a)).
Proof.
  intros [_ Hmin]. simpl. destruct (minPaymentsByAccountId config !! Account.id a) as [v|] eqn:E.
  - simpl. by apply (Hmin _ _ E).
  - simpl. lra.
Qed.

Lemma config_nonneg_extra config selectedCurrency :
  config_nonneg config → 0 <= DebtContent.extraPayment config selectedCurrency.
Proof.
  intros [Hb _]. unfold DebtContent.extraPayment.
  destruct (currencyBudgets config !! selectedCurrency) as [v|] eqn:E.
  - simpl. by apply (Hb _ _ E).
  - simpl. lra.
Qed.


Lemma card_config_nonneg : config_nonneg card_config.
Proof.
  split; intros i v Hv; cbn [card_config currencyBudgets minPaymentsByAccountId] in Hv;
    repeat (apply lookup_insert_Some in Hv as [[_ <-]|[_ Hv]]);
    try (by rewrite lookup_empty in Hv); apply Qle_bool_iff; reflexivity.
Qed.


(** X14.  [setMinPayment] and [setExtraPayment] store
    [Math.max(0, value)]: settings without a negative number stay so; the
    extra payment read back for the selected currency is the clamped
    value; and in the debts built from the new settings the account has
    the clamped minimum payment, while any other account keeps its
    own. *)
Theorem setters_keep_settings_nonneg config selectedCurrency accountId value :
  config_nonneg config →
  config_nonneg (DebtContent.setMinPayment config accountId value) ∧
  config_nonneg (DebtContent.setExtraPayment config selectedCurrency value) ∧
  DebtContent.extraPayment (DebtContent.setExtraPayment config selectedCurrency value)
    selectedCurrency = Qmax 0 value ∧
  ∀ a,
    minPayment (item (DebtContent.debt_row
                        (DebtContent.setMinPayment config accountId value) a))
    = if decide (Account.id a = accountId) then Qmax 0 value
      else minPayment (item (DebtContent.debt_row config a)).
Proof.
  intros [Hb Hmin].
  assert (0 <= Qmax 0 value) as Hv by (destruct (Qmax_cases 0 value) as [[? ->]|[? ->]]; lra).
  split; [|split; [|split]].
  - split; [done|]. intros i v Hi. simpl in Hi.
    apply lookup_insert_Some in Hi as [[_ <-]|[_ Hi]]; eauto.
  - split; [|done]. intros i v Hi. simpl in Hi.
    apply lookup_insert_Some in Hi as [[_ <-]|[_ Hi]]; eauto.
  - unfold DebtContent.extraPayment, DebtContent.setExtraPayment. simpl.
    by rewrite lookup_insert_eq.
  - intros a. simpl. case_decide as Hid.
    + by rewrite Hid, lookup_insert_eq.
    + by rewrite lookup_insert_ne.
Qed.

Lemma defaultConfig_nonneg : config_nonneg defaultConfig.
Proof.
  split; intros i v Hv; cbn [defaultConfig currencyBudgets minPaymentsByAccountId] in Hv;
    repeat (apply lookup_insert_Some in Hv as [[_ <-]|[_ Hv]]);
    try (by rewrite lookup_empty in Hv); apply Qle_bool_iff; reflexivity.
Qed.

Lemma setters_keep_settings_nonneg_witness :
  config_nonneg defaultConfig ∧
  config_nonneg (DebtContent.setMinPayment defaultConfig "a" (-5)) ∧
  config_nonneg (DebtContent.setExtraPayment defaultConfig "MXN" (-5)) ∧
  DebtContent.extraPayment (DebtContent.setExtraPayment defaultConfig "MXN" (-5)) "MXN"
  = Qmax 0 (-5) ∧
  ∀ a,
    minPayment (item (DebtContent.debt_row (DebtContent.setMinPayment defaultConfig "a" (-5)) a))
    = if decide (Account.id a = "a") then Qmax 0 (-5)
      else minPayment (item (DebtContent.debt_row defaultConfig a)).
Proof.
  pose proof defaultConfig_nonneg as H1.
  split; [exact H1|].
  exact (setters_keep_settings_nonneg defaultConfig "MXN" "a" (-5) H1).
Defined.

(** X15.  When the ids of the accounts that the page shows are pairwise
    distinct, an account that owes nothing (its balance is at least 0)
    has no entry in the [payments] or the [remainingById] of any
    month. *)
Theorem settled_accounts_not_in_schedule accounts config selectedCurrency months m a :
  NoDup (map Account.id (shown_accounts accounts selectedCurrency)) →
  DebtContent.snowball accounts config selectedCurrency = Some months →
  m ∈ months →
  a ∈ shown_accounts accounts selectedCurrency → 0 <= Account.balance a →
  payments m !! Account.id a = None ∧ remainingById m !! Account.id a = None.
Proof.
  intros Hnd Hsim Hm Ha Hb.
  assert (∀ i, i ∈ dom (payments m) ∨ i ∈ dom (remainingById m) → i ≠ Account.id a)
    as Hne.
  { intros i Hi Heq.
    destruct (schedule_keys _ _ _ _ _ _ Hsim Hm Hi)
      as (d & [(r & -> & Hr)%list_elem_of_fmap Hpos]%elem_of_working_set & Hid).
    apply elem_of_debts in Hr as (a' & Ha' & Ht & Hc & ->). simpl in Hpos, Hid.
    assert (a' ∈ shown_accounts accounts selectedCurrency) as Hs.
    { apply list_elem_of_filter. split; [done|]. by apply list_elem_of_filter. }
    assert (a' = a) as -> by (eapply NoDup_fmap_inj; eauto; congruence).
    destruct (Qmax_cases 0 (- Account.balance a)) as [[? Hmx]|[? Hmx]];
      rewrite Hmx in Hpos; lra. }
  split; apply not_elem_of_dom; intros Hin; eapply Hne; eauto.
Qed.

Lemma settled_accounts_not_in_schedule_witness :
  NoDup (map Account.id (shown_accounts cards "MXN")) ∧
  DebtContent.snowball cards card_config "MXN" = Some (schedule_of two_debts 40 None) ∧
  month_of two_debts 40 None 0 ∈ schedule_of two_debts 40 None ∧
  card_c ∈ shown_accounts cards "MXN" ∧ 0 <= Account.balance card_c ∧
  payments (month_of two_debts 40 None 0) !! Account.id card_c = None ∧
  remainingById (month_of two_debts 40 None 0) !! Account.id card_c = None.
Proof.
  assert (NoDup (map Account.id (shown_accounts cards "MXN"))) as H1
    by (apply (bool_decide_unpack _); vm_compute; exact I).
  assert (card_c ∈ shown_accounts cards "MXN") as H4 by (vm_compute; right; left).
  assert (0 <= Account.balance card_c) as H5 by (apply Qle_bool_iff; reflexivity).
  assert (DebtContent.snowball cards card_config "MXN" = Some (schedule_of two_debts 40 None))
    as H2 by (vm_compute; reflexivity).
  assert (month_of two_debts 40 None 0 ∈ schedule_of two_debts 40 None) as H3
    by (apply (list_elem_of_lookup_2 _ 0%nat); vm_compute; reflexivity).
  split; [exact H1|]. split; [exact H2|]. split; [exact H3|]. split; [exact H4|].
  split; [exact H5|].
  exact (settled_accounts_not_in_schedule cards card_config "MXN" _ _ card_c H1 H2 H3 H4 H5).
Defined.

(** ** The column "Remaining Debt" *)

Lemma sumQ_combine {A} (u f g k : A → Q) (a : list A) :
  (∀ x, x ∈ a → u x == f x - g x + k x) →
  sumQ (map u a) == sumQ (map f a) - sumQ (map g a) + sumQ (map k a).
Proof.
  induction a as [|x a IH]; intros Hx; [simpl; lra|].
  cbn [map sumQ foldr].
  fold (sumQ (map u a)) (sumQ (map f a)) (sumQ (map g a)) (sumQ (map k a)).
  rewrite IH by (intros y Hy; apply Hx; by right). rewrite (Hx x) by left. lra.
Qed.

Lemma sumQ_minus {A} (u f g : A → Q) (a : list A) :
  (∀ x, x ∈ a → u x == f x - g x) →
  sumQ (map u a) == sumQ (map f a) - sumQ (map g a).
Proof.
  intros Hx. rewrite (sumQ_combine u f g (λ _, 0)).
  - rewrite (sumQ_zero (λ _, 0)) by reflexivity. lra.
  - intros x Hin. rewrite (Hx x Hin). lra.
Qed.

Lemma working_set_NoDup debts :
  NoDup (map id debts) → NoDup (map id (working_set debts)).
Proof.
  unfold working_set. induction debts as [|d debts IH]; [done|].
  cbn [map]. intros [Hd Hnd]%NoDup_cons. rewrite filter_cons. case_decide; [|auto].
  cbn [map]. apply NoDup_cons. split; [|auto].
  intros (d' & Hid & Hd')%list_elem_of_fmap. apply Hd.
  apply list_elem_of_fmap. exists d'. split; [done|].
  by apply list_elem_of_filter in Hd' as [_ ?].
Qed.

Lemma trace_months (active : list loc) F totalMonthly k (h : heap) ms h' m :
  trace active F totalMonthly k h ms h' → m ∈ ms →
  ∃ k0 h0 h1, wf active F h0 ∧ month_post active F totalMonthly k0 h0 m h1 ∧
              month_passes active totalMonthly k0 h0 m h1.
Proof.
  induction 1 as [|k h m0 h' ms h'' Hwf Hne Hpost Hpass Hmore Htrace IH]; intros Hm.
  - by apply elem_of_nil in Hm.
  - apply elem_of_cons in Hm as [->|Hm]; eauto 7.
Qed.

Section column.
Variable active : list loc.
Variable F : loc → DebtItem.
Variable totalMonthly : Q.
Hypothesis active_NoDup : NoDup active.
Hypothesis ids_inj : ids_distinct active F.

Lemma month_paid_sum k h m h' :
  wf active F h → month_passes active totalMonthly k h m h' →
  sumQ (map (λ l, prop_or_zero (payments m) (id (F l))) active) == totalPaid m.
Proof.
  intros Hwf Hpass.
  destruct (month_ledger active F totalMonthly active_NoDup k h m h' Hwf Hpass) as [Htot Hid].
  rewrite (sumQ_minus _ (rem h) (rem h')).
  - fold (owed active h) (owed active h'). lra.
  - intros l Hl. specialize (Hid ids_inj l Hl). lra.
Qed.

(** The entry of a debt that is active at the start of the month. *)
Lemma month_entry k h m h' l :
  month_post active F totalMonthly k h m h' → l ∈ active → 0 < rem h l →
  remainingById m !! id (F l) = Some (rem h' l).
Proof.
  intros Hpost Hl Hpos.
  assert (l ∈ still_active active h) as Hsa by (by apply still_active_pos).
  pose proof (elem_of_ids F _ l Hsa) as Hid.
  rewrite <- (mp_dom_remaining _ _ _ _ _ _ _ Hpost) in Hid.
  apply elem_of_dom in Hid as [v Hv]. rewrite Hv.
  destruct (mp_tracked _ _ _ _ _ _ _ Hpost _ _ Hv) as (l' & Hl' & Hid' & <-).
  f_equal. f_equal. apply ids_inj; auto. by apply (still_active_sub active h).
Qed.

(** A debt that is paid off at the start of the month has no entry. *)
Lemma month_no_entry k h m h' l :
  month_post active F totalMonthly k h m h' → l ∈ active → rem h l <= 0 →
  remainingById m !! id (F l) = None ∧ payments m !! id (F l) = None.
Proof.
  intros Hpost Hl Hle.
  assert (id (F l) ∉ ids F (still_active active h)) as Hnot.
  { intros (x & Hx & Hid)%elem_of_ids_inv. apply still_active_pos in Hx as [Hx Hpos].
    rewrite (ids_inj x l Hx Hl Hid) in Hpos. lra. }
  split; apply not_elem_of_dom.
  - by rewrite (mp_dom_remaining _ _ _ _ _ _ _ Hpost).
  - by rewrite (mp_dom_payments _ _ _ _ _ _ _ Hpost).
Qed.

Lemma month_shown_first k h m h' l :
  wf active F h → month_post active F totalMonthly k h m h' →
  month_passes active totalMonthly k h m h' →
  l ∈ active → 0 < rem h l →
  default (rem h l) (remainingById m !! id (F l))
  == rem h l - prop_or_zero (payments m) (id (F l)).
Proof.
  intros Hwf Hpost Hpass Hl Hpos.
  rewrite (month_entry k h m h' l Hpost Hl Hpos). simpl.
  destruct (month_ledger active F totalMonthly active_NoDup k h m h' Hwf Hpass) as [_ Hid].
  specialize (Hid ids_inj l Hl). lra.
Qed.

Lemma month_shown_next k h0 m1 h1 m2 h2 l D :
  wf active F h0 → month_post active F totalMonthly k h0 m1 h1 →
  wf active F h1 → month_post active F totalMonthly (S k) h1 m2 h2 →
  month_passes active totalMonthly (S k) h1 m2 h2 →
  l ∈ active →
  default D (remainingById m2 !! id (F l))
  == default D (remainingById m1 !! id (F l))
     - prop_or_zero (payments m2) (id (F l))
     + (if match remainingById m1 !! id (F l) with
           | Some v => Qle_bool v 0
           | None => false
           end
        then D else 0).
Proof.
  intros Hwf0 Hpost1 Hwf1 Hpost2 Hpass2 Hl.
  destruct (month_ledger active F totalMonthly active_NoDup (S k) h1 m2 h2 Hwf1 Hpass2)
    as [_ Hid]. specialize (Hid ids_inj l Hl).
  destruct (mp_evolves _ _ _ _ _ _ _ Hpost1) as (_ & _ & Hev).
  destruct (Hev l Hl) as [Hz Hp].
  destruct (Qlt_le_dec 0 (rem h1 l)) as [Hpos1|Hle1].
  - assert (0 < rem h0 l) as Hpos0.
    { destruct (Qlt_le_dec 0 (rem h0 l)) as [?|Hle]; [done|]. rewrite (Hz Hle) in Hpos1. lra. }
    rewrite (month_entry _ _ _ _ _ Hpost1 Hl Hpos0), (month_entry _ _ _ _ _ Hpost2 Hl Hpos1).
    simpl. assert (Qle_bool (rem h1 l) 0 = false) as ->.
    { apply not_true_is_false. rewrite Qle_bool_iff. lra. }
    lra.
  - destruct (month_no_entry _ _ _ _ _ Hpost2 Hl Hle1) as [-> Hp2].
    unfold prop_or_zero at 1. rewrite Hp2. simpl.
    destruct (Qlt_le_dec 0 (rem h0 l)) as [Hpos0|Hle0].
    + rewrite (month_entry _ _ _ _ _ Hpost1 Hl Hpos0). simpl.
      destruct (Hp Hpos0) as [Hge _].
      assert (Qle_bool (rem h1 l) 0 = true) as -> by (by apply Qle_bool_iff).
      lra.
    + destruct (month_no_entry _ _ _ _ _ Hpost1 Hl Hle0) as [-> _]. simpl. lra.
Qed.

End column.

Lemma outside_working_set debts extraPayment maxMonths months m d :
  simulate debts extraPayment maxMonths = Some months → NoDup (map id debts) →
  m ∈ months → d ∈ debts → has_debt d = false →
  remainingById m !! id d = None ∧ payments m !! id d = None.
Proof.
  intros Hsim Hnd Hm Hd Hno.
  assert (∀ i, i ∈ dom (payments m) ∨ i ∈ dom (remainingById m) → i ≠ id d) as Hne.
  { intros i Hi Heq.
    destruct (schedule_keys _ _ _ _ _ _ Hsim Hm Hi) as (d' & Hd' & Hid).
    pose proof Hd' as [Hhas Hin]%list_elem_of_filter.
    assert (d' = d) as -> by (eapply NoDup_fmap_inj; eauto; congruence).
    congruence. }
  split; apply not_elem_of_dom; intros Hin; eapply Hne; eauto.
Qed.

Lemma in_working_set debts d :
  d ∈ debts → has_debt d = true →
  ∃ l, l ∈ seq (length debts) (length (working_set debts)) ∧
       item_of (length debts) (working_set debts) l = d.
Proof.
  intros Hd Hhas. apply elem_of_item_of. by apply list_elem_of_filter.
Qed.

Lemma schedule_paid_sum debts extraPayment maxMonths months m :
  simulate debts extraPayment maxMonths = Some months → NoDup (map id debts) →
  m ∈ months →
  sumQ (map (λ d, prop_or_zero (payments m) (id d)) debts) == totalPaid m.
Proof.
  intros Hsim Hnd Hm.
  destruct (simulate_trace _ _ _ _ Hsim) as (TM & h' & _ & _ & Htrace).
  destruct (trace_months _ _ _ _ _ _ _ _ Htrace Hm) as (k0 & h0 & h1 & Hwf & Hpost & Hpass).
  rewrite sumQ_working_set.
  - rewrite <- (map_item_of (λ d, prop_or_zero (payments m) (id d)) (length debts)).
    eapply month_paid_sum; eauto using NoDup_seq.
    apply working_set_ids_distinct. by apply working_set_NoDup.
  - intros d Hd Hnot. destruct (has_debt d) eqn:Hhas.
    + exfalso. apply Hnot. by apply list_elem_of_filter.
    + destruct (outside_working_set _ _ _ _ _ _ Hsim Hnd Hm Hd Hhas) as [_ Hp].
      unfold prop_or_zero. by rewrite Hp.
Qed.

Lemma shown_remaining_first debts extraPayment maxMonths m months :
  simulate debts extraPayment maxMonths = Some (m :: months) → NoDup (map id debts) →
  sumQ (map (shown_remaining m) debts) == sumQ (map debtAmount debts) - totalPaid m.
Proof.
  intros Hsim Hnd.
  rewrite <- (schedule_paid_sum _ _ _ _ m Hsim Hnd) by left.
  apply sumQ_minus. intros d Hd. unfold shown_remaining.
  destruct (has_debt d) eqn:Hhas.
  - destruct (in_working_set debts d Hd Hhas) as (l & Hl & <-).
    destruct (simulate_trace _ _ _ _ Hsim) as (TM & h' & _ & _ & Htrace).
    destruct (trace_head _ _ _ _ _ _ _ _ Htrace) as (h1 & Hwf & Hpost & Hpass).
    rewrite <- (working_set_rem debts l Hl).
    eapply month_shown_first; eauto using NoDup_seq.
    + apply working_set_ids_distinct. by apply working_set_NoDup.
    + by apply working_set_pos.
  - destruct (outside_working_set _ _ _ _ m d Hsim Hnd) as [-> Hp]; [left|done..|].
    unfold prop_or_zero. rewrite Hp. simpl. lra.
Qed.

Lemma shown_remaining_next debts extraPayment maxMonths months j m1 m2 :
  simulate debts extraPayment maxMonths = Some months → NoDup (map id debts) →
  months !! j = Some m1 → months !! S j = Some m2 →
  sumQ (map (shown_remaining m2) debts)
  == sumQ (map (shown_remaining m1) debts) - totalPaid m2
     + sumQ (map (λ d, if paid_off m1 d then debtAmount d else 0) debts).
Proof.
  intros Hsim Hnd H1 H2.
  pose proof (list_elem_of_lookup_2 _ _ _ H1) as Hm1.
  pose proof (list_elem_of_lookup_2 _ _ _ H2) as Hm2.
  rewrite <- (schedule_paid_sum _ _ _ _ m2 Hsim Hnd Hm2).
  apply sumQ_combine. intros d Hd. unfold shown_remaining, paid_off.
  destruct (has_debt d) eqn:Hhas.
  - destruct (in_working_set debts d Hd Hhas) as (l & Hl & <-).
    destruct (simulate_trace _ _ _ _ Hsim) as (TM & h' & _ & _ & Htrace).
    destruct (trace_pair _ _ _ _ _ _ _ Htrace j m1 m2 H1 H2)
      as (k' & h0 & h1 & h2 & Hwf0 & Hpost1 & Hwf1 & Hpost2 & Hpass2).
    pose proof (working_set_ids_distinct debts (working_set_NoDup debts Hnd)) as Hinj.
    exact (month_shown_next _ _ _ (NoDup_seq _ _) Hinj _ _ _ _ _ _ _ _
             Hwf0 Hpost1 Hwf1 Hpost2 Hpass2 Hl).
  - destruct (outside_working_set _ _ _ _ m1 d Hsim Hnd Hm1 Hd Hhas) as [-> _].
    destruct (outside_working_set _ _ _ _ m2 d Hsim Hnd Hm2 Hd Hhas) as [-> Hp].
    unfold prop_or_zero. rewrite Hp. simpl. lra.
Qed.

Lemma debts_ids_NoDup accounts config selectedCurrency :
  NoDup (map Account.id (shown_accounts accounts selectedCurrency)) →
  NoDup (map id (map item (DebtContent.debts accounts config selectedCurrency))).
Proof.
  intros Hnd. unfold DebtContent.debts. fold (shown_accounts accounts selectedCurrency).
  rewrite sort_by_debt_perm. by rewrite !map_map.
Qed.



(** X17.  The table "Payoff Schedule" has at most 24 rows, numbered from
    1; they are the rows of the schedule that [runSnowball] returns for
    the same debts and extra payment with [maxMonths] 24. *)
Theorem payoff_table_rows accounts config selectedCurrency :
  ∃ rows months,
    DebtContent.payoffRows accounts config selectedCurrency = Some rows ∧
    (length rows ≤ 24)%nat ∧
    map (λ r, r.1.1) rows = seq 1 (length rows) ∧
    simulate (map item (DebtContent.debts accounts config selectedCurrency))
             (DebtContent.extraPayment config selectedCurrency) (Some 24%nat)
    = Some months ∧
    rows = map (λ m, (monthIndex m, totalPaid m,
                      DebtContent.remainingDebt accounts config selectedCurrency m))
               months.
Proof.
  unfold DebtContent.payoffRows, DebtContent.snowball.
  set (debts := map item (DebtContent.debts accounts config selectedCurrency)).
  set (extra := DebtContent.extraPayment config selectedCurrency).
  destruct (simulate_take debts extra 24 (default_maxMonths - 24)) as (all & Hall & Hcut).
  assert (simulate debts extra None = Some all) as -> by exact Hall.
  destruct (simulate_inv _ _ _ _ Hcut) as (TM & h' & _ & Hrun).
  apply run_length in Hrun as [Hlen Hidx]. cbn [default from_option Datatypes.id] in Hlen.
  eexists _, (take 24 all). cbn [mbind option_bind].
  split; [reflexivity|]. rewrite length_map. split; [exact Hlen|].
  split; [|by split]. by rewrite map_map.
Qed.

(** * Properties of the installments *)

(** ** The cards of the accounts *)

Lemma map_get_set (m : list (string * Q)) k v k' :
  InstallmentsSection.map_get (InstallmentsSection.map_set m k v) k'
  = if decide (k = k') then Some v else InstallmentsSection.map_get m k'.
Proof.
  induction m as [|[k0 v0] m IH]; simpl.
  - by case_decide.
  - destruct (decide (k0 = k)) as [->|Hne]; simpl.
    + by case_decide.
    + rewrite IH. destruct (decide (k0 = k')) as [->|?]; [|done].
      by rewrite decide_False by done.
Qed.

Lemma map_set_keys (m : list (string * Q)) k v :
  map fst (InstallmentsSection.map_set m k v)
  = if decide (k ∈ map fst m) then map fst m else map fst m ++ [k].
Proof.
  induction m as [|[k0 v0] m IH]; cbn [map InstallmentsSection.map_set fst].
  - rewrite decide_False; [done|]. apply not_elem_of_nil.
  - destruct (decide (k0 = k)) as [->|Hne]; cbn [map fst].
    + rewrite decide_True; [done|]. left.
    + rewrite IH. destruct (decide (k ∈ map fst m)) as [Hin|Hin].
      * rewrite decide_True; [done|]. by right.
      * rewrite decide_False; [done|]. intros [?|?]%elem_of_cons; congruence.
Qed.

Lemma map_set_sum (m : list (string * Q)) k v :
  sumQ (map snd (InstallmentsSection.map_set m k v))
  == sumQ (map snd m) - default 0 (InstallmentsSection.map_get m k) + v.
Proof.
  induction m as [|[k0 v0] m IH]; simpl; [lra|].
  destruct (decide (k0 = k)) as [->|Hne]; simpl.
  - fold (sumQ (map snd m)). lra.
  - fold (sumQ (map snd (InstallmentsSection.map_set m k v))) (sumQ (map snd m)).
    rewrite IH. lra.
Qed.

Lemma get_or_zero_eq (m : list (string * Q)) k :
  InstallmentsSection.get_or_zero m k == default 0 (InstallmentsSection.map_get m k).
Proof.
  unfold InstallmentsSection.get_or_zero.
  destruct (InstallmentsSection.map_get m k); simpl; [apply or_zero_eq|reflexivity].
Qed.

Lemma map_get_elem (m : list (string * Q)) k v :
  NoDup (map fst m) → (k, v) ∈ m → InstallmentsSection.map_get m k = Some v.
Proof.
  induction m as [|[k0 v0] m IH]; intros Hnd Hin; [by apply elem_of_nil in Hin|].
  simpl in *. apply NoDup_cons in Hnd as [Hk0 Hnd].
  apply elem_of_cons in Hin as [[= -> ->]|Hin].
  - by rewrite decide_True.
  - rewrite decide_False; [auto|]. intros ->. apply Hk0.
    apply list_elem_of_fmap. by exists (k, v).
Qed.

Lemma add_installment_open m i :
  open_installment i = true →
  InstallmentsSection.add_installment m i
  = InstallmentsSection.map_set m (Installment.accountId i)
      (InstallmentsSection.get_or_zero m (Installment.accountId i) + monthly_expected i).
Proof.
  unfold open_installment, gtb, InstallmentsSection.add_installment.
  intros H. apply negb_true_iff in H. by rewrite H.
Qed.

Lemma add_installment_closed m i :
  open_installment i = false → InstallmentsSection.add_installment m i = m.
Proof.
  unfold open_installment, gtb, InstallmentsSection.add_installment.
  intros H. apply negb_false_iff in H. by rewrite H.
Qed.

Lemma fold_installments_get l : ∀ m k,
  InstallmentsSection.get_or_zero (foldl InstallmentsSection.add_installment m l) k
  == InstallmentsSection.get_or_zero m k + sumQ (map monthly_expected (open_on k l)).
Proof.
  induction l as [|i l IH]; intros m k; [simpl; lra|].
  cbn [foldl]. rewrite IH. unfold open_on.
  destruct (open_installment i) eqn:Hopen;
    [destruct (decide (Installment.accountId i = k)) as [Heq|Hne]|].
  - rewrite filter_cons, decide_True by done.
    rewrite (add_installment_open _ _ Hopen). repeat rewrite get_or_zero_eq.
    rewrite map_get_set, decide_True by done. rewrite Heq.
    cbn [default from_option Datatypes.id map sumQ foldr].
    fold (sumQ (map monthly_expected
                  (filter (λ i, open_installment i = true ∧ Installment.accountId i = k) l))).
    lra.
  - rewrite filter_cons, decide_False by (intros [? ?]; done).
    rewrite (add_installment_open _ _ Hopen). repeat rewrite get_or_zero_eq.
    rewrite map_get_set, decide_False by done. rewrite (get_or_zero_eq m k). lra.
  - rewrite filter_cons, decide_False by (intros [? ?]; congruence).
    rewrite (add_installment_closed _ _ Hopen). lra.
Qed.

Lemma fold_installments_keys l : ∀ m k,
  k ∈ map fst (foldl InstallmentsSection.add_installment m l) ↔
  k ∈ map fst m ∨ ∃ i, i ∈ l ∧ open_installment i = true ∧ Installment.accountId i = k.
Proof.
  induction l as [|i l IH]; intros m k.
  - simpl. split; [auto|]. intros [?|(i & Hi & _)]; [done|by apply elem_of_nil in Hi].
  - cbn [foldl]. rewrite IH. destruct (open_installment i) eqn:Hopen.
    + rewrite (add_installment_open _ _ Hopen), map_set_keys.
      split.
      * intros [Hk|(j & Hj & Ho & Hid)].
        -- case_decide; [by left|]. apply elem_of_app in Hk as [?|Hk]; [by left|].
           apply list_elem_of_singleton in Hk as ->. right. exists i. split; [left|done].
        -- right. exists j. split; [by right|done].
      * intros [Hk|(j & Hj & Ho & Hid)].
        -- left. case_decide; [done|]. apply elem_of_app. by left.
        -- apply elem_of_cons in Hj as [->|Hj]; [|right; eauto].
           left. rewrite Hid. case_decide as Hin; [done|].
           apply elem_of_app. right. by left.
    + rewrite (add_installment_closed _ _ Hopen). split.
      * intros [?|(j & Hj & Ho & Hid)]; [by left|]. right. exists j. split; [by right|done].
      * intros [?|(j & Hj & Ho & Hid)]; [by left|].
        apply elem_of_cons in Hj as [->|Hj]; [congruence|]. right. eauto.
Qed.

Lemma fold_installments_NoDup l : ∀ m,
  NoDup (map fst m) → NoDup (map fst (foldl InstallmentsSection.add_installment m l)).
Proof.
  induction l as [|i l IH]; intros m Hnd; [done|].
  cbn [foldl]. apply IH. destruct (open_installment i) eqn:Hopen.
  - rewrite (add_installment_open _ _ Hopen), map_set_keys. case_decide as Hin; [done|].
    apply NoDup_app. split; [done|]. split; [|apply NoDup_singleton].
    intros x Hx ->%list_elem_of_singleton. done.
  - by rewrite (add_installment_closed _ _ Hopen).
Qed.

Lemma fold_installments_sum l : ∀ m,
  sumQ (map snd (foldl InstallmentsSection.add_installment m l))
  == sumQ (map snd m)
     + sumQ (map monthly_expected (filter (λ i, open_installment i = true) l)).
Proof.
  induction l as [|i l IH]; intros m; [simpl; lra|].
  cbn [foldl]. rewrite IH, filter_cons. destruct (open_installment i) eqn:Hopen.
  - rewrite (add_installment_open _ _ Hopen), map_set_sum, get_or_zero_eq.
    rewrite decide_True by done. cbn [map sumQ foldr].
    fold (sumQ (map monthly_expected (filter (λ i, open_installment i = true) l))). lra.
  - rewrite (add_installment_closed _ _ Hopen). rewrite decide_False by done. lra.
Qed.

Lemma insert_by_expected_perm x s : InstallmentsSection.insert_by_expected x s ≡ₚ x :: s.
Proof.
  induction s as [|y s IH]; [done|]. simpl.
  destruct (Qle_bool _ _); [done|]. rewrite IH. apply Permutation_swap.
Qed.

Lemma sort_by_expected_perm a : InstallmentsSection.sort_by_expected a ≡ₚ a.
Proof.
  induction a as [|x a IH]; [done|]. simpl.
  rewrite insert_by_expected_perm. by rewrite IH.
Qed.

Lemma insert_by_expected_sorted x s :
  StronglySorted (λ r r', InstallmentsSection.monthlyExpected r'
                          <= InstallmentsSection.monthlyExpected r) s →
  StronglySorted (λ r r', InstallmentsSection.monthlyExpected r'
                          <= InstallmentsSection.monthlyExpected r)
    (InstallmentsSection.insert_by_expected x s).
Proof.
  induction s as [|y s IH]; intros Hs.
  - simpl. repeat constructor.
  - apply StronglySorted_inv in Hs as [Hs Hy]. simpl.
    destruct (Qle_bool _ _) eqn:E.
    + apply Qle_bool_iff in E. constructor; [by constructor|].
      constructor; [done|]. eapply Forall_impl; [exact Hy|].
      intros z Hz. simpl in Hz. lra.
    + assert (InstallmentsSection.monthlyExpected x <= InstallmentsSection.monthlyExpected y)
        as Hyx.
      { apply Qlt_le_weak, Qnot_le_lt. rewrite <- Qle_bool_iff. by rewrite E. }
      constructor; [by apply IH|].
      rewrite insert_by_expected_perm. by constructor.
Qed.

Lemma sort_by_expected_sorted a :
  StronglySorted (λ r r', InstallmentsSection.monthlyExpected r'
                          <= InstallmentsSection.monthlyExpected r)
    (InstallmentsSection.sort_by_expected a).
Proof.
  induction a as [|x a IH]; [constructor|]. simpl. by apply insert_by_expected_sorted.
Qed.

Lemma sumQ_Permutation (a b : list Q) : a ≡ₚ b → sumQ a == sumQ b.
Proof.
  induction 1 as [|x a b _ IH|x y a|a b c _ IH1 _ IH2]; simpl.
  - reflexivity.
  - fold (sumQ a) (sumQ b). lra.
  - lra.
  - by rewrite IH1.
Qed.

Lemma per_account_sum installments accounts selectedCurrency :
  sumQ (map InstallmentsSection.monthlyExpected
          (InstallmentsSection.perAccountMonthly installments accounts selectedCurrency))
  == sumQ (map monthly_expected
             (filter (λ i, open_installment i = true)
                (InstallmentsSection.installmentsForCurrency installments accounts
                   selectedCurrency))).
Proof.
  unfold InstallmentsSection.perAccountMonthly. cbv zeta.
  set (shown := InstallmentsSection.installmentsForCurrency _ _ _).
  set (m := foldl InstallmentsSection.add_installment [] shown).
  set (entries := map _ m).
  rewrite (sumQ_Permutation _ (map InstallmentsSection.monthlyExpected entries))
    by (by rewrite sort_by_expected_perm).
  unfold entries. rewrite map_map. simpl. fold (map snd m).
  unfold m. rewrite fold_installments_sum. simpl. lra.
Qed.


Lemma Qmax_one_pos x : 0 < Qmax 1 x ∧ 1 <= Qmax 1 x ∧ x <= Qmax 1 x.
Proof. destruct (Qmax_cases 1 x) as [[? ->]|[? ->]]; repeat split; lra. Qed.

Lemma monthlyPrincipal_nonneg i :
  0 <= Installment.amount i → 0 <= InstallmentsSection.monthlyPrincipal i.
Proof.
  intros Ha. unfold InstallmentsSection.monthlyPrincipal.
  destruct (Qmax_one_pos (Installment.monthsTotal i)) as (Hpos & _).
  apply Qle_shift_div_l; [done|]. lra.
Qed.

Lemma monthly_expected_nonneg i :
  0 <= Installment.amount i → 0 <= Installment.interestAmountPerMonth i →
  0 <= monthly_expected i.
Proof.
  intros Ha Hi. pose proof (monthlyPrincipal_nonneg i Ha).
  unfold monthly_expected, InstallmentsSection.monthlyInterest.
  destruct (Installment.hasInterest i); lra.
Qed.

Lemma sumQ_plus {A} (f g : A → Q) (a : list A) :
  sumQ (map (λ x, f x + g x) a) == sumQ (map f a) + sumQ (map g a).
Proof.
  induction a as [|x a IH]; [simpl; lra|]. cbn [map sumQ foldr].
  fold (sumQ (map (λ x, f x + g x) a)) (sumQ (map f a)) (sumQ (map g a)). lra.
Qed.

Lemma monthlyTotals_total installments accounts selectedCurrency :
  InstallmentsSection.total
    (InstallmentsSection.monthlyTotals installments accounts selectedCurrency)
  == sumQ (map monthly_expected
             (InstallmentsSection.installmentsForCurrency installments accounts
                selectedCurrency)).
Proof.
  unfold InstallmentsSection.monthlyTotals. cbn [InstallmentsSection.total].
  rewrite !reduce_sum_sumQ. unfold monthly_expected. by rewrite sumQ_plus.
Qed.

Lemma filter_all {A} (P : A → Prop) `{!∀ x, Decision (P x)} (l : list A) :
  (∀ x, x ∈ l → P x) → filter P l = l.
Proof.
  induction l as [|x l IH]; intros Hall; [done|].
  rewrite filter_cons, decide_True by (apply Hall; left).
  rewrite IH; [done|]. intros y Hy. apply Hall. by right.
Qed.



(** ** The installment principal of an account *)

(** The principal that an open installment still owes lies between
    nothing and the amount of the purchase. *)
Lemma principal_remaining_bounds i :
  0 <= Installment.amount i → 0 < Installment.monthsRemaining i →
  Installment.monthsRemaining i <= Installment.monthsTotal i →
  0 <= Installment.amount i / Qmax 1 (Installment.monthsTotal i)
       * Installment.monthsRemaining i ∧
  Installment.amount i / Qmax 1 (Installment.monthsTotal i) * Installment.monthsRemaining i
  <= Installment.amount i.
Proof.
  intros Ha Hr Hrt.
  destruct (Qmax_one_pos (Installment.monthsTotal i)) as (Hpos & _ & Hle).
  pose proof (monthlyPrincipal_nonneg i Ha) as Hp.
  unfold InstallmentsSection.monthlyPrincipal in Hp.
  set (c := Qmax 1 (Installment.monthsTotal i)) in *.
  set (q := Installment.amount i / c) in *.
  assert (q * c == Installment.amount i) as Hq.
  { unfold q. field. lra. }
  split.
  - apply Qmult_le_0_compat; lra.
  - rewrite <- Hq. rewrite !(Qmult_comm q). apply Qmult_le_compat_r; lra.
Qed.



(** * The currencies of the debt page *)

Lemma fold_currencies (l : list Account.t) : ∀ set : list string,
  NoDup set →
  NoDup (foldl (λ set a, if decide (Account.currency a ∈ set) then set
                         else set ++ [Account.currency a]) set l) ∧
  ∀ c, c ∈ foldl (λ set a, if decide (Account.currency a ∈ set) then set
                           else set ++ [Account.currency a]) set l
       ↔ c ∈ set ∨ ∃ a, a ∈ l ∧ Account.currency a = c.
Proof.
  induction l as [|a l IH]; intros set Hnd.
  - simpl. split; [done|]. intros c. split; [auto|].
    intros [?|(a & Ha & _)]; [done|by apply elem_of_nil in Ha].
  - cbn [foldl]. case_decide as Hin.
    + destruct (IH set Hnd) as [Hnd' Hiff]. split; [done|]. intros c. rewrite Hiff.
      split.
      * intros [?|(b & Hb & Hc)]; [by left|]. right. exists b. split; [by right|done].
      * intros [?|(b & Hb & Hc)]; [by left|].
        apply elem_of_cons in Hb as [->|Hb]; [left; by rewrite <- Hc|right; eauto].
    + destruct (IH (set ++ [Account.currency a])) as [Hnd' Hiff].
      { apply NoDup_app. split; [done|]. split; [|apply NoDup_singleton].
        intros x Hx ->%list_elem_of_singleton. done. }
      split; [done|]. intros c. rewrite Hiff, elem_of_app, list_elem_of_singleton.
      split.
      * intros [[? | ->] | (b & Hb & Hc)]; [by left| |].
        -- right. exists a. split; [left|done].
        -- right. exists b. split; [by right|done].
      * intros [?|(b & Hb & Hc)]; [by left; left|].
        apply elem_of_cons in Hb as [->|Hb]; [left; right; done|right; eauto].
Qed.

Lemma elem_of_currencies accounts c :
  c ∈ DebtContent.currencies accounts ↔
  ∃ a, a ∈ accounts ∧ Account.type a = "credit" ∧ Account.currency a = c.
Proof.
  unfold DebtContent.currencies.
  destruct (fold_currencies (DebtContent.creditAccounts accounts) [] (NoDup_nil_2)) as [_ ->].
  unfold DebtContent.creditAccounts. split.
  - intros [Hc|(a & [Ht Ha]%list_elem_of_filter & Hc)]; [by apply elem_of_nil in Hc|]. eauto.
  - intros (a & Ha & Ht & Hc). right. exists a. split; [|done]. by apply list_elem_of_filter.
Qed.

(** X21.  [currencies] holds the currencies of the credit accounts, each
    once.  Once the effect has run, the selected currency is one of them
    whenever there is a credit account, and [debts] is not empty; the
    effect changes nothing when it runs again. *)
Theorem selected_currency_has_accounts accounts config selectedCurrency :
  let selected := DebtContent.select_currency accounts selectedCurrency in
  NoDup (DebtContent.currencies accounts) ∧
  (∀ c, c ∈ DebtContent.currencies accounts ↔
        ∃ a, a ∈ accounts ∧ Account.type a = "credit" ∧ Account.currency a = c) ∧
  (DebtContent.creditAccounts accounts ≠ [] →
     selected ∈ DebtContent.currencies accounts ∧
     DebtContent.debts accounts config selected ≠ []) ∧
  DebtContent.select_currency accounts selected = selected.
Proof.
  intros selected.
  split; [apply (fold_currencies _ [] NoDup_nil_2)|].
  split; [apply elem_of_currencies|].
  assert (DebtContent.currencies accounts ≠ [] → selected ∈ DebtContent.currencies accounts)
    as Hsel.
  { unfold selected, DebtContent.select_currency.
    destruct (DebtContent.currencies accounts) as [|c cs] eqn:E; [done|]. intros _.
    case_decide; [done|left]. }
  split.
  - intros Hne.
    assert (DebtContent.currencies accounts ≠ []) as Hcn.
    { destruct (DebtContent.creditAccounts accounts) as [|a l] eqn:E; [done|].
      assert (a ∈ a :: l) as Ha by left. rewrite <- E in Ha.
      apply list_elem_of_filter in Ha as [Ht Ha].
      assert (Account.currency a ∈ DebtContent.currencies accounts) as Hin
        by (apply elem_of_currencies; eauto).
      intros Hnil. rewrite Hnil in Hin. by apply elem_of_nil in Hin. }
    split; [by apply Hsel|].
    pose proof (Hsel Hcn) as (a & Ha & Ht & Hc)%elem_of_currencies.
    intros Hnil.
    assert (DebtContent.debt_row config a ∈ DebtContent.debts accounts config selected) as Hin
      by (apply elem_of_debts; eauto 6).
    rewrite Hnil in Hin. by apply elem_of_nil in Hin.
  - unfold DebtContent.select_currency at 1.
    destruct (DebtContent.currencies accounts) as [|c cs] eqn:E; [done|].
    rewrite decide_True; [done|]. by apply Hsel.
Qed.

(** * The onboarding steps *)

Lemma click_in_range s c :
  (s < length OnboardingContent.steps)%nat →
  (OnboardingContent.click s c < length OnboardingContent.steps)%nat.
Proof.
  intros Hs. destruct c; unfold OnboardingContent.click, OnboardingContent.handleNext,
    OnboardingContent.handleBack.
  - destruct (s <? _)%nat eqn:E; simpl; [|done]. apply Nat.ltb_lt in E. simpl in *. lia.
  - destruct (0 <? s)%nat; simpl in *; lia.
Qed.

Lemma clicks_in_range clicks : ∀ s,
  (s < length OnboardingContent.steps)%nat →
  (foldl OnboardingContent.click s clicks < length OnboardingContent.steps)%nat.
Proof.
  induction clicks as [|c clicks IH]; intros s Hs; [done|].
  simpl. apply IH. by apply click_in_range.
Qed.

(** X22.  Whatever the clicks on Next and Back, [currentStep] stays an
    index of [steps], so that [steps[currentStep].id] is defined;
    [handleNext] pushes a route only on the last step, "sheets": the
    route is "/dashboard" and [currentStep] stays as it is. *)
Theorem onboarding_step_in_range clicks :
  let currentStep := foldl OnboardingContent.click 0%nat clicks in
  is_Some (OnboardingContent.step_id currentStep) ∧
  ∀ route, (OnboardingContent.handleNext currentStep).2 = Some route →
           OnboardingContent.step_id currentStep = Some "sheets"%string ∧
           route = "/dashboard"%string ∧
           (OnboardingContent.handleNext currentStep).1 = currentStep.
Proof.
  intros currentStep.
  assert (currentStep < length OnboardingContent.steps)%nat as Hs
    by (apply clicks_in_range; simpl; lia).
  split.
  - unfold OnboardingContent.step_id. apply fmap_is_Some, lookup_lt_is_Some. exact Hs.
  - intros route. unfold OnboardingContent.handleNext.
    destruct (currentStep <? _)%nat eqn:E; [done|]. apply Nat.ltb_ge in E.
    simpl in Hs, E. intros [= <-].
    assert (currentStep = 3%nat) as -> by lia. done.
Qed.
